(** * mdu: a multithreaded disk-usage tool

    A shallow embedding of [list.c], [t_queue.c] and [mdu.c], and the
    properties of the traversal, the task queue and the thread pool that
    the specification states about them.

    Layout of the development:
    - [Fs]      what the file system answers to [lstat], [opendir], [readdir];
    - [Mem]     the C heap: nodes of the linked list and task structs;
    - [DList]   list.c, the circular doubly linked list, on the heap;
    - [TQueue]  t_queue.c, the task queue built on the list;
    - [Repr]    a list and a queue on the heap as sequences;
    - [PathBuf] make_path, on a character buffer;
    - [Visit]   the directory visit of mdu.c in both modes;
    - [Pool]    the thread pool as an interleaving of critical sections;
    - [Driver]  start_options_and_run and main;
    - [Pending], [Moves], [Phases], [Opens]
                what stays the same and what gets less while a pool runs;
    - [Signals] the pool when only pthread_cond_signal wakes a thread up;
    - [Teardown] the loops over a list, and list_destroy;
    - [Handles], [Calls]
                the directory streams that are open, and the system calls
                of a run;
    - [Limits]  the visit and the pool with the size of the path buffers
                and the number of directory streams that the process can
                hold open.

    [Visit], [Pool] and [Driver] describe the runs in which every path
    fits into its buffer of [CHAR_BUF] bytes and [opendir] fails only where
    the file system refuses the directory; [Limits] has the runs in which
    a buffer is too small or no descriptor is left, and within the limits
    its runs are those of [Visit] and [Pool]. A failure
    of [malloc] or of [closedir] ends the program through error_handler.c,
    and the runs described here are those without such a failure. A
    failure of [pthread_create] does not end it: a pool has the threads
    that could be created, all of them in [Pool.pool_start], any number
    of them in [Pool.pool_created]. *)

From stdpp Require Import gmap strings list fin_maps.
From Stdlib Require Import ZArith Ascii.

Local Open Scope Z_scope.
Set Warnings "-register-all".

(* ===================================================================== *)
(** * The file system, as the system calls report it *)
(* ===================================================================== *)

Module Fs.

(** The file type bits of [st_mode], as far as [S_ISDIR] and [S_ISREG]
    can tell them apart. *)
Inductive mode_t := S_IFREG | S_IFDIR | S_IFLNK | S_IFCHR | S_IFBLK | S_IFIFO | S_IFSOCK.

Definition S_ISDIR (m : mode_t) : bool :=
  match m with S_IFDIR => true | _ => false end.

Definition S_ISREG (m : mode_t) : bool :=
  match m with S_IFREG => true | _ => false end.

(** The two fields of [struct stat] that mdu.c reads. [st_blocks] counts
    the blocks of 512 bytes of the entry: the file system never reports a
    negative count, though [blkcnt_t] is a signed type. *)
Record stat := Stat { st_mode : mode_t; st_blocks : N }.

(** What the file system holds under one path: the answer of [lstat] on
    the path ([None] when it fails), and the answer of [opendir] on it:
    [None] when the file system refuses to open the directory, otherwise
    the entries that [readdir] hands out in order, each with its [d_name]
    and with what the file system holds under the joined path. The file
    system does not change during a run. That [opendir] also fails when
    the process has no file descriptor left is not part of this answer: it
    depends on the streams that are open at the time of the call, which
    [Limits] counts. *)
Inductive fs_node :=
| Fs_node (lstat_ans : option stat) (opendir_ans : option (list (string * fs_node))).

Definition lstat_of (t : fs_node) : option stat :=
  match t with Fs_node s _ => s end.

Definition opendir_of (t : fs_node) : option (list (string * fs_node)) :=
  match t with Fs_node _ d => d end.

(** A path value of the program: its characters, and what the file system
    holds there. *)
Record Path := mk_path { chars : string; target : fs_node }.

Definition lstat (p : Path) : option stat := lstat_of (target p).

(** A [DIR *]: the entries still to be read. *)
Definition DIR := list (string * fs_node).

(** [opendir] while the process has a file descriptor left. *)
Definition opendir (p : Path) : option DIR := opendir_of (target p).

End Fs.
Export Fs.

(* ===================================================================== *)
(** * Tasks and the heap *)
(* ===================================================================== *)

(** The function a task points to. mdu.c stores [get_block_size_mult] and
    [shutdown_threads]; the queue itself accepts any pointer. *)
Inductive task_fn :=
| fn_get_block_size_mult
| fn_shutdown_threads
| fn_other (id : nat).

Global Instance task_fn_eq_dec : EqDecision task_fn.
Proof. solve_decision. Defined.

(** [struct task]: [path] is [None] for the NULL pointer. *)
Record Task := mk_task { task_pointer : task_fn; path : option Path }.

Module Mem.

Definition addr := nat.
Definition NULL : addr := 0%nat.

(** [struct node] of list.h. *)
Record node := Node { next : addr; prev : addr; value : addr }.

(** The objects that live on the heap. *)
Inductive obj :=
| ONode (n : node)
| OTask (t : Task).

Abbreviation heap := (gmap addr obj).

(** [malloc] followed by the initialisation of the new cell: the address is
    one that is not in use, and not NULL. *)
Definition fresh_addr (h : heap) : addr := fresh ({[NULL]} ∪ dom h).

Definition alloc (o : obj) (h : heap) : addr * heap :=
  let a := fresh_addr h in (a, <[a:=o]> h).

(** [free]: NULL is accepted, anything else has to be allocated. *)
Definition free (h : heap) (a : addr) : option heap :=
  if decide (a = NULL) then Some h
  else match h !! a with
       | Some _ => Some (delete a h)
       | None => None
       end.

Definition get_node (h : heap) (a : addr) : option node :=
  match h !! a with Some (ONode n) => Some n | _ => None end.

Definition get_task (h : heap) (a : addr) : option Task :=
  match h !! a with Some (OTask t) => Some t | _ => None end.

Definition set_next (h : heap) (a x : addr) : option heap :=
  n ← get_node h a; Some (<[a := ONode (Node x (prev n) (value n))]> h).

Definition set_prev (h : heap) (a x : addr) : option heap :=
  n ← get_node h a; Some (<[a := ONode (Node (next n) x (value n))]> h).

End Mem.
Export Mem.

(* ===================================================================== *)
(** * list.c *)
(* ===================================================================== *)

Module DList.

(** A [List *] is the address of its head node, a [ListPos] the address of
    a node. Reading through a pointer that is not a node is undefined in C:
    the functions answer [None] there. *)

Definition make_node (h : heap) (value : addr) : addr * heap :=
  alloc (ONode (Node NULL NULL value)) h.

Definition list_create (h : heap) : addr * heap :=
  let '(list, h) := alloc (ONode (Node NULL NULL NULL)) h in
  (list, <[list := ONode (Node list list NULL)]> h).

Definition list_is_empty (h : heap) (lst : addr) : option bool :=
  n ← get_node h lst; Some (bool_decide (next n = lst)).

Definition list_first (h : heap) (lst : addr) : option addr :=
  n ← get_node h lst; Some (next n).

Definition list_end (lst : addr) : addr := lst.

Definition list_pos_equal (p1 p2 : addr) : bool := bool_decide (p1 = p2).

Definition list_next (h : heap) (pos : addr) : option addr :=
  n ← get_node h pos; Some (next n).

Definition list_prev (h : heap) (pos : addr) : option addr :=
  n ← get_node h pos; Some (prev n).

Definition list_insert (h : heap) (pos : addr) (value : addr) : option (addr * heap) :=
  let '(node, h) := make_node h value in
  before ← list_prev h pos;
  let after := pos in
  h ← set_next h node after;
  h ← set_prev h after node;
  h ← set_prev h node before;
  h ← set_next h before node;
  Some (node, h).

Definition list_inspect (h : heap) (pos : addr) : option addr :=
  n ← get_node h pos; Some (value n).

Definition list_remove (h : heap) (pos : addr) : option (addr * heap) :=
  next_pos ← list_next h pos;
  prev_pos ← list_prev h pos;
  h ← set_next h prev_pos next_pos;
  h ← set_prev h next_pos prev_pos;
  v ← list_inspect h pos;
  h ← free h v;
  h ← free h pos;
  Some (next_pos, h).

End DList.
Export DList.

(* ===================================================================== *)
(** * t_queue.c *)
(* ===================================================================== *)

(** [struct task_queue], without the mutex and the condition variable.
    The type of [task_q] is left open: an address on the heap here, the
    sequence of queued tasks in the thread pool further down. *)
Record Task_queue (L : Type) := mk_queue {
  task_q : L;
  thread_amount : Z;
  block_size : Z;
  t_running : Z;
  permission : bool;
  shutdown : bool
}.
Arguments mk_queue {L}.
Arguments task_q {L}.
Arguments thread_amount {L}.
Arguments block_size {L}.
Arguments t_running {L}.
Arguments permission {L}.
Arguments shutdown {L}.

Module TQueue.

Definition create_task_queue (h : heap) (thread_amount : Z) : Task_queue addr * heap :=
  let '(l, h) := list_create h in
  (mk_queue l thread_amount 0 0 true false, h).

Definition create_task (h : heap) (path : option Path) (task_pointer : task_fn) : addr * heap :=
  alloc (OTask (mk_task task_pointer path)) h.

Definition queue_is_empty (h : heap) (queue : Task_queue addr) : option bool :=
  list_is_empty h (task_q queue).

Definition enqueue (h : heap) (queue : Task_queue addr) (task : addr) : option heap :=
  let list := task_q queue in
  first ← list_first h list;
  first_pos ← list_prev h first;
  '(_, h) ← list_insert h first_pos task;
  Some h.

(** The result is the address of the copy, NULL when the queue is empty. *)
Definition dequeue (h : heap) (queue : Task_queue addr) : option (addr * heap) :=
  e ← queue_is_empty h queue;
  if negb e then
    task_pos ← list_prev h (list_end (task_q queue));
    task ← list_inspect h task_pos;
    t ← get_task h task;
    let '(copy_task, h) := alloc (OTask t) h in
    '(_, h) ← list_remove h task_pos;
    Some (copy_task, h)
  else Some (NULL, h).

(** The heap holds the nodes of a list and the task structs; the buffer of
    a path is no object of it, a struct holds its path by value. The result
    of [kill_task] is the heap after [free(task)] and, with it, the path
    whose buffer [free(task->path)] releases: [None] when the task has no
    path, and for NULL, where nothing is freed. *)
Definition kill_task (h : heap) (task : addr) : option (heap * option Path) :=
  if decide (task = NULL) then Some (h, None)
  else t ← get_task h task;
       h ← free h task;
       Some (h, path t).

End TQueue.
Export TQueue.

(* ===================================================================== *)
(** * The list and the queue as sequences *)
(* ===================================================================== *)

Module Repr.

(** A chain of nodes is described by the addresses of its nodes with the
    value pointer each one holds, from the first node to the last. *)
Definition hd_addr (e : addr) (ns : list (addr * addr)) : addr :=
  match ns with [] => e | n :: _ => n.1 end.

Definition last_addr (p : addr) (ns : list (addr * addr)) : addr :=
  match last ns with None => p | Some n => n.1 end.

(** [seg h p ns e]: the nodes [ns] are linked in this order, the first one
    points back to [p] and the last one on to [e]. *)
Fixpoint seg (h : heap) (p : addr) (ns : list (addr * addr)) (e : addr) : Prop :=
  match ns with
  | [] => True
  | n :: rest =>
      h !! n.1 = Some (ONode (Node (hd_addr e rest) p n.2)) ∧ seg h n.1 rest e
  end.

(** The circular list with head node [lst]. *)
Definition dll (h : heap) (lst : addr) (ns : list (addr * addr)) : Prop :=
  NoDup (lst :: ns.*1) ∧
  h !! lst = Some (ONode (Node (hd_addr lst ns) (last_addr lst ns) NULL)) ∧
  seg h lst ns lst.

(** The queue on the heap holds the tasks [ts], in the order of the list:
    every node points to a task struct of its own. *)
Definition is_queue (h : heap) (queue : Task_queue addr)
    (ns : list (addr * addr)) (ts : list Task) : Prop :=
  h !! NULL = None ∧
  dll h (task_q queue) ns ∧
  NoDup ns.*2 ∧
  Forall2 (λ n t, h !! n.2 = Some (OTask t)) ns ts.

End Repr.
Export Repr.

(* ===================================================================== *)
(** * make_path *)
(* ===================================================================== *)

Module PathBuf.

(** [CHAR_BUF] of t_queue.h. *)
Definition CHAR_BUF : nat := 4096.

Definition NUL : ascii := Ascii.zero.
Definition slash : ascii := "/"%char.

(** A character array is the list of its bytes. Reading or writing outside
    of it is undefined in C: [None] here. *)
Definition store (buf : list ascii) (i : nat) (c : ascii) : option (list ascii) :=
  if decide (i < length buf)%nat then Some (<[i:=c]> buf) else None.

(** [arr[i - 1]]: for [i = 0] the index is in front of the array. *)
Definition read_before (arr : list ascii) (i : nat) : option ascii :=
  match i with O => None | S k => arr !! k end.

(** The string that an array holds: the bytes in front of the first NUL. *)
Fixpoint c_str (arr : list ascii) : option (list ascii) :=
  match arr with
  | [] => None
  | c :: rest => if decide (c = NUL) then Some [] else (c ::.) <$> c_str rest
  end.

(** The array of a string: its bytes and the terminator. *)
Definition c_array (s : string) : list ascii := String.list_ascii_of_string s ++ [NUL].

(** [while (absolute_path[i] != '\0') { new_path[i] = absolute_path[i]; i++; }]
    The loop ends, or leaves the array, within [length absolute_path + 1]
    rounds. *)
Fixpoint copy_path (fuel : nat) (absolute_path new_path : list ascii) (i : nat)
  : option (list ascii * nat) :=
  match fuel with
  | O => None
  | S fuel =>
      c ← absolute_path !! i;
      if decide (c = NUL) then Some (new_path, i)
      else new_path ← store new_path i c;
           copy_path fuel absolute_path new_path (S i)
  end.

(** [while (name[j] != '\0') { new_path[i] = name[j]; i++; j++; }] *)
Fixpoint copy_name (fuel : nat) (name new_path : list ascii) (i j : nat)
  : option (list ascii * nat) :=
  match fuel with
  | O => None
  | S fuel =>
      c ← name !! j;
      if decide (c = NUL) then Some (new_path, i)
      else new_path ← store new_path i c;
           copy_name fuel name new_path (S i) (S j)
  end.

Definition make_path (new_path name absolute_path : list ascii) : option (list ascii) :=
  '(new_path, i) ← copy_path (S (length absolute_path)) absolute_path new_path 0;
  c ← read_before absolute_path i;
  '(new_path, i) ← (if decide (c ≠ slash)
                    then new_path ← store new_path i slash; Some (new_path, S i)
                    else Some (new_path, i));
  '(new_path, i) ← copy_name (S (length name)) name new_path i 0;
  store new_path i NUL.

(** The path that the visit of a directory builds for an entry: [make_path]
    on a new buffer of [CHAR_BUF] bytes, read back as a string. This is the
    path of the program where [make_path] stays inside the buffer
    ([Limits.path_fits]). Where it leaves the buffer the program has no
    defined behaviour, and no path: the empty string stands here only to
    make the function total, and the visit of [Limits] has no result
    there. *)
Definition new_absolute_path (name absolute_path : string) : string :=
  match make_path (replicate CHAR_BUF NUL) (c_array name) (c_array absolute_path) with
  | Some buf => match c_str buf with
                | Some s => String.string_of_list_ascii s
                | None => ""
                end
  | None => ""
  end.

End PathBuf.
Export PathBuf.
Global Arguments new_absolute_path : simpl never.

(* ===================================================================== *)
(** * mdu.c: the visit of a path *)
(* ===================================================================== *)

Module Visit.

(** Values of type [blkcnt_t] in the program. The sums of block counts are
    taken in [Z]: they stay far below the range of the type. *)
Definition blkcnt_t := Z.

Definition blocks (buf : stat) : blkcnt_t := Z.of_N (st_blocks buf).

(** What a visit does besides computing a size, in the order in which it
    happens: the system calls on paths, the line on the error stream, the
    buffers it frees, and in a thread pool the accesses to the task queue,
    each of them one critical section. *)
Inductive event :=
| ev_lstat (p : string)
| ev_opendir (p : string) (opened : bool)
| ev_closedir (p : string)
| ev_stderr (line : string)
| ev_free (p : string)
| ev_add_task (t : Task)
| ev_permission_false
| ev_shutdown.

Definition newline : string := String "010"%char EmptyString.

(** The line of [fprintf(stderr, "mdu: cannot read directory '%s': Permission denied\n", ...)]. *)
Definition cannot_read (absolute_path : string) : string :=
  "mdu: cannot read directory '" +:+ absolute_path +:+ "': Permission denied" +:+ newline.

(** The size, the permission flag afterwards, and what happened. *)
Definition visit_result : Type := blkcnt_t * bool * list event.

Definition and_then (before : list event) (r : visit_result) : visit_result :=
  (r.1.1, r.1.2, before ++ r.2).

Section Dir.

(** The function that the single-threaded mode calls on a directory entry. *)
Variable get_block_size : string → fs_node → bool → visit_result.

(** The loop of [get_size_of_dir] over the entries that [readdir] still
    hands out, from the current value of the local [block_size].
    [permission] is the flag behind [queue_or_permission] in the
    single-threaded mode; with [multithread] the pointer is the queue, which
    the loop reaches through [add_task] only. [task] is [None] for NULL,
    for which [task->task_pointer] is undefined: no task is made then. *)
Fixpoint get_size_of_dir_loop (task : option Task) (permission : bool)
    (absolute_path : string) (absolute_path_buf : stat) (dir : DIR)
    (multithread : bool) (block_size : blkcnt_t) {struct dir} : visit_result :=
  match dir with
  | [] => (block_size, permission, [ev_closedir absolute_path])
  | (d_name, under) :: dir =>
      let new_absolute_path :=
        mk_path (PathBuf.new_absolute_path d_name absolute_path) under in
      let c := chars new_absolute_path in
      match lstat new_absolute_path with
      | None =>
          (block_size + blocks absolute_path_buf, permission,
           [ev_lstat c; ev_free c; ev_closedir absolute_path])
      | Some new_absolute_path_buf =>
          if String.eqb d_name "." then
            and_then [ev_lstat c; ev_free c]
              (get_size_of_dir_loop task permission absolute_path absolute_path_buf
                 dir multithread (block_size + blocks new_absolute_path_buf))
          else if negb (String.eqb d_name "..") then
            if S_ISREG (st_mode new_absolute_path_buf) then
              and_then [ev_lstat c; ev_free c]
                (get_size_of_dir_loop task permission absolute_path absolute_path_buf
                   dir multithread (block_size + blocks new_absolute_path_buf))
            else if multithread then
              let new_task :=
                match task with
                | Some task => [ev_add_task (mk_task (task_pointer task) (Some new_absolute_path))]
                | None => []
                end in
              and_then (ev_lstat c :: new_task)
                (get_size_of_dir_loop task permission absolute_path absolute_path_buf
                   dir multithread block_size)
            else
              let '(size, permission, happened) := get_block_size c under permission in
              and_then (ev_lstat c :: happened ++ [ev_free c])
                (get_size_of_dir_loop task permission absolute_path absolute_path_buf
                   dir multithread (block_size + size))
          else
            and_then [ev_lstat c; ev_free c]
              (get_size_of_dir_loop task permission absolute_path absolute_path_buf
                 dir multithread block_size)
      end
  end.

End Dir.

(** [get_block_size], on the characters of the path and on what the file
    system holds there. *)
Fixpoint get_block_size_at (absolute_path : string) (fs : fs_node) (permission : bool)
    {struct fs} : visit_result :=
  match fs with
  | Fs_node None _ => (0, permission, [ev_lstat absolute_path])
  | Fs_node (Some absolute_path_buf) opendir_ans =>
      if S_ISDIR (st_mode absolute_path_buf) then
        match opendir_ans with
        | None =>
            (blocks absolute_path_buf, false,
             [ev_lstat absolute_path; ev_opendir absolute_path false;
              ev_stderr (cannot_read absolute_path)])
        | Some dir =>
            let '(size, permission, happened) :=
              get_size_of_dir_loop get_block_size_at None permission absolute_path
                absolute_path_buf dir false 0 in
            (0 + size, permission,
             ev_lstat absolute_path :: ev_opendir absolute_path true :: happened)
        end
      else (0 + blocks absolute_path_buf, permission, [ev_lstat absolute_path])
  end.

Definition get_block_size (absolute_path : Path) (permission : bool) : visit_result :=
  get_block_size_at (chars absolute_path) (target absolute_path) permission.

Definition get_size_of_dir (task : option Task) (permission : bool)
    (absolute_path : string) (absolute_path_buf : stat) (dir : DIR)
    (multithread : bool) : visit_result :=
  get_size_of_dir_loop get_block_size_at task permission absolute_path
    absolute_path_buf dir multithread 0.

(** [get_block_size_mult]: the size it returns and what it does on the way.
    The permission flag is in the queue: clearing it is one of the events.
    A task without a path makes [lstat] fail. *)
Definition get_block_size_mult (task : Task) : blkcnt_t * list event :=
  match path task with
  | None => (0, [])
  | Some absolute_path =>
      let p := chars absolute_path in
      match lstat absolute_path with
      | None => (0, [ev_lstat p])
      | Some absolute_path_buf =>
          if S_ISDIR (st_mode absolute_path_buf) then
            match opendir absolute_path with
            | None =>
                (blocks absolute_path_buf,
                 [ev_lstat p; ev_opendir p false; ev_stderr (cannot_read p);
                  ev_permission_false])
            | Some dir =>
                let '(size, _, happened) :=
                  get_size_of_dir (Some task) true p absolute_path_buf dir true in
                (size, ev_lstat p :: ev_opendir p true :: happened)
            end
          else (0 + blocks absolute_path_buf, [ev_lstat p])
      end
  end.

(** [shutdown_threads]: sets the shutdown flag, clears the path of the task
    it was given and returns -1. *)
Definition shutdown_threads (task : Task) : blkcnt_t * list event * Task :=
  (-1, [ev_shutdown], mk_task (task_pointer task) None).

End Visit.
Export Visit.

(* ===================================================================== *)
(** * mdu.c: the thread pool *)
(* ===================================================================== *)

Module Pool.

(** In the pool the queue is taken as the sequence of its tasks, in the
    order of the list: [enqueue] adds a task behind the last one, [dequeue]
    takes the last one ([enqueue_spec], [dequeue_last] and [dequeue_empty]
    show this of the functions on the heap). *)
Abbreviation Queue := (Task_queue (list Task)).

Definition with_task_q (q : Queue) (l : list Task) : Queue :=
  mk_queue l (thread_amount q) (block_size q) (t_running q) (permission q) (shutdown q).

Definition with_block_size {L} (q : Task_queue L) (b : blkcnt_t) : Task_queue L :=
  mk_queue (task_q q) (thread_amount q) b (t_running q) (permission q) (shutdown q).

Definition with_t_running {L} (q : Task_queue L) (n : Z) : Task_queue L :=
  mk_queue (task_q q) (thread_amount q) (block_size q) n (permission q) (shutdown q).

Definition with_permission {L} (q : Task_queue L) (b : bool) : Task_queue L :=
  mk_queue (task_q q) (thread_amount q) (block_size q) (t_running q) b (shutdown q).

Definition with_shutdown {L} (q : Task_queue L) (b : bool) : Task_queue L :=
  mk_queue (task_q q) (thread_amount q) (block_size q) (t_running q) (permission q) b.

Definition q_enqueue (q : Queue) (task : Task) : Queue :=
  with_task_q q (task_q q ++ [task]).

Definition q_dequeue (q : Queue) : option Task * Queue :=
  match last (task_q q) with
  | Some task => (Some task, with_task_q q (removelast (task_q q)))
  | None => (None, q)
  end.

Definition q_is_empty (q : Queue) : bool :=
  match task_q q with [] => true | _ => false end.

(** [add_task]: one critical section, [enqueue] and a signal. *)
Definition add_task (q : Queue) (task : Task) : Queue := q_enqueue q task.

(** The task that shuts a thread down. *)
Definition kill_task_of_pool : Task := mk_task fn_shutdown_threads None.

(** What an event of a task function does to the queue. *)
Definition perform (e : event) (q : Queue) : Queue :=
  match e with
  | ev_add_task t => add_task q t
  | ev_permission_false => with_permission q false
  | ev_shutdown => with_shutdown q true
  | _ => q
  end.

(** [task->task_pointer(task, t_queue)]: the value it returns, what it does
    on the way, and the task afterwards. Only the two functions of mdu.c
    are ever put into a task. *)
Definition call_task_pointer (task : Task) : blkcnt_t * list event * Task :=
  match task_pointer task with
  | fn_get_block_size_mult =>
      let '(size, happened) := get_block_size_mult task in (size, happened, task)
  | fn_shutdown_threads => shutdown_threads task
  | fn_other _ => (0, [], task)
  end.

(** The critical section of [run_task]: the size is added unless the task
    was a kill task, the thread is no longer running a task, and the state
    of the queue is read for [kill_task_initializer]. *)
Definition run_task_locked (q : Queue) (temp_block_size : blkcnt_t) : Queue * bool * Z :=
  let q := if temp_block_size >? -1
           then with_block_size q (block_size q + temp_block_size) else q in
  let q := with_t_running q (t_running q - 1) in
  (q, q_is_empty q, t_running q).

(** The test of [kill_task_initializer]. *)
Definition kill_task_initializer_test (temp_block_size : blkcnt_t) (queue_empty : bool)
    (t_running : Z) : bool :=
  queue_empty && (t_running =? 0) && (temp_block_size >? -1).

(** The [for] loop of [kill_task_initializer]: [int i] runs from [i] up to
    the thread amount, and every round adds a kill task. *)
Fixpoint kill_task_loop (rounds : nat) (q : Queue) : Queue * list event :=
  match rounds with
  | O => (q, [])
  | S rounds =>
      let '(q', evs) := kill_task_loop rounds (add_task q kill_task_of_pool) in
      (q', ev_add_task kill_task_of_pool :: evs)
  end.

Definition kill_task_initializer (q : Queue) (temp_block_size : blkcnt_t)
    (queue_empty : bool) (t_running : Z) : Queue * list event :=
  if kill_task_initializer_test temp_block_size queue_empty t_running
  then kill_task_loop (Z.to_nat (thread_amount q)) q
  else (q, []).

(** [run_task] as one thread runs it when no other thread moves. *)
Definition run_task (q : Queue) (task : Task) : Queue * list event :=
  let '(temp_block_size, todo, _) := call_task_pointer task in
  let q := foldl (λ q e, perform e q) q todo in
  let '(q, queue_empty, t_running) := run_task_locked q temp_block_size in
  let '(q, evs) := kill_task_initializer q temp_block_size queue_empty t_running in
  (q, todo ++ evs).

(** Where a thread of the pool stands in [run_thread]. Between two of these
    points lies one critical section, or one event of a task function. *)
Inductive thread :=
| at_lock (finished : option Task)
    (* about to take the mutex: at the start ([None]), or after [run_task],
       where the task that was run is then destroyed *)
| at_wait
    (* in [pthread_cond_wait] *)
| in_task (task : Task) (todo : list event) (temp_block_size : blkcnt_t)
    (* in [run_task], inside the function of the task: what it still does,
       and the value it returns in the end *)
| in_kill_task_initializer (task : Task) (i : Z)
    (* at the test of the [for] loop, with its counter *)
| returned.

(** [dequeue], [t_running++] and the start of [run_task]. *)
Definition take_task (q : Queue) : option (Queue * list event * thread) :=
  match q_dequeue q with
  | (Some task, q) =>
      let q := with_t_running q (t_running q + 1) in
      let '(temp_block_size, todo, task) := call_task_pointer task in
      Some (q, [], in_task task todo temp_block_size)
  | (None, _) => None
  end.

Definition kill_task_events (finished : option Task) : list event :=
  match finished with
  | Some (mk_task _ (Some p)) => [ev_free (chars p)]
  | _ => []
  end.

(** One step of a thread on the queue [q]: the queue afterwards, the events
    of the step, and where the thread stands then. A thread that waits goes
    on when the queue holds a task; woken up on an empty queue it waits
    again, which changes nothing. *)
Definition run_thread_step (q : Queue) (w : thread)
  : option (Queue * list event * thread) :=
  match w with
  | at_lock finished =>
      if shutdown q then Some (q, kill_task_events finished, returned)
      else if q_is_empty q then Some (q, kill_task_events finished, at_wait)
      else '(q, _, w) ← take_task q; Some (q, kill_task_events finished, w)
  | at_wait =>
      if q_is_empty q then None else take_task q
  | in_task task (e :: todo) temp_block_size =>
      Some (perform e q, [e], in_task task todo temp_block_size)
  | in_task task [] temp_block_size =>
      let '(q, queue_empty, t_running) := run_task_locked q temp_block_size in
      if kill_task_initializer_test temp_block_size queue_empty t_running
      then Some (q, [], in_kill_task_initializer task 0)
      else Some (q, [], at_lock (Some task))
  | in_kill_task_initializer task i =>
      if i <? thread_amount q
      then Some (add_task q kill_task_of_pool, [ev_add_task kill_task_of_pool],
                 in_kill_task_initializer task (i + 1))
      else Some (q, [], at_lock (Some task))
  | returned => None
  end.

(** The pool during [run_mult_thread]: the queue, the threads, whether the
    main thread has added the start task, and everything that happened so
    far. *)
Record pool := mk_pool {
  queue : Queue;
  threads : list thread;
  start_added : bool;
  happened : list event
}.

Definition start_task (start_path : Path) : Task :=
  mk_task fn_get_block_size_mult (Some start_path).

(** The threads are created first; each one is at the start of
    [run_thread] until it takes its first step. [pthread_create] can fail,
    and the program goes on then: [error_handler_value] ends it for a value
    below 0, and the calls of pthreads answer an error with a positive
    number. So of the [thread_amount] threads only [created] exist. *)
Definition pool_created (q : Queue) (created : nat) : pool :=
  mk_pool q (replicate created (at_lock None)) false [].

(** The pool when every [pthread_create] succeeds. *)
Definition pool_start (q : Queue) : pool :=
  mk_pool q (replicate (Z.to_nat (thread_amount q)) (at_lock None)) false [].

Inductive step (start_path : Path) : pool → pool → Prop :=
| step_add_start_task s :
    start_added s = false →
    step start_path s
      (mk_pool (add_task (queue s) (start_task start_path)) (threads s) true
         (happened s ++ [ev_add_task (start_task start_path)]))
| step_thread s i w q' evs w' :
    threads s !! i = Some w →
    run_thread_step (queue s) w = Some (q', evs, w') →
    step start_path s
      (mk_pool q' (<[i:=w']> (threads s)) (start_added s) (happened s ++ evs)).

Definition steps (start_path : Path) : pool → pool → Prop := rtc (step start_path).

(** [pthread_join] on every thread returns: every thread that was created
    has returned. ([pthread_join] on a thread that was not created is an
    error that [error_handler_value] lets pass as well.) *)
Definition joined (s : pool) : Prop :=
  start_added s = true ∧ Forall (λ w, w = returned) (threads s).

(** [run_mult_thread] leads from the queue [q] to the queue [q'], and
    [evs] is what happened on the way, when every [pthread_create]
    succeeds. *)
Definition run_mult_thread (q : Queue) (start_path : Path) (q' : Queue)
    (evs : list event) : Prop :=
  ∃ s, steps start_path (pool_start q) s ∧ joined s ∧ queue s = q' ∧ happened s = evs.

(** The same when only [created] of the threads could be created. *)
Definition run_mult_thread_created (created : nat) (q : Queue) (start_path : Path)
    (q' : Queue) (evs : list event) : Prop :=
  ∃ s, steps start_path (pool_created q created) s ∧ joined s ∧
       queue s = q' ∧ happened s = evs.

(** A schedule names who moves next: the main thread ([None]) or a thread
    of the pool. A move that is not possible is skipped. *)
Definition scheduled_step (start_path : Path) (s : pool) (who : option nat) : pool :=
  match who with
  | None =>
      if start_added s then s
      else mk_pool (add_task (queue s) (start_task start_path)) (threads s) true
             (happened s ++ [ev_add_task (start_task start_path)])
  | Some i =>
      match threads s !! i with
      | Some w =>
          match run_thread_step (queue s) w with
          | Some (q', evs, w') =>
              mk_pool q' (<[i:=w']> (threads s)) (start_added s) (happened s ++ evs)
          | None => s
          end
      | None => s
      end
  end.

Definition run_schedule (start_path : Path) (schedule : list (option nat)) (s : pool) : pool :=
  foldl (scheduled_step start_path) s schedule.

End Pool.
Export Pool.

(* ===================================================================== *)
(** * mdu.c: the driver *)
(* ===================================================================== *)

Module Driver.

(** The queue that [create_task_queue] sets up. *)
Definition new_queue (thread_amount : Z) : Queue :=
  mk_queue [] thread_amount 0 0 true false.

(** [while (!queue_is_empty(t_queue)) kill_task(dequeue(t_queue));]
    Every round takes one task out: [n] rounds are enough for a queue of
    [n] tasks. *)
Fixpoint clear_queue (n : nat) (q : Queue) : Queue :=
  match n with
  | O => q
  | S n => if q_is_empty q then q else clear_queue n (q_dequeue q).2
  end.

(** The end of the loop body of [start_options_and_run], after the line
    for the target is printed. *)
Definition reset_queue (q : Queue) : Queue :=
  let q := with_block_size q 0 in
  let q := with_t_running q 0 in
  let q := with_shutdown q false in
  clear_queue (length (task_q q)) q.

(** The run on one target: with more than one thread the pool, otherwise
    the recursion, whose result is stored in the queue. *)
Inductive run_target (q : Queue) (path : Path) : Queue → list event → Prop :=
| run_target_pool q' evs :
    thread_amount q > 1 →
    run_mult_thread q path q' evs →
    run_target q path q' evs
| run_target_recursive :
    thread_amount q ≤ 1 →
    run_target q path
      (with_block_size
         (with_permission q (get_block_size path (permission q)).1.2)
         (get_block_size path (permission q)).1.1)
      (get_block_size path (permission q)).2.

(** A line of [printf("%ld\t%s\n", ...)]: the number and the path. *)
Definition line : Type := blkcnt_t * string.

(** [start_options_and_run] on the targets: the queue in the end, the
    lines on the output and the events, in order. *)
Inductive start_options_and_run : Queue → list Path → Queue → list line → list event → Prop :=
| run_no_target q :
    start_options_and_run q [] q [] []
| run_next_target q path targets q1 evs1 q2 out evs2 :
    run_target q path q1 evs1 →
    start_options_and_run (reset_queue q1) targets q2 out evs2 →
    start_options_and_run q (path :: targets) q2
      ((block_size q1, chars path) :: out) (evs1 ++ evs2).

Definition EXIT_SUCCESS : Z := 0.
Definition EXIT_FAILURE : Z := 1.

(** [main], from the thread amount and the paths that the command line
    gives: the exit status, the output and the events. *)
Inductive main (thread_amount : Z) (path_names : list Path) : Z → list line → list event → Prop :=
| main_exit q out evs :
    start_options_and_run (new_queue thread_amount) path_names q out evs →
    main thread_amount path_names
      (if permission q then EXIT_SUCCESS else EXIT_FAILURE) out evs.

End Driver.
Export Driver.

(* ===================================================================== *)
(** * What is still to come in a pool *)
(* ===================================================================== *)

Module Pending.

(** Sums over the tasks of the queue, the events of a task function and
    the threads of the pool. *)
Fixpoint sumZ {A} (f : A → Z) (l : list A) : Z :=
  match l with
  | [] => 0
  | x :: l => f x + sumZ f l
  end.

(** The size and the permission flag that the recursion finds under a path,
    started with a flag that is true. *)
Definition size_under (p : Path) : blkcnt_t := (get_block_size p true).1.1.
Definition readable_under (p : Path) : bool := (get_block_size p true).1.2.

(** What a task in the queue stands for: the size of everything under its
    path, and whether every directory there can be opened. A kill task
    stands for nothing. *)
Definition task_size (t : Task) : blkcnt_t :=
  match task_pointer t, path t with
  | fn_get_block_size_mult, Some p => size_under p
  | _, _ => 0
  end.

Definition task_readable (t : Task) : bool :=
  match task_pointer t, path t with
  | fn_get_block_size_mult, Some p => readable_under p
  | _, _ => true
  end.

(** The same for an event that a task function still has to perform. *)
Definition event_size (e : event) : blkcnt_t :=
  match e with ev_add_task t => task_size t | _ => 0 end.

Definition event_readable (e : event) : bool :=
  match e with
  | ev_add_task t => task_readable t
  | ev_permission_false => false
  | _ => true
  end.

(** And for a thread: the value it will add when its task function has
    returned, and the tasks that the function will still add. *)
Definition thread_size (w : thread) : blkcnt_t :=
  match w with
  | in_task _ todo temp_block_size =>
      (if temp_block_size >? -1 then temp_block_size else 0) + sumZ event_size todo
  | _ => 0
  end.

Definition thread_readable (w : thread) : bool :=
  match w with
  | in_task _ todo _ => forallb event_readable todo
  | _ => true
  end.

Definition pool_size (start_path : Path) (s : pool) : blkcnt_t :=
  block_size (queue s) + sumZ task_size (task_q (queue s))
  + sumZ thread_size (threads s)
  + (if start_added s then 0 else task_size (start_task start_path)).

Definition pool_readable (start_path : Path) (s : pool) : bool :=
  permission (queue s) && forallb task_readable (task_q (queue s))
  && forallb thread_readable (threads s)
  && (if start_added s then true else task_readable (start_task start_path)).

End Pending.
Export Pending.

(* ===================================================================== *)
(** * The moves of a thread, one by one *)
(* ===================================================================== *)

Module Moves.

(** The queue after the critical section of [run_task]. *)
Definition accounted (q : Queue) (temp_block_size : blkcnt_t) : Queue :=
  (run_task_locked q temp_block_size).1.1.

(** The queue after [dequeue] has taken the last task and [t_running] is
    incremented. *)
Definition taken (q : Queue) (l : list Task) : Queue :=
  with_t_running (with_task_q q l) (t_running q + 1).

(** [run_thread_step], case by case. *)
Inductive thread_step (q : Queue) : thread → Queue → list event → thread → Prop :=
| move_return finished :
    shutdown q = true →
    thread_step q (at_lock finished) q (kill_task_events finished) returned
| move_wait finished :
    shutdown q = false → task_q q = [] →
    thread_step q (at_lock finished) q (kill_task_events finished) at_wait
| move_take finished l t temp todo t' :
    shutdown q = false → task_q q = l ++ [t] →
    call_task_pointer t = (temp, todo, t') →
    thread_step q (at_lock finished) (taken q l) (kill_task_events finished)
      (in_task t' todo temp)
| move_wake l t temp todo t' :
    task_q q = l ++ [t] →
    call_task_pointer t = (temp, todo, t') →
    thread_step q at_wait (taken q l) [] (in_task t' todo temp)
| move_event task e todo temp :
    thread_step q (in_task task (e :: todo) temp) (perform e q) [e] (in_task task todo temp)
| move_account_last task temp :
    kill_task_initializer_test temp (q_is_empty (accounted q temp))
      (t_running (accounted q temp)) = true →
    thread_step q (in_task task [] temp) (accounted q temp) []
      (in_kill_task_initializer task 0)
| move_account task temp :
    kill_task_initializer_test temp (q_is_empty (accounted q temp))
      (t_running (accounted q temp)) = false →
    thread_step q (in_task task [] temp) (accounted q temp) [] (at_lock (Some task))
| move_kill_task task i :
    i < thread_amount q →
    thread_step q (in_kill_task_initializer task i) (add_task q kill_task_of_pool)
      [ev_add_task kill_task_of_pool] (in_kill_task_initializer task (i + 1))
| move_kill_done task i :
    thread_amount q ≤ i →
    thread_step q (in_kill_task_initializer task i) q [] (at_lock (Some task)).

End Moves.
Export Moves.
Global Arguments accounted : simpl never.

(* ===================================================================== *)
(** * The two phases of a pool *)
(* ===================================================================== *)

Module Phases.

Definition is_kill (t : Task) : bool :=
  bool_decide (task_pointer t = fn_shutdown_threads).

(** A thread that is inside the function of a task which is not a kill
    task, or about to add its result. *)
Definition holds_work (w : thread) : bool :=
  match w with in_task task _ _ => negb (is_kill task) | _ => false end.

(** The pool is at work as long as the start task is still to come, or a
    task that is not a kill task is in the queue or in a thread. After that
    it winds down. *)
Definition working (s : pool) : bool :=
  negb (start_added s)
  || existsb (λ t, negb (is_kill t)) (task_q (queue s))
  || existsb holds_work (threads s).

Definition running (w : thread) : Z :=
  match w with in_task _ _ _ => 1 | _ => 0 end.

(** A thread that has taken a kill task out of the queue. *)
Definition has_kill (w : thread) : Z :=
  match w with
  | in_task task _ _ | at_lock (Some task) => if is_kill task then 1 else 0
  | _ => 0
  end.

(** The kill tasks that a thread in [kill_task_initializer] still adds. *)
Definition kill_budget (N : Z) (w : thread) : Z :=
  match w with in_kill_task_initializer _ i => N - i | _ => 0 end.

Definition alive (w : thread) : Z :=
  match w with returned => 0 | _ => 1 end.

(** The kill tasks that were added to the queue, among the events. *)
Definition kill_tasks_added (evs : list event) : Z :=
  sumZ (λ e, match e with ev_add_task t => if is_kill t then 1 else 0 | _ => 0 end) evs.

(** An event of a task function that is not a kill task. *)
Definition event_of_work (e : event) : Prop :=
  match e with
  | ev_add_task t => is_kill t = false
  | ev_shutdown => False
  | _ => True
  end.

(** The threads while the pool is at work. *)
Definition thread_at_work (w : thread) : Prop :=
  match w with
  | at_lock None | at_wait => True
  | at_lock (Some t) => is_kill t = false
  | in_task t todo temp => is_kill t = false ∧ 0 ≤ temp ∧ Forall event_of_work todo
  | in_kill_task_initializer _ _ | returned => False
  end.

(** The threads while the pool winds down. *)
Definition thread_winding_down (N : Z) (q : Queue) (w : thread) : Prop :=
  match w with
  | at_lock None | at_wait | returned => True
  | at_lock (Some t) => is_kill t = true → shutdown q = true
  | in_task t todo temp =>
      is_kill t = true ∧ temp = -1 ∧
      (todo = [ev_shutdown] ∨ (todo = [] ∧ shutdown q = true))
  | in_kill_task_initializer t i => is_kill t = false ∧ 0 ≤ i ≤ N
  end.

(** What holds of every state of a pool with the thread amount [N], of
    which no more threads than [N] exist. *)
Record pool_inv (N : Z) (s : pool) : Prop := {
  inv_amount : thread_amount (queue s) = N;
  inv_threads : Z.of_nat (length (threads s)) ≤ N;
  inv_running : t_running (queue s) = sumZ running (threads s);
  inv_idle :
    start_added s = false →
    task_q (queue s) = [] ∧ Forall (λ w, w = at_lock None ∨ w = at_wait) (threads s);
  inv_working :
    working s = true →
    shutdown (queue s) = false ∧
    Forall (λ t, is_kill t = false) (task_q (queue s)) ∧
    Forall thread_at_work (threads s);
  inv_winding_down :
    working s = false →
    Forall (λ t, is_kill t = true) (task_q (queue s)) ∧
    Forall (thread_winding_down N (queue s)) (threads s) ∧
    sumZ alive (threads s)
    ≤ Z.of_nat (length (task_q (queue s))) + sumZ has_kill (threads s)
      + sumZ (kill_budget N) (threads s)
}.

(** A bound on the moves that are left. *)
Fixpoint fs_weight (t : fs_node) : Z :=
  match t with
  | Fs_node _ None => 8
  | Fs_node _ (Some dir) =>
      8 + (fix dir_weight (dir : list (string * fs_node)) : Z :=
             match dir with
             | [] => 0
             | (_, under) :: dir => 3 + fs_weight under + dir_weight dir
             end) dir
  end.

Definition dir_weight (dir : list (string * fs_node)) : Z :=
  sumZ (λ e, 3 + fs_weight e.2) dir.

Definition task_weight (t : Task) : Z :=
  if is_kill t then 4
  else match path t with Some p => fs_weight (target p) | None => 8 end.

Definition event_weight (e : event) : Z :=
  match e with ev_add_task t => 1 + task_weight t | _ => 1 end.

Definition thread_weight (N : Z) (w : thread) : Z :=
  match w with
  | at_lock _ => 2
  | at_wait => 1
  | in_task _ todo _ => sumZ event_weight todo + 3
  | in_kill_task_initializer _ i => (N - i) * 5 + 3
  | returned => 0
  end.

Definition pool_weight (start_path : Path) (N : Z) (s : pool) : Z :=
  (if working s then N * 5 + 4 else 0)
  + (if start_added s then 0 else 1 + task_weight (start_task start_path))
  + sumZ task_weight (task_q (queue s))
  + sumZ (thread_weight N) (threads s).

End Phases.
Export Phases.

(* ===================================================================== *)
(** * Directories that cannot be opened *)
(* ===================================================================== *)

Module Opens.

(** An [opendir] that failed is among the events. *)
Definition failed_open (evs : list event) : bool :=
  existsb (λ e, match e with ev_opendir _ false => true | _ => false end) evs.

(** No [opendir] fails in what an event, a thread or the pool still has to
    do, nor in what has happened. *)
Definition event_opens (e : event) : bool :=
  match e with
  | ev_add_task t => task_readable t
  | ev_opendir _ false => false
  | _ => true
  end.

Definition thread_opens (w : thread) : bool :=
  match w with
  | in_task _ todo _ => forallb event_opens todo
  | _ => true
  end.

Definition pool_opens (start_path : Path) (s : pool) : bool :=
  negb (failed_open (happened s)) && forallb task_readable (task_q (queue s))
  && forallb thread_opens (threads s)
  && (if start_added s then true else task_readable (start_task start_path)).

(** The queue as the driver hands it to the run on a target. *)
Definition clean (q : Queue) : Prop :=
  task_q q = [] ∧ block_size q = 0 ∧ t_running q = 0 ∧ shutdown q = false.

End Opens.
Export Opens.

(* ===================================================================== *)
(** * Two small trees *)
(* ===================================================================== *)

Module Examples.

Definition dir8 : stat := Stat S_IFDIR 8.
Definition file8 : fs_node := Fs_node (Some (Stat S_IFREG 8)) None.

(** The entries [.] and [..] of a directory of 8 blocks: [lstat] on them
    answers with a directory. *)
Definition self8 : string * fs_node := (".", Fs_node (Some dir8) None).
Definition parent8 : string * fs_node := ("..", Fs_node (Some dir8) None).

(** [/tmp/f]: a directory of 8 blocks with the file [a] of 8 blocks. *)
Definition tmp_f : Path :=
  mk_path "/tmp/f" (Fs_node (Some dir8) (Some [self8; parent8; ("a", file8)])).

(** [/tmp/g]: a directory of 8 blocks with the directory [h] of 8 blocks,
    which cannot be opened, and the file [a] of 8 blocks. *)
Definition tmp_g : Path :=
  mk_path "/tmp/g"
    (Fs_node (Some dir8)
       (Some [self8; parent8; ("h", Fs_node (Some dir8) None); ("a", file8)])).

End Examples.
Export Examples.

(* ===================================================================== *)
(** * mdu.c: the condition variable of the pool *)
(* ===================================================================== *)

Module Signals.

(** [add_task] ends with [pthread_cond_signal], and [run_thread] waits in
    [pthread_cond_wait]. The steps of [Pool] let a waiting thread go on
    whenever the queue holds a task, as if it were woken up at any time.
    Here a thread that waits is blocked until a signal releases it; then it
    takes the mutex and tests the queue again. Next to each thread stands
    whether it is blocked. *)
Definition blocked (wb : thread * bool) : Z := if wb.2 then 1 else 0.

(** [pthread_cond_signal] releases at least one of the threads that are
    blocked, if there is one; it blocks no thread and moves none. *)
Definition pthread_cond_signal (ws ws' : list (thread * bool)) : Prop :=
  Forall2 (λ wb wb', wb'.1 = wb.1 ∧ (wb'.2 = true → wb.2 = true)) ws ws' ∧
  (0 < sumZ blocked ws → sumZ blocked ws' < sumZ blocked ws).

(** The events of a step that come with a signal: those of [add_task]. *)
Definition signals (evs : list event) : bool :=
  existsb (λ e, match e with ev_add_task _ => true | _ => false end) evs.

Definition after_events (evs : list event) (ws ws' : list (thread * bool)) : Prop :=
  if signals evs then pthread_cond_signal ws ws' else ws' = ws.

(** A thread that has just got to [pthread_cond_wait] is blocked. *)
Definition waits (w : thread) : bool :=
  match w with at_wait => true | _ => false end.

Record cv_pool := mk_cv_pool {
  cv_queue : Queue;
  cv_threads : list (thread * bool);
  cv_start_added : bool;
  cv_happened : list event
}.

Definition pool_of (s : cv_pool) : pool :=
  mk_pool (cv_queue s) (cv_threads s).*1 (cv_start_added s) (cv_happened s).

Definition cv_created (q : Queue) (created : nat) : cv_pool :=
  mk_cv_pool q (replicate created (at_lock None, false)) false [].

Definition cv_start (q : Queue) : cv_pool :=
  mk_cv_pool q (replicate (Z.to_nat (thread_amount q)) (at_lock None, false)) false [].

(** The steps of the pool when only signals wake the threads up. A thread
    that is blocked does not move. A thread that was released and finds the
    queue empty waits again, and is blocked again. *)
Inductive cv_step (start_path : Path) : cv_pool → cv_pool → Prop :=
| cv_add_start_task s ws' :
    cv_start_added s = false →
    pthread_cond_signal (cv_threads s) ws' →
    cv_step start_path s
      (mk_cv_pool (add_task (cv_queue s) (start_task start_path)) ws' true
         (cv_happened s ++ [ev_add_task (start_task start_path)]))
| cv_thread s i w q' evs w' ws' :
    cv_threads s !! i = Some (w, false) →
    run_thread_step (cv_queue s) w = Some (q', evs, w') →
    after_events evs (<[i:=(w', waits w')]> (cv_threads s)) ws' →
    cv_step start_path s
      (mk_cv_pool q' ws' (cv_start_added s) (cv_happened s ++ evs))
| cv_wait_again s i :
    cv_threads s !! i = Some (at_wait, false) →
    q_is_empty (cv_queue s) = true →
    cv_step start_path s
      (mk_cv_pool (cv_queue s) (<[i:=(at_wait, true)]> (cv_threads s))
         (cv_start_added s) (cv_happened s)).

Definition cv_steps (start_path : Path) : cv_pool → cv_pool → Prop :=
  rtc (cv_step start_path).

(** What holds of the blocked threads in every state of a pool with the
    thread amount [N]: only a thread in [pthread_cond_wait] is blocked;
    while a task is in the queue, not all threads are blocked; and while
    the pool winds down, no more threads are blocked than kill tasks are
    still to be added, each of them with a signal. *)
Record cv_inv (N : Z) (s : cv_pool) : Prop := {
  cv_blocked_waits : Forall (λ wb, wb.2 = true → wb.1 = at_wait) (cv_threads s);
  cv_task_seen :
    task_q (cv_queue s) ≠ [] → sumZ blocked (cv_threads s) < Z.of_nat (length (cv_threads s));
  cv_kill_tasks_to_come :
    working (pool_of s) = false →
    sumZ blocked (cv_threads s) ≤ sumZ (kill_budget N) (cv_threads s).*1
}.

(** A thread that was released and has not yet tested the queue again. *)
Definition released (wb : thread * bool) : Z :=
  match wb with (at_wait, false) => 1 | _ => 0 end.

(** A bound on the steps that are left. *)
Definition cv_weight (start_path : Path) (N : Z) (s : cv_pool) : Z :=
  (N + 1) * pool_weight start_path N (pool_of s) + sumZ released (cv_threads s).

(** A signal that releases the first thread that is blocked. *)
Fixpoint release_first (ws : list (thread * bool)) : list (thread * bool) :=
  match ws with
  | [] => []
  | (w, true) :: ws => (w, false) :: ws
  | wb :: ws => wb :: release_first ws
  end.

(** A schedule as in [Pool], for the steps with signals. *)
Definition cv_scheduled_step (start_path : Path) (s : cv_pool) (who : option nat) : cv_pool :=
  match who with
  | None =>
      if cv_start_added s then s
      else mk_cv_pool (add_task (cv_queue s) (start_task start_path))
             (release_first (cv_threads s)) true
             (cv_happened s ++ [ev_add_task (start_task start_path)])
  | Some i =>
      match cv_threads s !! i with
      | Some (w, false) =>
          match run_thread_step (cv_queue s) w with
          | Some (q', evs, w') =>
              let ws := <[i:=(w', waits w')]> (cv_threads s) in
              mk_cv_pool q' (if signals evs then release_first ws else ws)
                (cv_start_added s) (cv_happened s ++ evs)
          | None =>
              if waits w && q_is_empty (cv_queue s)
              then mk_cv_pool (cv_queue s) (<[i:=(at_wait, true)]> (cv_threads s))
                     (cv_start_added s) (cv_happened s)
              else s
          end
      | _ => s
      end
  end.

Definition cv_run_schedule (start_path : Path) (schedule : list (option nat))
    (s : cv_pool) : cv_pool :=
  foldl (cv_scheduled_step start_path) s schedule.

End Signals.
Export Signals.

(* ===================================================================== *)
(** * list.c and t_queue.c: walking a list and tearing it down *)
(* ===================================================================== *)

Module Teardown.

(** The loop of [start_options_and_run] over the list of targets:
    [while (!list_pos_equal(current_pos, list_end(targets)))] with
    [list_inspect(current_pos)] in the body and
    [current_pos = list_next(current_pos)] at its end. The result is the
    values that the loop inspects, in this order. *)
Fixpoint inspect_from (fuel : nat) (h : heap) (targets current_pos : addr)
  : option (list addr) :=
  match fuel with
  | O => None
  | S fuel =>
      if negb (list_pos_equal current_pos (list_end targets)) then
        path ← list_inspect h current_pos;
        current_pos ← list_next h current_pos;
        rest ← inspect_from fuel h targets current_pos;
        Some (path :: rest)
      else Some []
  end.

Definition inspect_all (fuel : nat) (h : heap) (targets : addr) : option (list addr) :=
  current_pos ← list_first h targets;
  inspect_from fuel h targets current_pos.

(** [while (pos.node != &lst->head) { pos = list_remove(pos); }] *)
Fixpoint list_destroy_loop (fuel : nat) (h : heap) (lst pos : addr) : option heap :=
  match fuel with
  | O => None
  | S fuel =>
      if decide (pos ≠ lst) then
        '(pos, h) ← list_remove h pos;
        list_destroy_loop fuel h lst pos
      else Some h
  end.

Definition list_destroy (fuel : nat) (h : heap) (lst : addr) : option heap :=
  e ← list_is_empty h lst;
  h ← (if negb e then pos ← list_first h lst; list_destroy_loop fuel h lst pos
       else Some h);
  free h lst.

(** A heap with a list of two tasks: the head node at 1, the nodes at 3 and
    5, the task structs at 2 and 4. The first task has no path, the second
    one is a task of the pool for [/tmp/g]. *)
Definition task_a : Task := mk_task (fn_other 1) None.
Definition task_b : Task := mk_task fn_get_block_size_mult (Some tmp_g).

Definition two_tasks : heap :=
  <[5%nat := ONode (Node 1%nat 3%nat 4%nat)]>
    (<[4%nat := OTask task_b]>
       (<[3%nat := ONode (Node 5%nat 1%nat 2%nat)]>
          (<[2%nat := OTask task_a]>
             (<[1%nat := ONode (Node 3%nat 5%nat NULL)]> ∅)))).

Definition two_tasks_queue : Task_queue addr := mk_queue 1%nat 2 0 0 true false.

End Teardown.
Export Teardown.

(* ===================================================================== *)
(** * Directories that are open, and what an entry adds *)
(* ===================================================================== *)

Module Handles.

(** An [opendir] that succeeds opens a directory stream and [closedir]
    closes one. *)
Definition dir_change (e : event) : Z :=
  match e with
  | ev_opendir _ true => 1
  | ev_closedir _ => -1
  | _ => 0
  end.

(** The directory streams that are open after the events. *)
Definition open_dirs (evs : list event) : Z := sumZ dir_change evs.

(** The events are gone through with [cur] streams open at the start: at
    no point are fewer than 0 or more than [limit] streams open. The
    result is the number of streams that are open in the end. *)
Fixpoint dirs_ok (limit cur : Z) (evs : list event) : option Z :=
  if bool_decide (0 ≤ cur ≤ limit) then
    match evs with
    | [] => Some cur
    | e :: evs => dirs_ok limit (cur + dir_change e) evs
    end
  else None.

(** How deep the directories are nested under a path. *)
Fixpoint fs_depth (t : fs_node) : Z :=
  match t with
  | Fs_node _ None => 0
  | Fs_node _ (Some dir) =>
      1 + (fix dir_depth (dir : list (string * fs_node)) : Z :=
             match dir with
             | [] => 0
             | (_, under) :: dir => Z.max (fs_depth under) (dir_depth dir)
             end) dir
  end.

Fixpoint dir_depth (dir : list (string * fs_node)) : Z :=
  match dir with
  | [] => 0
  | (_, under) :: dir => Z.max (fs_depth under) (dir_depth dir)
  end.

(** The directory streams that a thread of the pool still has to close. *)
Definition to_close (w : thread) : Z :=
  match w with in_task _ todo _ => - open_dirs todo | _ => 0 end.

(** A thread of the pool has at most one directory stream open, and what
    it still does closes it. *)
Definition thread_dirs_ok (w : thread) : Prop :=
  match w with
  | in_task _ todo _ => dirs_ok 1 (- open_dirs todo) todo = Some 0
  | _ => True
  end.

(** What an entry of the directory [absolute_path] adds to the size in the
    recursive mode when [lstat] succeeds on it, and whether the permission
    flag stays as it is. *)
Definition entry_size (absolute_path : string) (e : string * fs_node) : blkcnt_t :=
  match lstat_of e.2 with
  | None => 0
  | Some new_absolute_path_buf =>
      if String.eqb e.1 "." then blocks new_absolute_path_buf
      else if negb (String.eqb e.1 "..") then
        if S_ISREG (st_mode new_absolute_path_buf) then blocks new_absolute_path_buf
        else (get_block_size_at (new_absolute_path e.1 absolute_path) e.2 true).1.1
      else 0
  end.

Definition entry_readable (absolute_path : string) (e : string * fs_node) : bool :=
  match lstat_of e.2 with
  | None => true
  | Some new_absolute_path_buf =>
      if String.eqb e.1 "." then true
      else if negb (String.eqb e.1 "..") then
        if S_ISREG (st_mode new_absolute_path_buf) then true
        else (get_block_size_at (new_absolute_path e.1 absolute_path) e.2 true).1.2
      else true
  end.

End Handles.
Export Handles.

(* ===================================================================== *)
(** * System calls and lines on the error stream *)
(* ===================================================================== *)

Module Calls.

(** What can be seen of a run from outside: the system calls on paths and
    the lines on the error stream. *)
Inductive call :=
| c_lstat (p : string)
| c_opendir (p : string) (opened : bool)
| c_closedir (p : string)
| c_stderr (line : string).

Global Instance call_eq_dec : EqDecision call.
Proof. solve_decision. Defined.

Definition call_of (e : event) : option call :=
  match e with
  | ev_lstat p => Some (c_lstat p)
  | ev_opendir p opened => Some (c_opendir p opened)
  | ev_closedir p => Some (c_closedir p)
  | ev_stderr line => Some (c_stderr line)
  | ev_free _ | ev_add_task _ | ev_permission_false | ev_shutdown => None
  end.

Definition calls (evs : list event) : list call := omap call_of evs.

(** How often the call [x] is among the events. *)
Definition occurs (x : call) (e : event) : Z :=
  if decide (call_of e = Some x) then 1 else 0.

Section Count.

(** A way of counting events. *)
Variable c : event → Z.

(** What is still to be counted for a task in the queue: the events of the
    recursion on its path. *)
Definition task_count (t : Task) : Z :=
  match task_pointer t, path t with
  | fn_get_block_size_mult, Some p => sumZ c (get_block_size p true).2
  | _, _ => 0
  end.

(** For an event that a task function still has to perform: the event, and
    the task that it adds. *)
Definition event_count (e : event) : Z :=
  c e + match e with ev_add_task t => task_count t | _ => 0 end.

Definition thread_count (w : thread) : Z :=
  match w with in_task _ todo _ => sumZ event_count todo | _ => 0 end.

Definition pool_count (start_path : Path) (s : pool) : Z :=
  sumZ c (happened s) + sumZ task_count (task_q (queue s))
  + sumZ thread_count (threads s)
  + (if start_added s then 0 else task_count (start_task start_path)).

End Count.

End Calls.
Export Calls.

(* ===================================================================== *)
(** * mdu.c within the limits of its buffers and of the open files *)
(* ===================================================================== *)

Module Limits.

(** [Visit] and [Pool] describe a run in which every path that is built
    fits into its buffer and [opendir] finds a file descriptor free
    whenever it is called. The program checks neither. [make_path] writes
    into a buffer of [CHAR_BUF] bytes without looking at its size, and what
    the program does once a write has left the buffer is not defined.
    [opendir] fails when the process cannot open one more file, and
    [get_block_size] keeps the directory of every level open while it
    visits the levels below. Here both limits are part of the run: a visit
    or a step in which [make_path] or [strcpy] leaves its buffer has no
    result, and [opendir] fails while [limit] directory streams are open,
    [limit] being the number of streams that the process can hold open at
    a time. *)

(** [make_path] on the new buffer of an entry stays inside it. *)
Definition path_fits (d_name absolute_path : string) : bool :=
  match make_path (replicate CHAR_BUF NUL) (c_array d_name) (c_array absolute_path) with
  | Some _ => true
  | None => false
  end.

(** [strcpy(path, start_path)] in [run_mult_thread] stays inside the buffer
    of [CHAR_BUF] bytes. *)
Definition start_fits (start_path : string) : bool :=
  bool_decide (String.length start_path < CHAR_BUF)%nat.

(** The calls of [make_path] in one run of the loop of [get_size_of_dir]
    stay inside their buffers. The loop ends with the first entry on which
    [lstat] fails. *)
Fixpoint loop_fits (absolute_path : string) (dir : DIR) : bool :=
  match dir with
  | [] => true
  | (d_name, under) :: dir =>
      path_fits d_name absolute_path &&
      match lstat_of under with
      | None => true
      | Some _ => loop_fits absolute_path dir
      end
  end.

(** The same for all the loops of the visit of a path: the one on the
    path itself, if it is a directory that can be opened, and those on the
    entries for which a task is made or [get_block_size] is called. *)
Fixpoint visit_fits (absolute_path : string) (fs : fs_node) : bool :=
  match fs with
  | Fs_node (Some absolute_path_buf) (Some dir) =>
      if S_ISDIR (st_mode absolute_path_buf) then
        (fix entries_fit (dir : DIR) : bool :=
           match dir with
           | [] => true
           | (d_name, under) :: dir =>
               path_fits d_name absolute_path &&
               match lstat_of under with
               | None => true
               | Some new_absolute_path_buf =>
                   (if String.eqb d_name "." then true
                    else if negb (String.eqb d_name "..") then
                      if S_ISREG (st_mode new_absolute_path_buf) then true
                      else visit_fits (new_absolute_path d_name absolute_path) under
                    else true)
                   && entries_fit dir
               end
           end) dir
      else true
  | _ => true
  end.

Definition entries_fit (absolute_path : string) : DIR → bool :=
  fix entries_fit (dir : DIR) : bool :=
    match dir with
    | [] => true
    | (d_name, under) :: dir =>
        path_fits d_name absolute_path &&
        match lstat_of under with
        | None => true
        | Some new_absolute_path_buf =>
            (if String.eqb d_name "." then true
             else if negb (String.eqb d_name "..") then
               if S_ISREG (st_mode new_absolute_path_buf) then true
               else visit_fits (new_absolute_path d_name absolute_path) under
             else true)
            && entries_fit dir
        end
    end.

Definition task_fits (t : Task) : bool :=
  match path t with
  | Some p => visit_fits (chars p) (target p)
  | None => true
  end.

Definition event_fits (e : event) : bool :=
  match e with ev_add_task t => task_fits t | _ => true end.

Section Dir.

(** The function that the loop calls on an entry that is not a regular
    file. *)
Variable get_block_size : string → fs_node → bool → option visit_result.

(** The loop of [get_size_of_dir] in the recursive mode ([task] is NULL,
    [multithread] is false). *)
Fixpoint get_size_of_dir_loop (permission : bool) (absolute_path : string)
    (absolute_path_buf : stat) (dir : DIR) (block_size : blkcnt_t) {struct dir}
  : option visit_result :=
  match dir with
  | [] => Some (block_size, permission, [ev_closedir absolute_path])
  | (d_name, under) :: dir =>
      if path_fits d_name absolute_path then
        let c := new_absolute_path d_name absolute_path in
        match lstat_of under with
        | None =>
            Some (block_size + blocks absolute_path_buf, permission,
                  [ev_lstat c; ev_free c; ev_closedir absolute_path])
        | Some new_absolute_path_buf =>
            if String.eqb d_name "." then
              and_then [ev_lstat c; ev_free c] <$>
                get_size_of_dir_loop permission absolute_path absolute_path_buf dir
                  (block_size + blocks new_absolute_path_buf)
            else if negb (String.eqb d_name "..") then
              if S_ISREG (st_mode new_absolute_path_buf) then
                and_then [ev_lstat c; ev_free c] <$>
                  get_size_of_dir_loop permission absolute_path absolute_path_buf dir
                    (block_size + blocks new_absolute_path_buf)
              else
                '(size, permission, happened) ← get_block_size c under permission;
                and_then (ev_lstat c :: happened ++ [ev_free c]) <$>
                  get_size_of_dir_loop permission absolute_path absolute_path_buf dir
                    (block_size + size)
            else
              and_then [ev_lstat c; ev_free c] <$>
                get_size_of_dir_loop permission absolute_path absolute_path_buf dir
                  block_size
        end
      else None
  end.

End Dir.

(** [get_block_size] while [open] directory streams are open: those of
    the levels above. *)
Fixpoint get_block_size_at (limit open : Z) (absolute_path : string) (fs : fs_node)
    (permission : bool) {struct fs} : option visit_result :=
  match fs with
  | Fs_node None _ => Some (0, permission, [ev_lstat absolute_path])
  | Fs_node (Some absolute_path_buf) opendir_ans =>
      if S_ISDIR (st_mode absolute_path_buf) then
        let opendir_fails :=
          Some (blocks absolute_path_buf, false,
                [ev_lstat absolute_path; ev_opendir absolute_path false;
                 ev_stderr (cannot_read absolute_path)]) in
        match opendir_ans with
        | None => opendir_fails
        | Some dir =>
            if open <? limit then
              '(size, permission, happened) ←
                get_size_of_dir_loop (get_block_size_at limit (open + 1)) permission
                  absolute_path absolute_path_buf dir 0;
              Some (0 + size, permission,
                    ev_lstat absolute_path :: ev_opendir absolute_path true :: happened)
            else opendir_fails
        end
      else Some (0 + blocks absolute_path_buf, permission, [ev_lstat absolute_path])
  end.

Definition get_block_size (limit : Z) (absolute_path : Path) (permission : bool)
  : option visit_result :=
  get_block_size_at limit 0 (chars absolute_path) (target absolute_path) permission.

(** One step of a thread of the pool. [Pool.run_thread_step] lays out in
    advance what the function of a task does when its [opendir] succeeds.
    Here the thread that gets to that [opendir] finds out: with fewer than
    [limit] streams open in the process the directory is opened, and the
    thread goes into the loop of [get_size_of_dir], where every call of
    [make_path] has to stay in its buffer; otherwise [opendir] fails, and
    [get_block_size_mult] writes its line, clears the permission flag and
    returns the block count of the directory. Every other step is the one
    of [Pool.run_thread_step]. *)
Definition run_thread_step (limit open : Z) (q : Queue) (w : thread)
  : option (Queue * list event * thread) :=
  match w with
  | in_task task (ev_opendir p true :: todo) temp_block_size =>
      absolute_path ← path task;
      absolute_path_buf ← lstat absolute_path;
      dir ← opendir absolute_path;
      if open <? limit then
        if loop_fits (chars absolute_path) dir
        then Some (q, [ev_opendir p true], in_task task todo temp_block_size)
        else None
      else
        Some (q, [ev_opendir p false],
              in_task task [ev_stderr (cannot_read p); ev_permission_false]
                (blocks absolute_path_buf))
  | _ => Pool.run_thread_step q w
  end.

Inductive step (limit : Z) (start_path : Path) : pool → pool → Prop :=
| step_add_start_task s :
    start_added s = false →
    start_fits (chars start_path) = true →
    step limit start_path s
      (mk_pool (add_task (queue s) (start_task start_path)) (threads s) true
         (happened s ++ [ev_add_task (start_task start_path)]))
| step_thread s i w q' evs w' :
    threads s !! i = Some w →
    run_thread_step limit (open_dirs (happened s)) (queue s) w = Some (q', evs, w') →
    step limit start_path s
      (mk_pool q' (<[i:=w']> (threads s)) (start_added s) (happened s ++ evs)).

Definition steps (limit : Z) (start_path : Path) : pool → pool → Prop :=
  rtc (step limit start_path).

(** [run_mult_thread] when [created] of the threads could be created. *)
Definition run_mult_thread (limit : Z) (created : nat) (q : Queue) (start_path : Path)
    (q' : Queue) (evs : list event) : Prop :=
  ∃ s, steps limit start_path (pool_created q created) s ∧ joined s ∧
       queue s = q' ∧ happened s = evs.

(** A schedule, as for [Pool.run_schedule]. *)
Definition scheduled_step (limit : Z) (start_path : Path) (s : pool) (who : option nat)
  : pool :=
  match who with
  | None =>
      if start_added s then s
      else if start_fits (chars start_path) then
        mk_pool (add_task (queue s) (start_task start_path)) (threads s) true
          (happened s ++ [ev_add_task (start_task start_path)])
      else s
  | Some i =>
      match threads s !! i with
      | Some w =>
          match run_thread_step limit (open_dirs (happened s)) (queue s) w with
          | Some (q', evs, w') =>
              mk_pool q' (<[i:=w']> (threads s)) (start_added s) (happened s ++ evs)
          | None => s
          end
      | None => s
      end
  end.

Definition run_schedule (limit : Z) (start_path : Path) (schedule : list (option nat))
    (s : pool) : pool :=
  foldl (scheduled_step limit start_path) s schedule.

(** What holds of a thread in a run that stays inside the buffers: the
    tasks it still adds stand for visits that do, and if it still has a
    directory to open, that is the directory of its task and the loop on
    it stays inside the buffers. *)
Definition thread_within (w : thread) : Prop :=
  match w with
  | in_task task todo _ =>
      forallb event_fits todo = true ∧
      ∀ p, ev_opendir p true ∈ todo →
           ∃ absolute_path absolute_path_buf dir,
             path task = Some absolute_path ∧
             lstat absolute_path = Some absolute_path_buf ∧
             opendir absolute_path = Some dir ∧
             loop_fits (chars absolute_path) dir = true
  | _ => True
  end.

Record within (limit N : Z) (start_path : Path) (s : pool) : Prop := {
  within_inv : pool_inv N s;
  within_limit : Z.of_nat (length (threads s)) ≤ limit;
  within_start : start_fits (chars start_path) = true;
  within_start_task : start_added s = false → task_fits (start_task start_path) = true;
  within_tasks : Forall (λ t, task_fits t = true) (task_q (queue s));
  within_threads : Forall thread_within (threads s);
  within_dirs : Forall thread_dirs_ok (threads s);
  within_open : open_dirs (happened s) = sumZ to_close (threads s)
}.

(** A tree of three levels: the directory [/tmp/d] of 8 blocks with the
    directory [e] of 8 blocks, in which is the directory [f] of 8 blocks
    with the file [a] of 8 blocks. *)
Definition tmp_d : Path :=
  mk_path "/tmp/d"
    (Fs_node (Some dir8)
       (Some [self8; parent8;
              ("e", Fs_node (Some dir8)
                      (Some [self8; parent8;
                             ("f", Fs_node (Some dir8)
                                     (Some [self8; parent8; ("a", file8)]))]))])).

(** A tree of two levels: the directory [/tmp/w] of 8 blocks with the
    directories [x] and [y], of 8 blocks each and with nothing inside. *)
Definition tmp_w : Path :=
  mk_path "/tmp/w"
    (Fs_node (Some dir8)
       (Some [self8; parent8;
              ("x", Fs_node (Some dir8) (Some [self8; parent8]));
              ("y", Fs_node (Some dir8) (Some [self8; parent8]))])).

(** A name of [CHAR_BUF] characters, and the directory [/tmp/l] of 8 blocks
    with a file of that name. *)
Definition long_name : string :=
  String.string_of_list_ascii (replicate CHAR_BUF "a"%char).

Definition tmp_l : Path :=
  mk_path "/tmp/l" (Fs_node (Some dir8) (Some [self8; parent8; (long_name, file8)])).

(** A target of [CHAR_BUF] characters, on which [lstat] fails. *)
Definition long_target : Path := mk_path long_name (Fs_node None None).

End Limits.

(* ===================================================================== *)
(** * Part II: properties *)
(* ===================================================================== *)

(** ** The heap *)

Lemma fresh_addr_None (h : heap) : h !! fresh_addr h = None.
Proof.
  apply not_elem_of_dom. intros Hin.
  apply (is_fresh ({[NULL]} ∪ dom h)). set_solver.
Qed.

Lemma fresh_addr_not_NULL (h : heap) : fresh_addr h ≠ NULL.
Proof.
  intros Heq. apply (is_fresh ({[NULL]} ∪ dom h)).
  fold (fresh_addr h). rewrite Heq. set_solver.
Qed.

Lemma get_node_Some (h : heap) a n : h !! a = Some (ONode n) → get_node h a = Some n.
Proof. unfold get_node. by intros ->. Qed.

Lemma get_node_insert_eq (h : heap) a n : get_node (<[a:=ONode n]> h) a = Some n.
Proof. unfold get_node. by rewrite lookup_insert_eq. Qed.

Lemma get_node_insert_ne (h : heap) a b o : a ≠ b → get_node (<[a:=o]> h) b = get_node h b.
Proof. intros. unfold get_node. by rewrite lookup_insert_ne. Qed.

Lemma get_task_Some (h : heap) a t : h !! a = Some (OTask t) → get_task h a = Some t.
Proof. unfold get_task. by intros ->. Qed.

(** ** Chains of nodes *)

Lemma last_addr_snoc p ns n : last_addr p (ns ++ [n]) = n.1.
Proof. unfold last_addr. by rewrite last_snoc. Qed.

Lemma hd_addr_app e ns n : hd_addr e (ns ++ [n]) = hd_addr n.1 ns.
Proof. by destruct ns. Qed.

Lemma last_addr_cons p n ns : last_addr p (n :: ns) = last_addr n.1 ns.
Proof.
  unfold last_addr. destruct ns as [|m ns]; [done|].
  rewrite last_cons_cons.
  destruct (last (m :: ns)) eqn:E; [done|].
  by apply last_None in E.
Qed.

Lemma seg_frame (h h' : heap) p ns e :
  (∀ a, a ∈ ns.*1 → h' !! a = h !! a) → seg h p ns e → seg h' p ns e.
Proof.
  revert p. induction ns as [|n ns IH]; intros p Hag; simpl; [done|].
  intros [Hn Hrest]. split.
  - rewrite Hag; [done|]. apply elem_of_cons; by left.
  - apply IH; [|done]. intros a Ha. apply Hag. apply elem_of_cons; by right.
Qed.

Lemma seg_snoc (h : heap) p ns n e :
  seg h p (ns ++ [n]) e ↔
  seg h p ns n.1 ∧ h !! n.1 = Some (ONode (Node e (last_addr p ns) n.2)).
Proof.
  revert p. induction ns as [|m ns IH]; intros p; simpl.
  - unfold last_addr. simpl. tauto.
  - rewrite IH, hd_addr_app, last_addr_cons. tauto.
Qed.

Lemma seg_lookup (h : heap) p ns e a :
  seg h p ns e → a ∈ ns.*1 → ∃ n, h !! a = Some (ONode n).
Proof.
  revert p. induction ns as [|m ns IH]; intros p; simpl.
  - intros _ Hin. by apply elem_of_nil in Hin.
  - intros [Hm Hrest] Hin.
    apply elem_of_cons in Hin as [->|Hin]; eauto.
Qed.

Lemma hd_addr_app_l e ns l : hd_addr e (ns ++ l) = hd_addr (hd_addr e l) ns.
Proof. by destruct ns. Qed.

Lemma dll_head (h : heap) lst ns :
  dll h lst ns →
  get_node h lst = Some (Node (hd_addr lst ns) (last_addr lst ns) NULL).
Proof. intros (_ & Hh & _). by apply get_node_Some. Qed.

Lemma dll_allocated (h : heap) lst ns a :
  dll h lst ns → a ∈ lst :: ns.*1 → ∃ n, h !! a = Some (ONode n).
Proof.
  intros (_ & Hh & Hs) Hin. apply elem_of_cons in Hin as [->|Hin]; [eauto|].
  eapply seg_lookup; eauto.
Qed.

Lemma dll_fresh (h : heap) lst ns :
  dll h lst ns → fresh_addr h ∉ lst :: ns.*1.
Proof.
  intros Hd Hin. destruct (dll_allocated _ _ _ _ Hd Hin) as [n Hn].
  by rewrite fresh_addr_None in Hn.
Qed.

(** The position that [enqueue] computes, the one before the first node,
    is the head node: the end position of the list. *)
Lemma list_prev_first (h : heap) lst ns :
  dll h lst ns → list_first h lst ≫= list_prev h = Some (list_end lst).
Proof.
  intros Hd. unfold list_first. rewrite (dll_head _ _ _ Hd). simpl.
  destruct Hd as (Hnd & Hh & Hs). unfold list_prev, list_end.
  destruct ns as [|n ns]; simpl in *.
  - rewrite (get_node_Some _ _ _ Hh). done.
  - destruct Hs as [Hn _]. rewrite (get_node_Some _ _ _ Hn). done.
Qed.

Ltac heap_simpl :=
  repeat first
    [ rewrite get_node_insert_eq
    | rewrite get_node_insert_ne by congruence
    | rewrite lookup_insert_eq
    | rewrite lookup_insert_ne by congruence
    | rewrite lookup_delete_eq
    | rewrite lookup_delete_ne by congruence
    | rewrite decide_False by congruence
    | progress simpl ].

(** Inserting at the end position appends a node. *)
Lemma list_insert_end (h : heap) lst ns v :
  dll h lst ns →
  ∃ h', list_insert h (list_end lst) v = Some (fresh_addr h, h') ∧
        dll h' lst (ns ++ [(fresh_addr h, v)]) ∧
        ∀ x, x ≠ fresh_addr h → x ∉ lst :: ns.*1 → h' !! x = h !! x.
Proof.
  intros Hd. pose proof (dll_fresh _ _ _ Hd) as Hfr.
  pose proof (dll_head _ _ _ Hd) as Hhead.
  destruct Hd as (Hnd & Hh & Hs).
  set (a := fresh_addr h) in *.
  assert (a ≠ lst) as Hal by (intros ->; apply Hfr, elem_of_cons; by left).
  unfold list_insert, list_end, make_node, alloc, list_prev, set_next, set_prev.
  fold a. cbv zeta. heap_simpl. rewrite Hhead. heap_simpl.
  destruct ns as [|n0 ns0 _] using rev_ind.
  - unfold last_addr in *. simpl in *. heap_simpl.
    eexists. split; [done|]. split.
    + split; [|split].
      * apply NoDup_cons. split; [|apply NoDup_singleton].
        simpl. intros Hin. apply list_elem_of_singleton in Hin. congruence.
      * unfold last_addr. heap_simpl. done.
      * simpl. heap_simpl. done.
    + intros x Hxa Hx. heap_simpl.
      assert (x ≠ lst) by (intros ->; apply Hx, elem_of_cons; by left).
      by heap_simpl.
  - rewrite last_addr_snoc in *. rewrite hd_addr_app in *.
    apply seg_snoc in Hs as [Hs0 Hn0].
    rewrite fmap_app in Hnd, Hfr. simpl in Hnd, Hfr.
    assert (n0.1 ≠ lst) as Hbl.
    { intros Heq. apply NoDup_cons in Hnd as [Hnot _]. apply Hnot.
      apply elem_of_app. right. rewrite Heq. apply list_elem_of_singleton. done. }
    assert (a ≠ n0.1) as Hab.
    { intros Heq. apply Hfr. apply elem_of_cons. right.
      apply elem_of_app. right. rewrite Heq. by apply list_elem_of_singleton. }
    heap_simpl. rewrite (get_node_Some _ _ _ Hn0). heap_simpl.
    eexists. split; [done|]. split.
    + split; [|split].
      * rewrite !fmap_app. simpl. rewrite app_comm_cons.
        apply NoDup_app. split; [done|]. split; [|apply NoDup_singleton].
        intros x Hx Hxa. apply list_elem_of_singleton in Hxa. subst x. by apply Hfr.
      * heap_simpl. rewrite last_addr_snoc. simpl.
        rewrite hd_addr_app_l. simpl. rewrite hd_addr_app. done.
      * apply seg_snoc. simpl. rewrite last_addr_snoc. split; [|by heap_simpl].
        apply seg_snoc. split; [|by heap_simpl].
        eapply seg_frame; [|exact Hs0].
        intros x Hx.
        assert (x ≠ a).
        { intros ->. apply Hfr. apply elem_of_cons. right. apply elem_of_app. by left. }
        assert (x ≠ lst).
        { intros ->. apply NoDup_cons in Hnd as [Hnot _]. apply Hnot.
          apply elem_of_app. by left. }
        assert (x ≠ n0.1).
        { intros ->. apply NoDup_cons in Hnd as [_ Hnd].
          apply NoDup_app in Hnd as (_ & Hdis & _). apply (Hdis _ Hx).
          by apply list_elem_of_singleton. }
        by heap_simpl.
    + intros x Hxa Hx.
      assert (x ≠ lst) by (intros ->; apply Hx, elem_of_cons; by left).
      assert (x ≠ n0.1).
      { intros ->. apply Hx. apply elem_of_cons. right. rewrite fmap_app.
        apply elem_of_app. right. by apply list_elem_of_singleton. }
      by heap_simpl.
Qed.

(** Removing the node before the end position drops the last node, and
    frees it together with the value it points to. *)
Lemma list_remove_last (h : heap) lst ns b vb t :
  h !! NULL = None →
  dll h lst (ns ++ [(b, vb)]) →
  h !! vb = Some (OTask t) →
  ∃ h', list_remove h b = Some (lst, h') ∧
        dll h' lst ns ∧ h' !! b = None ∧ h' !! vb = None ∧
        ∀ x, x ≠ b → x ≠ vb → x ∉ lst :: ns.*1 → h' !! x = h !! x.
Proof.
  intros Hnull (Hnd & Hh & Hs) Hvb.
  rewrite last_addr_snoc, hd_addr_app in Hh. simpl in Hh.
  apply seg_snoc in Hs as [Hs0 Hb]. simpl in Hb.
  rewrite fmap_app in Hnd. simpl in Hnd.
  assert (b ≠ lst) as Hbl.
  { intros ->. apply NoDup_cons in Hnd as [Hnot _]. apply Hnot.
    apply elem_of_app. right. by apply list_elem_of_singleton. }
  assert (vb ≠ lst) as Hvl by congruence.
  assert (vb ≠ b) as Hvb' by congruence.
  assert (vb ≠ NULL) as Hvn by congruence.
  assert (b ≠ NULL) as Hbn by congruence.
  unfold list_remove, list_next, list_prev, list_inspect, set_next, set_prev.
  rewrite (get_node_Some _ _ _ Hb). simpl.
  destruct ns as [|n0 ns0 _] using rev_ind.
  - unfold last_addr. simpl in *.
    rewrite (get_node_Some _ _ _ Hh). heap_simpl.
    rewrite (get_node_Some _ _ _ Hb). simpl.
    unfold free. heap_simpl. rewrite Hvb. heap_simpl. rewrite Hb. heap_simpl.
    eexists. split; [done|].
    split; [|split; [|split]].
    + split; [|split]; [apply NoDup_singleton| |done].
      unfold last_addr. by heap_simpl.
    + by heap_simpl.
    + by heap_simpl.
    + intros x Hxb Hxv Hx.
      assert (x ≠ lst) by (intros ->; apply Hx, elem_of_cons; by left).
      by heap_simpl.
  - rewrite last_addr_snoc in *. rewrite hd_addr_app in Hh.
    apply seg_snoc in Hs0 as [Hs0 Hn0].
    rewrite fmap_app in Hnd. simpl in Hnd.
    assert (n0.1 ≠ lst) as Hnl.
    { intros Heq. apply NoDup_cons in Hnd as [Hnot _]. apply Hnot.
      apply elem_of_app. left. apply elem_of_app. right.
      rewrite Heq. by apply list_elem_of_singleton. }
    assert (n0.1 ≠ b) as Hnb.
    { intros Heq. apply NoDup_cons in Hnd as [_ Hnd].
      apply NoDup_app in Hnd as (_ & Hdis & _). apply (Hdis b).
      - apply elem_of_app. right. rewrite <- Heq. by apply list_elem_of_singleton.
      - by apply list_elem_of_singleton. }
    assert (n0.1 ≠ vb) as Hnv by congruence.
    rewrite (get_node_Some _ _ _ Hn0). heap_simpl.
    rewrite (get_node_Some _ _ _ Hh). heap_simpl.
    rewrite (get_node_Some _ _ _ Hb). simpl.
    unfold free. heap_simpl. rewrite Hvb. heap_simpl. rewrite Hb. heap_simpl.
    eexists. split; [done|].
    split; [|split; [|split]].
    + split; [|split].
      * rewrite fmap_app. simpl. apply NoDup_cons in Hnd as [Hnot Hnd].
        apply NoDup_app in Hnd as (Hnd & _ & _). apply NoDup_cons. split; [|done].
        intros Hin. apply Hnot. apply elem_of_app. by left.
      * heap_simpl. rewrite last_addr_snoc, hd_addr_app. done.
      * apply seg_snoc. split; [|by heap_simpl].
        eapply seg_frame; [|exact Hs0].
        intros x Hx.
        assert (x ≠ lst).
        { intros ->. apply NoDup_cons in Hnd as [Hnot _]. apply Hnot.
          apply elem_of_app. left. apply elem_of_app. by left. }
        assert (x ≠ b).
        { intros ->. apply NoDup_cons in Hnd as [_ Hnd].
          apply NoDup_app in Hnd as (_ & Hdis & _). apply (Hdis b).
          - apply elem_of_app. by left.
          - by apply list_elem_of_singleton. }
        assert (x ≠ n0.1).
        { intros ->. apply NoDup_cons in Hnd as [_ Hnd].
          apply NoDup_app in Hnd as (Hnd & _ & _).
          apply NoDup_app in Hnd as (_ & Hdis & _). apply (Hdis _ Hx).
          by apply list_elem_of_singleton. }
        assert (x ≠ vb).
        { destruct (seg_lookup _ _ _ _ _ Hs0 Hx) as [n Hn]. congruence. }
        by heap_simpl.
    + by heap_simpl.
    + by heap_simpl.
    + intros x Hxb Hxv Hx.
      assert (x ≠ lst) by (intros ->; apply Hx, elem_of_cons; by left).
      assert (x ≠ n0.1).
      { intros ->. apply Hx. apply elem_of_cons. right. rewrite fmap_app.
        apply elem_of_app. right. by apply list_elem_of_singleton. }
      by heap_simpl.
Qed.

(** ** The queue *)

Lemma dll_frame (h h' : heap) lst ns :
  (∀ a, a ∈ lst :: ns.*1 → h' !! a = h !! a) → dll h lst ns → dll h' lst ns.
Proof.
  intros Hag (Hnd & Hh & Hs). split; [done|]. split.
  - rewrite Hag; [done|]. apply elem_of_cons. by left.
  - eapply seg_frame; [|done]. intros a Ha. apply Hag, elem_of_cons. by right.
Qed.

Lemma Forall2_snoc_inv {A B} (P : A → B → Prop) l k x y :
  Forall2 P (l ++ [x]) (k ++ [y]) → Forall2 P l k ∧ P x y.
Proof.
  intros H. pose proof (Forall2_length _ _ _ H) as Hlen.
  rewrite !length_app in Hlen. simpl in Hlen.
  apply Forall2_app_inv in H as [H1 H2]; [|lia].
  split; [done|]. by apply Forall2_cons in H2 as [? _].
Qed.

Lemma is_queue_values (h : heap) q ns ts v :
  is_queue h q ns ts → v ∈ ns.*2 → ∃ t, h !! v = Some (OTask t).
Proof.
  intros (_ & _ & _ & Hf) Hin.
  apply list_elem_of_fmap in Hin as (n & -> & Hn).
  apply list_elem_of_lookup in Hn as [i Hi].
  destruct (Forall2_lookup_l _ _ _ _ _ Hf Hi) as (t & _ & Ht). eauto.
Qed.

Lemma queue_is_empty_spec (h : heap) q ns ts :
  is_queue h q ns ts → queue_is_empty h q = Some (bool_decide (ts = [])).
Proof.
  intros (_ & Hd & _ & Hf). unfold queue_is_empty, list_is_empty.
  rewrite (dll_head _ _ _ Hd). simpl. f_equal.
  destruct Hd as (Hnd & _ & _).
  destruct Hf as [|n t ns ts _ _]; simpl.
  - by rewrite !bool_decide_eq_true_2.
  - rewrite !bool_decide_eq_false_2; [done..|].
    intros Heq. apply NoDup_cons in Hnd as [Hnot _]. apply Hnot.
    rewrite fmap_cons, Heq. apply elem_of_cons. by left.
Qed.

(** [enqueue] puts the task behind the last one of the list. *)
Lemma enqueue_spec (h : heap) q ns ts task t :
  is_queue h q ns ts →
  h !! task = Some (OTask t) →
  task ∉ ns.*2 →
  ∃ h', enqueue h q task = Some h' ∧
        is_queue h' q (ns ++ [(fresh_addr h, task)]) (ts ++ [t]) ∧
        ∀ x, x ≠ fresh_addr h → x ∉ task_q q :: ns.*1 → h' !! x = h !! x.
Proof.
  intros Hq Htask Hnew. pose proof Hq as (Hnull & Hd & Hnd & Hf).
  unfold enqueue.
  pose proof (list_prev_first _ _ _ Hd) as Hfp.
  destruct (list_first h (task_q q)) as [first|]; [|done]. simpl in *.
  rewrite Hfp. simpl.
  destruct (list_insert_end _ _ _ task Hd) as (h' & Hins & Hd' & Hframe).
  rewrite Hins. simpl. exists h'. split; [done|]. split; [|done].
  assert (∀ x o, h !! x = Some (OTask o) → h' !! x = h !! x) as Hkeep.
  { intros x o Hx. apply Hframe.
    - intros ->. by rewrite fresh_addr_None in Hx.
    - intros Hin. destruct (dll_allocated _ _ _ _ Hd Hin) as [n Hn]. congruence. }
  split; [|split; [done|split]].
  - rewrite Hframe; [done|apply not_eq_sym, fresh_addr_not_NULL|].
    intros Hin. destruct (dll_allocated _ _ _ _ Hd Hin) as [n Hn]. congruence.
  - rewrite fmap_app. simpl. apply NoDup_app. split; [done|].
    split; [|apply NoDup_singleton].
    intros x Hx Hxt. apply list_elem_of_singleton in Hxt. by subst x.
  - apply Forall2_app.
    + eapply Forall2_impl; [exact Hf|]. simpl. intros n t' Hn.
      by rewrite (Hkeep _ _ Hn).
    + apply Forall2_cons. split; [|done]. simpl. by rewrite (Hkeep _ _ Htask).
Qed.

(** On the empty queue [dequeue] answers NULL and changes nothing. *)
Lemma dequeue_empty (h : heap) q :
  is_queue h q [] [] → dequeue h q = Some (NULL, h).
Proof.
  intros Hq. unfold dequeue. by rewrite (queue_is_empty_spec _ _ _ _ Hq).
Qed.

Lemma dll_not_task (h : heap) lst ns x t :
  dll h lst ns → h !! x = Some (OTask t) → x ∉ lst :: ns.*1.
Proof.
  intros Hd Hx Hin. destruct (dll_allocated _ _ _ _ Hd Hin) as [m Hm]. congruence.
Qed.

(** On a queue that holds tasks [dequeue] takes the last one of the list:
    it answers the address of a new task struct with the same contents,
    and the node and the old struct are freed. *)
Lemma dequeue_last (h : heap) q ns ts n t :
  is_queue h q (ns ++ [n]) (ts ++ [t]) →
  ∃ h', dequeue h q = Some (fresh_addr h, h') ∧
        h' !! fresh_addr h = Some (OTask t) ∧
        is_queue h' q ns ts ∧
        h' !! n.1 = None ∧ h' !! n.2 = None.
Proof.
  destruct n as [b vb]. simpl.
  intros Hq. pose proof Hq as (Hnull & Hd & Hnd & Hf).
  apply Forall2_snoc_inv in Hf as [Hf Hn]. simpl in Hn.
  unfold dequeue. rewrite (queue_is_empty_spec _ _ _ _ Hq).
  rewrite bool_decide_eq_false_2 by (by destruct ts). simpl.
  unfold list_prev, list_end, list_inspect.
  rewrite (dll_head _ _ _ Hd), last_addr_snoc. simpl.
  pose proof Hd as (_ & _ & Hs). apply seg_snoc in Hs as [Hs Hn1]. simpl in Hn1.
  rewrite (get_node_Some _ _ _ Hn1). simpl.
  rewrite (get_task_Some _ _ _ Hn). unfold alloc.
  set (c := fresh_addr h). set (h1 := <[c:=OTask t]> h).
  assert (h !! c = None) as Hc by apply fresh_addr_None.
  assert (c ≠ NULL) as Hcn by apply fresh_addr_not_NULL.
  assert (∀ x, x ≠ c → h1 !! x = h !! x) as Hh1.
  { intros x Hx. unfold h1. by rewrite lookup_insert_ne. }
  assert (h1 !! c = Some (OTask t)) as Hh1c.
  { unfold h1. by rewrite lookup_insert_eq. }
  assert (dll h1 (task_q q) (ns ++ [(b, vb)])) as Hd1.
  { eapply dll_frame; [|done]. intros a Ha. apply Hh1. intros ->.
    destruct (dll_allocated _ _ _ _ Hd Ha) as [m Hm]. congruence. }
  assert (vb ≠ c) as Hvc by congruence.
  assert (b ≠ c) as Hbc by congruence.
  destruct (list_remove_last h1 (task_q q) ns b vb t) as (h' & Hrm & Hd' & Hfree1 & Hfree2 & Hframe).
  { by rewrite Hh1. }
  { done. }
  { by rewrite Hh1. }
  simpl. fold h1. rewrite Hrm. simpl. exists h'. split; [done|].
  assert (∀ x t', x ≠ vb → h1 !! x = Some (OTask t') → h' !! x = Some (OTask t')) as Hkeep.
  { intros x t' Hxv Hx. rewrite Hframe; [done| |done|].
    - intros ->. rewrite Hh1 in Hx; congruence.
    - intros Hin. eapply (dll_not_task _ _ _ _ _ Hd1 Hx).
      apply elem_of_cons in Hin as [Hin|Hin]; apply elem_of_cons; [by left|right].
      rewrite fmap_app. apply elem_of_app. by left. }
  split; [by apply (Hkeep c t)|]. split; [|done].
  rewrite fmap_app in Hnd. apply NoDup_app in Hnd as (Hnd & Hdis & _).
  split; [|split; [done|split; [done|]]].
  - destruct (h' !! NULL) as [o|] eqn:Ho; [|done].
    rewrite Hframe in Ho.
    + rewrite Hh1 in Ho; congruence.
    + congruence.
    + congruence.
    + intros Hin. destruct (dll_allocated _ _ _ _ Hd' Hin) as [m Hm].
      rewrite Hm in Ho. injection Ho as <-.
      assert (NULL ∈ task_q q :: (ns ++ [(b, vb)]).*1) as Hin'.
      { apply elem_of_cons in Hin as [Hin|Hin]; apply elem_of_cons; [by left|right].
        rewrite fmap_app. apply elem_of_app. by left. }
      destruct (dll_allocated _ _ _ _ Hd Hin') as [m' Hm']. congruence.
  - apply Forall2_same_length_lookup_2; [by eapply Forall2_length|].
    intros i m t' Hm Ht'.
    pose proof (Forall2_lookup_lr _ _ _ _ _ _ Hf Hm Ht') as Hmt. simpl in Hmt.
    apply Hkeep.
    + intros Heq. apply (Hdis m.2).
      * apply list_elem_of_fmap. exists m. split; [done|].
        apply list_elem_of_lookup. eauto.
      * simpl. apply list_elem_of_singleton. done.
    + rewrite Hh1; [done|]. intros Heq. congruence.
Qed.

Lemma create_task_queue_spec (h : heap) n :
  h !! NULL = None →
  is_queue (create_task_queue h n).2 (create_task_queue h n).1 [] [].
Proof.
  intros Hnull. unfold create_task_queue, list_create, alloc. simpl.
  pose proof (fresh_addr_not_NULL h).
  split; [by heap_simpl|]. split; [|split; [apply NoDup_nil_2|apply Forall2_nil_2]].
  split; [apply NoDup_singleton|]. split; [|done].
  unfold last_addr. by heap_simpl.
Qed.

(** Whatever the queue holds, the task that [dequeue] hands out right after
    an [enqueue] is the one that was just put in: the older tasks stay. *)
Lemma dequeue_after_enqueue (h : heap) q ns ts task t :
  is_queue h q ns ts →
  h !! task = Some (OTask t) →
  task ∉ ns.*2 →
  ∃ h1 h2 copy, enqueue h q task = Some h1 ∧ dequeue h1 q = Some (copy, h2) ∧
                get_task h2 copy = Some t ∧ is_queue h2 q ns ts.
Proof.
  intros Hq Ht Hnew.
  destruct (enqueue_spec _ _ _ _ _ _ Hq Ht Hnew) as (h1 & He & Hq1 & _).
  destruct (dequeue_last _ _ _ _ _ _ Hq1) as (h2 & Hdq & Hcopy & Hq2 & _).
  exists h1, h2, (fresh_addr h1).
  split; [done|]. split; [done|]. split; [by apply get_task_Some|done].
Qed.

(** C3, on the code: two tasks are put into a new queue, first the one with
    function 1, then the one with function 2. The first [dequeue] hands out
    the task with function 2, the one that arrived last; the task that arrived
    first comes out second. *)
Theorem dequeue_hands_out_newest_task :
  let '(q, h0) := create_task_queue ∅ 2 in
  let '(a, h1) := create_task h0 None (fn_other 1) in
  let '(b, h2) := create_task h1 None (fn_other 2) in
  (h ← enqueue h2 q a;
   h ← enqueue h q b;
   '(c1, h) ← dequeue h q;
   t1 ← get_task h c1;
   '(c2, h) ← dequeue h q;
   t2 ← get_task h c2;
   Some (t1, t2))
  = Some (mk_task (fn_other 2) None, mk_task (fn_other 1) None).
Proof. vm_compute. reflexivity. Qed.

(** C10: [dequeue] never waits. On the empty queue it answers NULL and the
    heap, and with it the queue, stays as it is. On a queue that holds tasks
    it answers the address of a task struct that was not allocated before,
    whose [path] and [task_pointer] are those of the task it took out; that
    task is gone from the queue, the others are kept. *)
Theorem dequeue_interface (h : heap) (q : Task_queue addr) ns ts :
  is_queue h q ns ts →
  (ts = [] → dequeue h q = Some (NULL, h)) ∧
  (ts ≠ [] →
   ∃ copy h' ns' ts' n t t',
     dequeue h q = Some (copy, h') ∧
     copy ≠ NULL ∧ h !! copy = None ∧
     ns = ns' ++ [n] ∧ ts = ts' ++ [t] ∧
     get_task h n.2 = Some t ∧
     get_task h' copy = Some t' ∧
     path t' = path t ∧ task_pointer t' = task_pointer t ∧
     h' !! n.2 = None ∧
     is_queue h' q ns' ts').
Proof.
  intros Hq. split.
  - intros ->. pose proof Hq as (_ & _ & _ & Hf).
    apply Forall2_nil_inv_r in Hf as ->. by apply dequeue_empty.
  - intros Hne. pose proof Hq as (_ & _ & _ & Hf).
    destruct ts as [|t ts' _] using rev_ind; [done|].
    apply Forall2_app_inv_r in Hf as (ns' & l & Hf1 & Hf2 & ->).
    apply Forall2_cons_inv_r in Hf2 as (n & l' & Hn & Hl & ->).
    apply Forall2_nil_inv_r in Hl as ->.
    destruct (dequeue_last _ _ _ _ _ _ Hq) as (h' & Hdq & Hc & Hq' & _ & Hfreed).
    exists (fresh_addr h), h', ns', ts', n, t, t.
    split; [done|]. split; [apply fresh_addr_not_NULL|].
    split; [apply fresh_addr_None|]. split; [done|]. split; [done|].
    split; [by apply get_task_Some|]. split; [by apply get_task_Some|].
    split; [done|]. split; [done|]. split; done.
Qed.

Lemma dequeue_interface_witness :
  let t := mk_task fn_get_block_size_mult (Some (mk_path "d" (Fs_node None None))) in
  let h : heap :=
    <[3%nat := ONode (Node 1%nat 1%nat 2%nat)]>
      (<[2%nat := OTask t]> (<[1%nat := ONode (Node 3%nat 3%nat NULL)]> ∅)) in
  let q := mk_queue 1%nat 2 0 0 true false in
  is_queue h q [(3, 2)%nat] [t] ∧ [t] ≠ [] ∧
  (∃ copy h' ns' ts' n t0 t',
     dequeue h q = Some (copy, h') ∧
     copy ≠ NULL ∧ h !! copy = None ∧
     [(3, 2)%nat] = ns' ++ [n] ∧ [t] = ts' ++ [t0] ∧
     get_task h n.2 = Some t0 ∧
     get_task h' copy = Some t' ∧
     path t' = path t0 ∧ task_pointer t' = task_pointer t0 ∧
     h' !! n.2 = None ∧
     is_queue h' q ns' ts').
Proof.
  intros t h q.
  assert (is_queue h q [(3, 2)%nat] [t]) as Hq.
  { split; [vm_compute; reflexivity|]. split; [|split].
    - split; [|split; [vm_compute; reflexivity|]].
      + apply (bool_decide_unpack _). vm_compute. exact I.
      + simpl. split; [vm_compute; reflexivity|exact I].
    - apply (bool_decide_unpack _). vm_compute. exact I.
    - apply Forall2_cons. split; [vm_compute; reflexivity|apply Forall2_nil_2]. }
  split; [exact Hq|]. split; [discriminate|].
  apply (dequeue_interface h q _ _ Hq). discriminate.
Defined.

(** ** make_path *)

Lemma c_str_split (arr s : list ascii) :
  c_str arr = Some s → ∃ rest, arr = s ++ NUL :: rest ∧ Forall (λ c, c ≠ NUL) s.
Proof.
  revert s. induction arr as [|c arr IH]; intros s; simpl; [done|].
  destruct (decide (c = NUL)) as [->|Hc].
  - intros [= <-]. by exists arr.
  - destruct (c_str arr) as [s'|]; simpl; [|done].
    intros [= <-]. destruct (IH s' eq_refl) as (rest & -> & Hs').
    exists rest. split; [done|]. by constructor.
Qed.

Lemma c_str_app (s rest : list ascii) :
  Forall (λ c, c ≠ NUL) s → c_str (s ++ NUL :: rest) = Some s.
Proof.
  induction 1 as [|c s Hc _ IH]; simpl.
  - done.
  - rewrite decide_False by done. by rewrite IH.
Qed.

(** Every buffer on the way has the shape [out ++ drop (length out) buf]:
    what has been written so far, in front of what is left of the buffer. *)
Lemma store_next (buf out : list ascii) c :
  (length out < length buf)%nat →
  store (out ++ drop (length out) buf) (length out) c
  = Some ((out ++ [c]) ++ drop (length (out ++ [c])) buf).
Proof.
  intros Hlen. unfold store.
  rewrite decide_True by (rewrite length_app, length_drop; lia).
  f_equal. rewrite insert_app_r_alt, Nat.sub_diag by lia.
  destruct (drop (length out) buf) as [|d rest] eqn:Hd.
  { apply (f_equal length) in Hd. rewrite length_drop in Hd. simpl in Hd. lia. }
  simpl. rewrite <- app_assoc. simpl. do 2 f_equal.
  rewrite length_app. simpl.
  rewrite <- (drop_drop buf 1 (length out)), Hd. done.
Qed.

Lemma copy_name_spec (buf n : list ascii) :
  Forall (λ c, c ≠ NUL) n →
  ∀ fuel name pre rest out,
    name = pre ++ n ++ NUL :: rest →
    (length out + length n ≤ length buf)%nat →
    (length n < fuel)%nat →
    copy_name fuel name (out ++ drop (length out) buf) (length out) (length pre)
    = Some ((out ++ n) ++ drop (length (out ++ n)) buf, length (out ++ n)).
Proof.
  induction 1 as [|c n Hc _ IH]; intros fuel name pre rest out -> Hfit Hfuel.
  - destruct fuel as [|fuel]; [simpl in Hfuel; lia|]. simpl.
    rewrite lookup_app_r, Nat.sub_diag by lia. simpl.
    by rewrite app_nil_r.
  - destruct fuel as [|fuel]; [simpl in Hfuel; lia|]. simpl in *.
    rewrite lookup_app_r, Nat.sub_diag by lia. simpl.
    rewrite decide_False by done.
    rewrite store_next by lia. simpl.
    replace (S (length out)) with (length (out ++ [c])) by (rewrite length_app; simpl; lia).
    replace (S (length pre)) with (length (pre ++ [c])) by (rewrite length_app; simpl; lia).
    rewrite (IH fuel (pre ++ c :: n ++ NUL :: rest) (pre ++ [c]) rest (out ++ [c])).
    + by rewrite <- !app_assoc.
    + by rewrite <- app_assoc.
    + rewrite length_app. simpl. lia.
    + lia.
Qed.

Lemma copy_path_copy_name fuel (a buf : list ascii) i :
  copy_path fuel a buf i = copy_name fuel a buf i i.
Proof.
  revert buf i. induction fuel as [|fuel IH]; intros buf i; simpl; [done|].
  destruct (a !! i) as [c|]; simpl; [|done].
  destruct (decide (c = NUL)); [done|].
  destruct (store buf i c); simpl; [|done]. apply IH.
Qed.

Lemma read_before_last (P rest : list ascii) :
  P ≠ [] → read_before (P ++ rest) (length P) = last P.
Proof.
  intros HP. destruct P as [|c P _] using rev_ind; [done|].
  rewrite length_app, last_snoc. simpl. rewrite Nat.add_1_r. simpl.
  rewrite <- app_assoc. rewrite lookup_app_r, Nat.sub_diag by lia. done.
Qed.

(** The joined path, for a parent that is not empty and a result that fits:
    [sep] is the separator that was written, none or one slash. *)
Lemma make_path_spec (new_path name absolute_path P n : list ascii) :
  c_str absolute_path = Some P →
  c_str name = Some n →
  P ≠ [] →
  let sep := if decide (last P = Some slash) then [] else [slash] in
  (length P + length sep + length n + 1 ≤ length new_path)%nat →
  ∃ buf, make_path new_path name absolute_path = Some buf ∧
         length buf = length new_path ∧
         c_str buf = Some (P ++ sep ++ n).
Proof.
  intros HP Hn Hne sep Hfit.
  apply c_str_split in HP as (restP & -> & HPn).
  apply c_str_split in Hn as (restn & -> & Hnn).
  unfold make_path. rewrite copy_path_copy_name.
  pose proof (copy_name_spec new_path P HPn (S (length (P ++ NUL :: restP)))
                (P ++ NUL :: restP) [] restP []) as H1.
  cbn [app length] in H1. rewrite drop_0 in H1. rewrite H1; [|done|lia|rewrite length_app; lia].
  clear H1. cbn [mbind option_bind]. rewrite read_before_last by done.
  destruct (last P) as [c|] eqn:Hlast; [|by apply last_None in Hlast].
  cbn [mbind option_bind].
  assert (∃ out, (if decide (c ≠ slash)
                  then store (P ++ drop (length P) new_path) (length P) slash
                       ≫= λ new_path0, Some (new_path0, S (length P))
                  else Some (P ++ drop (length P) new_path, length P))
                 = Some (out ++ drop (length out) new_path, length out)
                 ∧ out = P ++ sep) as (out & -> & Hout).
  { exists (P ++ sep). split; [|done]. unfold sep.
    destruct (decide (c ≠ slash)) as [Hc|Hc].
    - rewrite decide_False by congruence.
      rewrite store_next.
      + simpl. rewrite length_app. simpl. by rewrite Nat.add_1_r.
      + unfold sep in Hfit. rewrite decide_False in Hfit by congruence.
        simpl in Hfit. lia.
    - apply dec_stable in Hc. subst c. rewrite decide_True by done.
      by rewrite app_nil_r. }
  cbn [mbind option_bind].
  assert (length out = (length P + length sep)%nat) as Hlen
    by (by rewrite Hout, length_app).
  pose proof (copy_name_spec new_path n Hnn (S (length (n ++ NUL :: restn)))
                (n ++ NUL :: restn) [] restn out) as H2.
  cbn [app length] in H2. rewrite H2; [|done|lia|rewrite length_app; lia].
  clear H2. cbn [mbind option_bind]. rewrite store_next by (rewrite length_app; lia).
  eexists. split; [done|]. split.
  - rewrite length_app, length_drop, !length_app. simpl. lia.
  - rewrite <- (app_assoc (out ++ n)). simpl. rewrite Hout.
    rewrite <- (app_assoc P sep n), <- (app_assoc P (sep ++ n)), <- (app_assoc sep n).
    rewrite (app_assoc sep n), (app_assoc P (sep ++ n)).
    apply c_str_app. apply Forall_app. split; [done|].
    apply Forall_app. split; [|done]. unfold sep.
    destruct (decide (Some c = Some slash)); constructor; [done|constructor].
Qed.

(** C9: the parent path [P] is not empty, and the joined path with its
    terminator fits into a buffer of [CHAR_BUF] bytes. Then [make_path]
    leaves in the buffer the NUL-terminated string that consists of [P], of
    one slash when [P] does not end in a slash and of none when it does,
    and of the entry name [n]. *)
Theorem make_path_joins (new_path name absolute_path P n : list ascii) :
  c_str absolute_path = Some P →
  c_str name = Some n →
  P ≠ [] →
  length new_path = CHAR_BUF →
  (length P + (if decide (last P = Some slash) then 0 else 1) + length n + 1
   ≤ CHAR_BUF)%nat →
  ∃ buf, make_path new_path name absolute_path = Some buf ∧
         length buf = CHAR_BUF ∧
         (last P = Some slash → c_str buf = Some (P ++ n)) ∧
         (last P ≠ Some slash → c_str buf = Some (P ++ slash :: n)).
Proof.
  intros HP Hn Hne Hlen Hfit.
  destruct (make_path_spec new_path name absolute_path P n HP Hn Hne)
    as (buf & Hmk & Hbuf & Hstr).
  { rewrite Hlen. destruct (decide (last P = Some slash)); simpl; lia. }
  exists buf. split; [done|]. split; [congruence|].
  destruct (decide (last P = Some slash)) as [Hs|Hs]; split; intros Hs'; done.
Qed.

Lemma make_path_joins_witness :
  let P := String.list_ascii_of_string "/tmp/g" in
  let n := String.list_ascii_of_string "a" in
  ∃ buf, make_path (replicate CHAR_BUF NUL) (c_array "a") (c_array "/tmp/g") = Some buf ∧
         length buf = CHAR_BUF ∧
         (last P = Some slash → c_str buf = Some (P ++ n)) ∧
         (last P ≠ Some slash → c_str buf = Some (P ++ slash :: n)).
Proof.
  intros P n.
  apply (make_path_joins (replicate CHAR_BUF NUL) (c_array "a") (c_array "/tmp/g") P n).
  - reflexivity.
  - reflexivity.
  - discriminate.
  - apply length_replicate.
  - vm_compute. lia.
Defined.

(** ** The visit of a directory *)

Lemma and_then_1 evs r : (and_then evs r).1.1 = r.1.1.
Proof. done. Qed.

(** C5: the loop of [get_size_of_dir] reads an entry and [lstat] fails on
    the path of the entry. The block count of the directory itself is added
    to the sum, the buffer of the entry path is freed, and the directory is
    closed: the remaining entries are not looked at, whatever they are, in
    both modes. *)
Theorem entry_lstat_failure task permission absolute_path absolute_path_buf
    d_name under (rest : DIR) multithread block_size :
  lstat_of under = None →
  get_size_of_dir_loop get_block_size_at task permission absolute_path
    absolute_path_buf ((d_name, under) :: rest) multithread block_size
  = (block_size + blocks absolute_path_buf, permission,
     [ev_lstat (new_absolute_path d_name absolute_path);
      ev_free (new_absolute_path d_name absolute_path);
      ev_closedir absolute_path]).
Proof. intros Hfail. simpl. unfold lstat. simpl. by rewrite Hfail. Qed.

Lemma entry_lstat_failure_witness :
  get_size_of_dir_loop get_block_size_at None true "/tmp/g"
    (Stat S_IFDIR 8)
    [("gone", Fs_node None None); ("a", Fs_node (Some (Stat S_IFREG 8)) None)]
    false 0
  = (0 + blocks (Stat S_IFDIR 8), true,
     [ev_lstat (new_absolute_path "gone" "/tmp/g");
      ev_free (new_absolute_path "gone" "/tmp/g");
      ev_closedir "/tmp/g"]).
Proof. apply entry_lstat_failure. reflexivity. Defined.

(** C4: the path [P] of a visit is a directory that cannot be opened.
    Recursive mode: [get_block_size] returns the block count of [P] itself
    as its contribution, the permission flag is false afterwards, and all
    that happens is the [lstat], the failed [opendir] and one line
    [mdu: cannot read directory '<P>': Permission denied] on the error
    stream. Pool mode: the function of the task returns the same count and
    does the same, and then clears the permission flag of the queue; when
    [run_task] is through, the flag is false and the count has been added to
    the block size of the queue. No entry is visited in either mode. *)
Theorem unreadable_directory (P : Path) (buf : stat) (flag : bool) (q : Queue) :
  lstat P = Some buf →
  S_ISDIR (st_mode buf) = true →
  opendir P = None →
  let diagnostic :=
    ("mdu: cannot read directory '" +:+ chars P +:+ "': Permission denied" +:+ newline)%string in
  let task := mk_task fn_get_block_size_mult (Some P) in
  get_block_size P flag
  = (blocks buf, false,
     [ev_lstat (chars P); ev_opendir (chars P) false; ev_stderr diagnostic]) ∧
  call_task_pointer task
  = (blocks buf,
     [ev_lstat (chars P); ev_opendir (chars P) false; ev_stderr diagnostic;
      ev_permission_false], task) ∧
  permission (run_task q task).1 = false ∧
  block_size (run_task q task).1 = block_size q + blocks buf.
Proof.
  intros Hl Hd Ho diagnostic task.
  assert (get_block_size_mult task
          = (blocks buf,
             [ev_lstat (chars P); ev_opendir (chars P) false; ev_stderr diagnostic;
              ev_permission_false])) as Hmult.
  { unfold get_block_size_mult. simpl. by rewrite Hl, Hd, Ho. }
  assert (call_task_pointer task
          = (blocks buf,
             [ev_lstat (chars P); ev_opendir (chars P) false; ev_stderr diagnostic;
              ev_permission_false], task)) as Hcall.
  { unfold call_task_pointer. simpl. by rewrite Hmult. }
  split; [|split; [done|]].
  - unfold get_block_size. destruct P as [p [ls od]]. unfold lstat, opendir in *.
    simpl in *. subst ls od. by rewrite Hd.
  - unfold run_task. rewrite Hcall. simpl.
    assert ((blocks buf >? -1) = true) as -> by (apply Z.gtb_lt; unfold blocks; lia).
    unfold run_task_locked, kill_task_initializer. simpl.
    destruct (kill_task_initializer_test _ _ _); simpl; [|done].
    generalize (Z.to_nat (thread_amount q)). intros n.
    set (q0 := with_t_running _ _).
    assert (permission q0 = false ∧ block_size q0 = block_size q + blocks buf)
      as Hq0 by done.
    clearbody q0. revert q0 Hq0. induction n as [|n IH]; intros q0 Hq0; simpl; [done|].
    specialize (IH (add_task q0 kill_task_of_pool) Hq0).
    by destruct (kill_task_loop n (add_task q0 kill_task_of_pool)).
Qed.

Lemma unreadable_directory_witness :
  let P := mk_path "/tmp/g/h" (Fs_node (Some (Stat S_IFDIR 8)) None) in
  let q := mk_queue [] 4 16 1 true false in
  let diagnostic :=
    ("mdu: cannot read directory '/tmp/g/h': Permission denied" +:+ newline)%string in
  let task := mk_task fn_get_block_size_mult (Some P) in
  get_block_size P true
  = (8, false, [ev_lstat "/tmp/g/h"; ev_opendir "/tmp/g/h" false; ev_stderr diagnostic]) ∧
  call_task_pointer task
  = (8, [ev_lstat "/tmp/g/h"; ev_opendir "/tmp/g/h" false; ev_stderr diagnostic;
         ev_permission_false], task) ∧
  permission (run_task q task).1 = false ∧
  block_size (run_task q task).1 = 16 + 8.
Proof.
  intros P q diagnostic task.
  apply (unreadable_directory P (Stat S_IFDIR 8) true q); reflexivity.
Defined.

(** C2: the code departs from the claim on an entry that is neither a
    directory nor a regular file. The loop of [get_size_of_dir] tests
    [S_ISREG] and treats every other entry under the comment "if path is a
    directory", where [get_block_size] and [get_block_size_mult] test
    [S_ISDIR]. The directory [/r] is 8 blocks and holds the symbolic link
    [l], of no blocks, which is no directory. In the pool the loop adds
    nothing for the link and makes a task for [/r/l]; in the recursive mode
    it calls [get_block_size] on [/r/l], which calls [lstat] on it once
    more. *)
Lemma symbolic_link_entry_is_visited :
  let link := Fs_node (Some (Stat S_IFLNK 0)) None in
  let task := mk_task fn_get_block_size_mult None in
  S_ISDIR S_IFLNK = false ∧
  get_size_of_dir (Some task) true "/r" (Stat S_IFDIR 8) [("l", link)] true
  = (0, true,
     [ev_lstat "/r/l";
      ev_add_task (mk_task fn_get_block_size_mult (Some (mk_path "/r/l" link)));
      ev_closedir "/r"]) ∧
  get_size_of_dir None true "/r" (Stat S_IFDIR 8) [("l", link)] false
  = (0, true,
     [ev_lstat "/r/l"; ev_lstat "/r/l"; ev_free "/r/l"; ev_closedir "/r"]).
Proof. vm_compute. done. Qed.

(** ** The recursion and the task function *)

(** Induction on what the file system holds under a path. *)
Lemma fs_node_induction (P : fs_node → Prop) :
  (∀ ls od,
     match od with Some dir => Forall (λ e, P e.2) dir | None => True end →
     P (Fs_node ls od)) →
  ∀ t, P t.
Proof.
  intros H. fix IH 1. intros [ls [dir|]]; apply H; [|exact I].
  induction dir as [|[n c] dir IHdir]; constructor; [exact (IH c)|exact IHdir].
Qed.

Lemma visit_result_eq (a a' : blkcnt_t) (b b' : bool) (c c' : list event) :
  a = a' → b = b' → c = c' → (a, b, c) = (a', b', c').
Proof. by intros -> -> ->. Qed.

(** The flag that the recursion starts with does not change what it adds
    or what it does: it is cleared, or left as it was. *)
Lemma get_size_of_dir_loop_flag task flag p buf (dir : DIR) bs :
  Forall (λ e, ∀ c f, get_block_size_at c e.2 f
                      = ((get_block_size_at c e.2 true).1.1,
                         f && (get_block_size_at c e.2 true).1.2,
                         (get_block_size_at c e.2 true).2)) dir →
  get_size_of_dir_loop get_block_size_at task flag p buf dir false bs
  = (bs + (get_size_of_dir_loop get_block_size_at task true p buf dir false 0).1.1,
     flag && (get_size_of_dir_loop get_block_size_at task true p buf dir false 0).1.2,
     (get_size_of_dir_loop get_block_size_at task true p buf dir false 0).2).
Proof.
  intros Hdir. revert flag bs.
  induction Hdir as [|[n c] dir Hc _ IH]; intros flag bs; simpl.
  { apply visit_result_eq; [lia|by rewrite andb_true_r|done]. }
  unfold lstat. simpl. destruct (lstat_of c) as [cbuf|] eqn:Hl; simpl.
  2:{ apply visit_result_eq; [lia|by rewrite andb_true_r|done]. }
  simpl in Hc.
  destruct (n =? ".")%string.
  { rewrite (IH flag), (IH true (0 + _)). unfold and_then. simpl.
    apply visit_result_eq; [lia|done|done]. }
  destruct (negb (n =? ".."))%string.
  2:{ rewrite (IH flag), (IH true 0). unfold and_then. simpl.
      apply visit_result_eq; [lia|done|done]. }
  destruct (S_ISREG (st_mode cbuf)).
  { rewrite (IH flag), (IH true (0 + _)). unfold and_then. simpl.
    apply visit_result_eq; [lia|done|done]. }
  rewrite (Hc (new_absolute_path n p) flag).
  destruct (get_block_size_at (new_absolute_path n p) c true) as [[size ok] evs] eqn:Hrec.
  simpl. rewrite (IH (flag && ok)), (IH ok (0 + size)). unfold and_then. simpl.
  apply visit_result_eq; [lia| |done].
  destruct flag, ok; done.
Qed.

Lemma get_block_size_at_flag c t f :
  get_block_size_at c t f
  = ((get_block_size_at c t true).1.1, f && (get_block_size_at c t true).1.2,
     (get_block_size_at c t true).2).
Proof.
  revert c f. induction t as [ls od IH] using fs_node_induction. intros c f.
  destruct ls as [buf|]; simpl; [|by rewrite andb_true_r].
  destruct (S_ISDIR (st_mode buf)); [|by rewrite andb_true_r].
  destruct od as [dir|]; [|by rewrite andb_false_r].
  rewrite (get_size_of_dir_loop_flag None f c buf dir 0) by done.
  by destruct (get_size_of_dir_loop get_block_size_at None true c buf dir false 0)
    as [[size ok] evs].
Qed.

Lemma get_block_size_flag p f :
  get_block_size p f = (size_under p, f && readable_under p, (get_block_size p true).2).
Proof. unfold get_block_size, size_under, readable_under. apply get_block_size_at_flag. Qed.

(** The loop in the pool and the loop in the recursion go through the same
    entries. Where the recursion calls [get_block_size] on an entry, the
    pool adds a task that stands for the same size and the same flag. *)
Lemma get_size_of_dir_loop_pool task p buf (dir : DIR) :
  task_pointer task = fn_get_block_size_mult →
  ∀ flag f bs bs',
    let rm := get_size_of_dir_loop get_block_size_at (Some task) flag p buf dir true bs in
    let rs := get_size_of_dir_loop get_block_size_at None f p buf dir false bs' in
    rs.1.1 - bs' = rm.1.1 - bs + sumZ event_size rm.2 ∧
    rs.1.2 = f && forallb event_readable rm.2.
Proof.
  intros Hptr. induction dir as [|[n c] dir IH]; intros flag f bs bs'; simpl.
  { split; [lia|by rewrite andb_true_r]. }
  unfold lstat. simpl. destruct (lstat_of c) as [cbuf|] eqn:Hl; simpl.
  2:{ split; [lia|by rewrite andb_true_r]. }
  destruct (n =? ".")%string.
  { destruct (IH flag f (bs + blocks cbuf) (bs' + blocks cbuf)) as [H1 H2].
    simpl in *. split; [lia|done]. }
  destruct (negb (n =? ".."))%string.
  2:{ destruct (IH flag f bs bs') as [H1 H2]. simpl in *. split; [lia|done]. }
  destruct (S_ISREG (st_mode cbuf)).
  { destruct (IH flag f (bs + blocks cbuf) (bs' + blocks cbuf)) as [H1 H2].
    simpl in *. split; [lia|done]. }
  rewrite (get_block_size_at_flag (new_absolute_path n p) c f).
  set (size := (get_block_size_at (new_absolute_path n p) c true).1.1).
  set (ok := (get_block_size_at (new_absolute_path n p) c true).1.2).
  destruct (IH flag (f && ok) bs (bs' + size)) as [H1 H2].
  simpl in *. unfold task_size, task_readable. simpl. rewrite Hptr.
  unfold size_under, readable_under, get_block_size. simpl. fold size ok.
  split; [lia|]. rewrite H2. by rewrite andb_assoc.
Qed.

Lemma get_size_of_dir_loop_grows rec task flag p buf (dir : DIR) bs :
  bs ≤ (get_size_of_dir_loop rec task flag p buf dir true bs).1.1.
Proof.
  revert bs. induction dir as [|[n c] dir IH]; intros bs; simpl; [lia|].
  unfold lstat, blocks. simpl. destruct (lstat_of c) as [cbuf|]; simpl; [|lia].
  destruct (n =? ".")%string; simpl.
  { etrans; [|apply IH]. lia. }
  destruct (negb (n =? ".."))%string; simpl; [|apply IH].
  destruct (S_ISREG (st_mode cbuf)); simpl; [|apply IH].
  etrans; [|apply IH]. lia.
Qed.

(** What the function of a work task returns and what it still adds to the
    queue make up the size that the recursion finds under the path of the
    task; the flag that the recursion ends with is cleared exactly if the
    task function clears it or adds a task under which it is cleared. *)
Lemma get_block_size_mult_pending task :
  task_pointer task = fn_get_block_size_mult →
  0 ≤ (get_block_size_mult task).1 ∧
  (get_block_size_mult task).1 + sumZ event_size (get_block_size_mult task).2
  = task_size task ∧
  forallb event_readable (get_block_size_mult task).2 = task_readable task.
Proof.
  intros Hptr. unfold get_block_size_mult, task_size, task_readable. rewrite Hptr.
  destruct (path task) as [[p [ls od]]|]; simpl; [|done].
  unfold size_under, readable_under, get_block_size, lstat, opendir. simpl.
  destruct ls as [buf|]; simpl; [|done].
  destruct (S_ISDIR (st_mode buf)); simpl;
    [|unfold blocks; split; [lia|split; [lia|done]]].
  destruct od as [dir|]; simpl;
    [|unfold blocks; split; [lia|split; [lia|done]]].
  unfold get_size_of_dir.
  pose proof (get_size_of_dir_loop_pool task p buf dir Hptr true true 0 0) as [H1 H2].
  pose proof (get_size_of_dir_loop_grows get_block_size_at (Some task) true p buf dir 0) as H3.
  destruct (get_size_of_dir_loop get_block_size_at (Some task) true p buf dir true 0)
    as [[sm fm] em].
  destruct (get_size_of_dir_loop get_block_size_at None true p buf dir false 0)
    as [[ss fs] es].
  simpl in *. split; [done|]. split; [lia|done].
Qed.

Lemma call_task_pointer_pending task :
  let '(temp, todo, task') := call_task_pointer task in
  thread_size (in_task task' todo temp) = task_size task ∧
  thread_readable (in_task task' todo temp) = task_readable task ∧
  task_pointer task' = task_pointer task ∧
  (task_pointer task = fn_shutdown_threads → temp = -1 ∧ todo = [ev_shutdown]) ∧
  (task_pointer task ≠ fn_shutdown_threads → 0 ≤ temp).
Proof.
  unfold call_task_pointer.
  destruct (task_pointer task) eqn:Hptr.
  - pose proof (get_block_size_mult_pending task Hptr) as (H1 & H2 & H3).
    destruct (get_block_size_mult task) as [temp todo]. simpl in *.
    assert ((temp >? -1) = true) as -> by (apply Z.gtb_lt; lia).
    repeat split; try done.
  - simpl. unfold task_size, task_readable. rewrite Hptr. repeat split; try done.
  - simpl. unfold task_size, task_readable. rewrite Hptr. repeat split; try done.
Qed.

(** ** The moves of a thread *)

Lemma q_dequeue_snoc (q : Queue) l t :
  task_q q = l ++ [t] → q_dequeue q = (Some t, with_task_q q l).
Proof.
  intros Hq. unfold q_dequeue. rewrite Hq, last_snoc. by rewrite removelast_last.
Qed.

Lemma q_dequeue_nil (q : Queue) : task_q q = [] → q_dequeue q = (None, q).
Proof. intros Hq. unfold q_dequeue. by rewrite Hq. Qed.

Lemma q_is_empty_snoc (q : Queue) l t : task_q q = l ++ [t] → q_is_empty q = false.
Proof. intros Hq. unfold q_is_empty. rewrite Hq. by destruct l. Qed.

Lemma task_q_cases (q : Queue) : task_q q = [] ∨ ∃ l t, task_q q = l ++ [t].
Proof.
  destruct (task_q q) as [|t l _] using rev_ind; [by left|right; eauto].
Qed.

Lemma take_task_snoc (q : Queue) l t :
  task_q q = l ++ [t] →
  take_task q = Some (taken q l, [], in_task (call_task_pointer t).2
                                      (call_task_pointer t).1.2 (call_task_pointer t).1.1).
Proof.
  intros Hq. unfold take_task. rewrite (q_dequeue_snoc q l t Hq).
  by destruct (call_task_pointer t) as [[temp todo] t'].
Qed.

Lemma run_thread_step_inv q w q' evs w' :
  run_thread_step q w = Some (q', evs, w') → thread_step q w q' evs w'.
Proof.
  destruct w as [fin| |task [|e todo] temp|task i|]; simpl.
  - destruct (shutdown q) eqn:Hs.
    { intros [= <- <- <-]. by constructor. }
    destruct (task_q_cases q) as [Hq|(l & t & Hq)].
    { unfold q_is_empty. rewrite Hq. intros [= <- <- <-]. by constructor. }
    rewrite (q_is_empty_snoc q l t Hq), (take_task_snoc q l t Hq). simpl.
    intros [= <- <- <-]. econstructor; [done..|].
    by destruct (call_task_pointer t) as [[temp todo] t'].
  - destruct (task_q_cases q) as [Hq|(l & t & Hq)].
    { unfold q_is_empty. by rewrite Hq. }
    rewrite (q_is_empty_snoc q l t Hq), (take_task_snoc q l t Hq).
    intros [= <- <- <-]. econstructor; [done|].
    by destruct (call_task_pointer t) as [[temp todo] t'].
  - unfold run_task_locked.
    destruct (kill_task_initializer_test _ _ _) eqn:Htest;
      intros [= <- <- <-]; by constructor.
  - intros [= <- <- <-]. constructor.
  - destruct (i <? thread_amount q) eqn:Hi; intros [= <- <- <-]; constructor; lia.
  - done.
Qed.

Lemma step_inv start_path s s' :
  step start_path s s' →
  (start_added s = false ∧
   s' = mk_pool (add_task (queue s) (start_task start_path)) (threads s) true
          (happened s ++ [ev_add_task (start_task start_path)])) ∨
  (∃ l1 w l2 q' evs w',
     threads s = l1 ++ w :: l2 ∧
     thread_step (queue s) w q' evs w' ∧
     s' = mk_pool q' (l1 ++ w' :: l2) (start_added s) (happened s ++ evs)).
Proof.
  intros [s0 Hstart|s0 i w q' evs w' Hw Hstep]; [by left|right].
  exists (take i (threads s0)), w, (drop (S i) (threads s0)), q', evs, w'.
  split; [by rewrite take_drop_middle|].
  split; [by apply run_thread_step_inv|].
  f_equal. apply insert_take_drop. by eapply lookup_lt_Some.
Qed.

(** ** Sums *)

Lemma sumZ_app {A} (f : A → Z) l1 l2 : sumZ f (l1 ++ l2) = sumZ f l1 + sumZ f l2.
Proof. induction l1 as [|x l1 IH]; simpl; [done|]. rewrite IH. lia. Qed.

Lemma sumZ_cons {A} (f : A → Z) x l : sumZ f (x :: l) = f x + sumZ f l.
Proof. done. Qed.

Lemma sumZ_middle {A} (f : A → Z) l1 x l2 :
  sumZ f (l1 ++ x :: l2) = sumZ f l1 + f x + sumZ f l2.
Proof. rewrite sumZ_app, sumZ_cons. lia. Qed.

Lemma sumZ_replicate {A} (f : A → Z) n x : sumZ f (replicate n x) = Z.of_nat n * f x.
Proof. induction n as [|n IH]; simpl; [lia|]. rewrite IH. lia. Qed.

Lemma sumZ_nonneg {A} (f : A → Z) l : (∀ x, 0 ≤ f x) → 0 ≤ sumZ f l.
Proof. intros Hf. induction l as [|x l IH]; simpl; [lia|]. specialize (Hf x). lia. Qed.

Lemma forallb_middle {A} (f : A → bool) l1 x l2 :
  forallb f (l1 ++ x :: l2) = forallb f l1 && f x && forallb f l2.
Proof. rewrite forallb_app. simpl. by rewrite andb_assoc. Qed.

(** ** What a pool still stands for does not change *)

Lemma event_size_perform e (q : Queue) :
  block_size (perform e q) = block_size q ∧
  sumZ task_size (task_q (perform e q)) = sumZ task_size (task_q q) + event_size e.
Proof.
  destruct e; simpl; try (split; [done|lia]).
  rewrite sumZ_app. simpl. split; [done|lia].
Qed.

Lemma thread_step_size q w q' evs w' :
  thread_step q w q' evs w' →
  block_size q' + sumZ task_size (task_q q') + thread_size w'
  = block_size q + sumZ task_size (task_q q) + thread_size w.
Proof.
  intros [fin Hs|fin Hs Hq|fin l t temp todo t' Hs Hq Hcall|l t temp todo t' Hq Hcall
         |task e todo temp|task temp Htest|task temp Htest|task i Hi|task i Hi];
    simpl; try lia.
  - pose proof (call_task_pointer_pending t) as Hp. rewrite Hcall in Hp.
    destruct Hp as (Hp & _). simpl in Hp. rewrite Hq, sumZ_app. simpl. lia.
  - pose proof (call_task_pointer_pending t) as Hp. rewrite Hcall in Hp.
    destruct Hp as (Hp & _). simpl in Hp. rewrite Hq, sumZ_app. simpl. lia.
  - destruct (event_size_perform e q) as [-> ->]. lia.
  - unfold accounted, run_task_locked. simpl. destruct (temp >? -1); simpl; lia.
  - unfold accounted, run_task_locked. simpl. destruct (temp >? -1); simpl; lia.
  - rewrite sumZ_app. simpl. unfold task_size. simpl. lia.
Qed.

Lemma step_pool_size start_path s s' :
  step start_path s s' → pool_size start_path s' = pool_size start_path s.
Proof.
  intros Hstep. apply step_inv in Hstep
    as [[Hstart ->]|(l1 & w & l2 & q' & evs & w' & Hws & Hmove & ->)].
  - unfold pool_size. simpl. rewrite Hstart, sumZ_app. simpl. lia.
  - unfold pool_size. simpl. rewrite Hws, !sumZ_middle.
    pose proof (thread_step_size _ _ _ _ _ Hmove). lia.
Qed.

Lemma event_readable_perform e (q : Queue) :
  permission (perform e q) && forallb task_readable (task_q (perform e q))
  = permission q && forallb task_readable (task_q q) && event_readable e.
Proof.
  destruct e; simpl; rewrite ?andb_true_r; try done.
  - rewrite forallb_app. simpl. by rewrite andb_true_r, andb_assoc.
  - by rewrite andb_false_r.
Qed.

Lemma andb_frame (a b c d x y z : bool) :
  a && b = c && d → a && (x && b && y) && z = c && (x && d && y) && z.
Proof. destruct a, b, c, d, x, y, z; simpl; done. Qed.

Lemma thread_step_readable q w q' evs w' :
  thread_step q w q' evs w' →
  permission q' && forallb task_readable (task_q q') && thread_readable w'
  = permission q && forallb task_readable (task_q q) && thread_readable w.
Proof.
  intros [fin Hs|fin Hs Hq|fin l t temp todo t' Hs Hq Hcall|l t temp todo t' Hq Hcall
         |task e todo temp|task temp Htest|task temp Htest|task i Hi|task i Hi];
    simpl; try done.
  - pose proof (call_task_pointer_pending t) as Hp. rewrite Hcall in Hp.
    destruct Hp as (_ & Hp & _). simpl in Hp.
    rewrite Hq, forallb_app, Hp. simpl. by rewrite !andb_true_r, andb_assoc.
  - pose proof (call_task_pointer_pending t) as Hp. rewrite Hcall in Hp.
    destruct Hp as (_ & Hp & _). simpl in Hp.
    rewrite Hq, forallb_app, Hp. simpl. by rewrite !andb_true_r, andb_assoc.
  - rewrite event_readable_perform. by rewrite andb_assoc.
  - unfold accounted, run_task_locked. simpl. by destruct (temp >? -1).
  - unfold accounted, run_task_locked. simpl. by destruct (temp >? -1).
  - rewrite forallb_app. simpl. by rewrite !andb_true_r.
Qed.

Lemma step_pool_readable start_path s s' :
  step start_path s s' → pool_readable start_path s' = pool_readable start_path s.
Proof.
  intros Hstep. apply step_inv in Hstep
    as [[Hstart ->]|(l1 & w & l2 & q' & evs & w' & Hws & Hmove & ->)].
  - unfold pool_readable. simpl. rewrite Hstart, forallb_app. simpl.
    rewrite !andb_true_r.
    destruct (permission (queue s)), (forallb task_readable (task_q (queue s))),
      (forallb thread_readable (threads s)), (task_readable (start_task start_path)); done.
  - unfold pool_readable. simpl. rewrite Hws, !forallb_middle.
    pose proof (thread_step_readable _ _ _ _ _ Hmove) as H.
    by apply andb_frame.
Qed.

Lemma steps_pool_size start_path s s' :
  steps start_path s s' → pool_size start_path s' = pool_size start_path s.
Proof.
  induction 1 as [|s1 s2 s3 Hstep _ IH]; [done|].
  rewrite IH. by apply step_pool_size.
Qed.

Lemma steps_pool_readable start_path s s' :
  steps start_path s s' → pool_readable start_path s' = pool_readable start_path s.
Proof.
  induction 1 as [|s1 s2 s3 Hstep _ IH]; [done|].
  rewrite IH. by apply step_pool_readable.
Qed.

(** ** Tasks of work and kill tasks *)

Lemma fs_weight_dir ls dir : fs_weight (Fs_node ls (Some dir)) = 8 + dir_weight dir.
Proof.
  simpl. f_equal. unfold dir_weight.
  induction dir as [|[n c] dir IH]; simpl; [done|]. rewrite IH. lia.
Qed.

Lemma fs_weight_min t : 8 ≤ fs_weight t.
Proof.
  induction t as [ls [dir|] IH] using fs_node_induction; [|simpl; lia].
  rewrite fs_weight_dir. unfold dir_weight.
  induction IH as [|[n c] dir Hc _ IHdir]; simpl in *; lia.
Qed.

Lemma task_weight_min t : 4 ≤ task_weight t.
Proof.
  unfold task_weight. destruct (is_kill t); [lia|].
  destruct (path t) as [p|]; [|lia]. pose proof (fs_weight_min (target p)). lia.
Qed.

Ltac events_of_work := repeat (constructor; simpl); done.

(** The events of the loop in the pool: the tasks it adds are tasks of
    work, and their weight is within the weight of the entries. *)
Lemma get_size_of_dir_loop_events rec task flag p buf (dir : DIR) bs :
  is_kill task = false →
  Forall event_of_work (get_size_of_dir_loop rec (Some task) flag p buf dir true bs).2 ∧
  sumZ event_weight (get_size_of_dir_loop rec (Some task) flag p buf dir true bs).2
  ≤ dir_weight dir + 3.
Proof.
  intros Hk. revert bs. unfold dir_weight.
  induction dir as [|[n c] dir IH]; intros bs; simpl.
  { split; [events_of_work|lia]. }
  pose proof (fs_weight_min c) as Hc.
  pose proof (sumZ_nonneg (λ e : string * fs_node, 3 + fs_weight e.2) dir) as Hd.
  assert (0 ≤ sumZ (λ e : string * fs_node, 3 + fs_weight e.2) dir) as Hd'.
  { apply Hd. intros [n' c']. pose proof (fs_weight_min c'). simpl. lia. }
  unfold lstat. simpl. destruct (lstat_of c) as [cbuf|]; simpl.
  2:{ split; [events_of_work|lia]. }
  destruct (n =? ".")%string; simpl.
  { destruct (IH (bs + blocks cbuf)) as [H1 H2]. split; [events_of_work|lia]. }
  destruct (negb (n =? ".."))%string; simpl.
  2:{ destruct (IH bs) as [H1 H2]. split; [events_of_work|lia]. }
  destruct (S_ISREG (st_mode cbuf)); simpl.
  { destruct (IH (bs + blocks cbuf)) as [H1 H2]. split; [events_of_work|lia]. }
  destruct (IH bs) as [H1 H2]. split.
  - constructor; [done|]. constructor; [|done]. simpl.
    unfold is_kill in *. simpl. done.
  - unfold task_weight at 1. unfold is_kill in *. simpl. rewrite Hk. simpl. lia.
Qed.

Lemma call_task_pointer_work t :
  is_kill t = false →
  is_kill (call_task_pointer t).2 = false ∧
  0 ≤ (call_task_pointer t).1.1 ∧
  Forall event_of_work (call_task_pointer t).1.2 ∧
  sumZ event_weight (call_task_pointer t).1.2 + 3 ≤ task_weight t.
Proof.
  intros Hk. unfold call_task_pointer, task_weight. rewrite Hk.
  destruct (task_pointer t) eqn:Hptr.
  - pose proof (get_block_size_mult_pending t Hptr) as (Htemp & _).
    unfold get_block_size_mult in *.
    destruct (path t) as [[p [ls od]]|]; simpl in *;
      [|split; [done|]; split; [done|]; split; [constructor|lia]].
    pose proof (fs_weight_min (Fs_node ls od)) as Hmin.
    unfold lstat, opendir in *. simpl in *.
    destruct ls as [buf|]; simpl in *;
      [|split; [done|]; split; [done|]; split; [events_of_work|lia]].
    destruct (S_ISDIR (st_mode buf)); simpl in *;
      [|split; [done|]; split; [done|]; split; [events_of_work|lia]].
    destruct od as [dir|]; simpl in *;
      [|split; [done|]; split; [done|]; split; [events_of_work|lia]].
    unfold get_size_of_dir in *.
    pose proof (get_size_of_dir_loop_events get_block_size_at t true p buf dir 0 Hk)
      as [H1 H2].
    pose proof (fs_weight_dir (Some buf) dir) as Hw. simpl in Hw.
    destruct (get_size_of_dir_loop get_block_size_at (Some t) true p buf dir true 0)
      as [[sm fm] em]. simpl in *.
    split; [done|]. split; [done|]. split; [events_of_work|].
    rewrite Hw. lia.
  - unfold is_kill in Hk. rewrite Hptr in Hk. done.
  - simpl. split; [done|]. split; [done|]. split; [constructor|].
    destruct (path t) as [p|]; [|lia]. pose proof (fs_weight_min (target p)). lia.
Qed.

Lemma call_task_pointer_kill t :
  is_kill t = true →
  call_task_pointer t = (-1, [ev_shutdown], mk_task (task_pointer t) None) ∧
  is_kill (mk_task (task_pointer t) None) = true ∧
  task_weight t = 4.
Proof.
  intros Hk. unfold call_task_pointer, task_weight. rewrite Hk.
  unfold is_kill, shutdown_threads in *. simpl. apply bool_decide_eq_true in Hk.
  rewrite !Hk. split; [done|]. split; [|done]. by apply bool_decide_eq_true.
Qed.

(** ** The phases of a pool *)

Lemma existsb_false {A} (f : A → bool) l :
  existsb f l = false ↔ Forall (λ x, f x = false) l.
Proof.
  induction l as [|x l IH]; simpl.
  - split; [constructor|done].
  - rewrite orb_false_iff, IH. split.
    + intros [? ?]. by constructor.
    + intros H. by apply Forall_cons in H.
Qed.

Lemma working_middle q l1 w l2 st h :
  working (mk_pool q (l1 ++ w :: l2) st h)
  = negb st || existsb (λ t, negb (is_kill t)) (task_q q)
    || (existsb holds_work l1 || holds_work w || existsb holds_work l2).
Proof.
  unfold working. simpl. rewrite existsb_app. simpl.
  by destruct st, (existsb _ (task_q q)), (existsb holds_work l1), (holds_work w).
Qed.

Lemma running_nonneg l : 0 ≤ sumZ running l.
Proof. apply sumZ_nonneg. intros []; simpl; lia. Qed.

Lemma has_kill_nonneg l : 0 ≤ sumZ has_kill l.
Proof.
  apply sumZ_nonneg. intros [[t|]| |t ? ?| |]; simpl; try lia; destruct (is_kill t); lia.
Qed.

Lemma alive_le_length l : sumZ alive l ≤ Z.of_nat (length l).
Proof. induction l as [|w l IH]; simpl; [lia|]. destruct w; simpl; lia. Qed.

Lemma at_work_quiet N q l :
  Forall thread_at_work l → sumZ running l = 0 →
  existsb holds_work l = false ∧ Forall (thread_winding_down N q) l ∧
  sumZ (kill_budget N) l = 0.
Proof.
  induction 1 as [|w l Hw _ IH]; simpl; [done|]. intros Hrun.
  pose proof (running_nonneg l).
  destruct w as [[t|]| |t todo temp|t i|]; simpl in *; try done; try lia.
  - destruct IH as (-> & ? & ->); [lia|]. split; [done|]. split; [|done].
    constructor; [|done]. simpl. congruence.
  - destruct IH as (-> & ? & ->); [lia|]. split; [done|]. split; [|done].
    by constructor.
  - destruct IH as (-> & ? & ->); [lia|]. split; [done|]. split; [|done].
    by constructor.
Qed.

Lemma at_work_busy l :
  Forall thread_at_work l → sumZ running l ≠ 0 → existsb holds_work l = true.
Proof.
  induction 1 as [|w l Hw _ IH]; simpl; [done|]. intros Hrun.
  destruct w as [[t|]| |t todo temp|t i|]; simpl in *; try done;
    try (apply IH; lia).
  destruct Hw as [-> _]. done.
Qed.

Lemma at_work_alive l :
  Forall thread_at_work l → sumZ alive l = Z.of_nat (length l).
Proof.
  induction 1 as [|w l Hw _ IH]; simpl; [done|].
  destruct w as [[t|]| |t todo temp|t i|]; simpl in *; try done; lia.
Qed.

Lemma winding_down_mono N (q q' : Queue) l :
  (shutdown q = true → shutdown q' = true) →
  Forall (thread_winding_down N q) l → Forall (thread_winding_down N q') l.
Proof.
  intros Hmono Hl. eapply Forall_impl; [exact Hl|].
  intros [[t|]| |t todo temp|t i|]; simpl; try done.
  - auto.
  - intros (? & ? & [?|[? ?]]).
    + split; [done|]. split; [done|]. by left.
    + split; [done|]. split; [done|]. right. auto.
Qed.

Lemma idle_at_work l :
  Forall (λ w, w = at_lock None ∨ w = at_wait) l →
  Forall thread_at_work l ∧ sumZ running l = 0.
Proof.
  induction 1 as [|w l [->| ->] _ [IH1 IH2]]; simpl; [done|..];
    (split; [by constructor|lia]).
Qed.

Lemma length_middle {A} (l1 l2 : list A) x y :
  length (l1 ++ x :: l2) = length (l1 ++ y :: l2).
Proof. by rewrite !length_app. Qed.

Lemma Forall_middle {A} (P : A → Prop) l1 x l2 :
  Forall P (l1 ++ x :: l2) ↔ Forall P l1 ∧ P x ∧ Forall P l2.
Proof. by rewrite Forall_app, Forall_cons. Qed.

Lemma accounted_fields (q : Queue) temp :
  thread_amount (accounted q temp) = thread_amount q ∧
  task_q (accounted q temp) = task_q q ∧
  t_running (accounted q temp) = t_running q - 1 ∧
  shutdown (accounted q temp) = shutdown q ∧
  permission (accounted q temp) = permission q.
Proof. unfold accounted, run_task_locked. simpl. by destruct (temp >? -1). Qed.

Lemma perform_fields e (q : Queue) :
  thread_amount (perform e q) = thread_amount q ∧
  t_running (perform e q) = t_running q.
Proof. by destruct e. Qed.

Lemma perform_at_work e (q : Queue) :
  event_of_work e → shutdown q = false →
  Forall (λ t, is_kill t = false) (task_q q) →
  shutdown (perform e q) = false ∧
  Forall (λ t, is_kill t = false) (task_q (perform e q)).
Proof.
  intros He Hs Hq. destruct e; simpl in *; try done.
  split; [done|]. apply Forall_app. split; [done|]. by constructor.
Qed.

Opaque accounted.

(** While the pool is at work, a move of a thread leaves it at work, or it
    is the move that finds the queue empty and no thread running. *)
Lemma thread_move_at_work N q l1 w l2 st h q' evs w' :
  pool_inv N (mk_pool q (l1 ++ w :: l2) st h) →
  working (mk_pool q (l1 ++ w :: l2) st h) = true →
  thread_step q w q' evs w' →
  pool_inv N (mk_pool q' (l1 ++ w' :: l2) st (h ++ evs)) ∧
  (working (mk_pool q' (l1 ++ w' :: l2) st (h ++ evs)) = true ∨
   ∃ task temp, w = in_task task [] temp ∧ w' = in_kill_task_initializer task 0).
Proof.
  intros [Ham Hlen Hrun Hidle Hwork _] Hphase Hmove. simpl in *.
  destruct (Hwork Hphase) as (Hsh & Hq & Hth).
  apply Forall_middle in Hth as (Hl1 & Hw & Hl2).
  rewrite sumZ_middle in Hrun. rewrite (length_middle l1 l2 w w') in Hlen.
  rewrite working_middle in Hphase.
  assert (st = false → False ∨ (task_q q = [] ∧ (w = at_lock None ∨ w = at_wait) ∧
            Forall (λ w, w = at_lock None ∨ w = at_wait) l1 ∧
            Forall (λ w, w = at_lock None ∨ w = at_wait) l2)) as Hidle'.
  { intros Hst. right. destruct (Hidle Hst) as [Hq0 Hall].
    apply Forall_middle in Hall as (? & ? & ?). done. }
  (* the pool stays at work when the thread holds work after the move *)
  assert (holds_work w' = true → thread_at_work w' →
          thread_amount q' = N → t_running q' = sumZ running l1 + running w' + sumZ running l2 →
          shutdown q' = false → Forall (λ t, is_kill t = false) (task_q q') →
          st = true →
          pool_inv N (mk_pool q' (l1 ++ w' :: l2) st (h ++ evs)) ∧
          (working (mk_pool q' (l1 ++ w' :: l2) st (h ++ evs)) = true ∨
           ∃ task temp, w = in_task task [] temp ∧ w' = in_kill_task_initializer task 0))
    as Hstay.
  { intros Hhw Hw' Ham' Hrun' Hsh' Hq' Hst.
    assert (working (mk_pool q' (l1 ++ w' :: l2) st (h ++ evs)) = true) as Hph'.
    { rewrite working_middle, Hhw. by rewrite orb_true_r, orb_true_l, orb_true_r. }
    split; [|by left]. constructor; simpl; try done.
    - by rewrite sumZ_middle.
    - by rewrite Hst.
    - intros _. split; [done|]. split; [done|]. by apply Forall_middle.
    - by rewrite Hph'. }
  destruct Hmove as [fin Hs|fin Hs Hq0|fin l t temp todo t' Hs Hq0 Hcall
                    |l t temp todo t' Hq0 Hcall
                    |task e todo temp|task temp Htest|task temp Htest
                    |task i Hi|task i Hi].
  - congruence.
  - (* the thread finds the queue empty and waits *)
    assert (working (mk_pool q (l1 ++ at_wait :: l2) st (h ++ kill_task_events fin)) = true)
      as Hph'.
    { rewrite working_middle. by destruct fin. }
    split; [|by left]. constructor; simpl; try done.
    + rewrite sumZ_middle. by destruct fin.
    + intros Hst. destruct (Hidle' Hst) as [[]|(? & ? & ? & ?)].
      split; [done|]. apply Forall_middle. auto.
    + intros _. split; [done|]. split; [done|]. by apply Forall_middle.
    + by rewrite Hph'.
  - (* the thread takes a task *)
    rewrite Hq0 in Hq. apply Forall_app in Hq as [Hql Hqt].
    apply Forall_cons in Hqt as [Hkt _].
    pose proof (call_task_pointer_work t Hkt) as (Hk' & Htemp & Htodo & _).
    rewrite Hcall in Hk', Htemp, Htodo. simpl in *.
    apply Hstay; simpl; try done.
    + by rewrite Hk'.
    + destruct fin; simpl in *; lia.
    + destruct st; [done|]. destruct (Hidle' eq_refl) as [[]|(Hq1 & _)].
      rewrite Hq1 in Hq0. by destruct l.
  - rewrite Hq0 in Hq. apply Forall_app in Hq as [Hql Hqt].
    apply Forall_cons in Hqt as [Hkt _].
    pose proof (call_task_pointer_work t Hkt) as (Hk' & Htemp & Htodo & _).
    rewrite Hcall in Hk', Htemp, Htodo. simpl in *.
    apply Hstay; simpl; try done.
    + by rewrite Hk'.
    + lia.
    + destruct st; [done|]. destruct (Hidle' eq_refl) as [[]|(Hq1 & _)].
      rewrite Hq1 in Hq0. by destruct l.
  - (* an event of the task function *)
    destruct Hw as (Hk & Htemp & Htodo). apply Forall_cons in Htodo as [He Htodo].
    destruct (perform_fields e q) as [Ha' Hr'].
    destruct (perform_at_work e q He Hsh Hq) as [Hs' Hq'].
    apply Hstay; simpl; try done.
    + by rewrite Hk.
    + congruence.
    + rewrite Hr'. simpl in Hrun. lia.
    + destruct st; [done|]. destruct (Hidle' eq_refl) as [[]|(_ & [?|?] & _)]; done.
  - (* the last task of work is through *)
    destruct Hw as (Hk & Htemp & _).
    destruct (accounted_fields q temp) as (Ha' & Hq' & Hr' & Hs' & _).
    unfold kill_task_initializer_test in Htest.
    apply andb_prop in Htest as [Htest _]. apply andb_prop in Htest as [Hempty Hzero].
    apply Z.eqb_eq in Hzero.
    assert (task_q q = []) as Hq0.
    { unfold q_is_empty in Hempty. rewrite Hq' in Hempty. by destruct (task_q q). }
    simpl in Hrun.
    pose proof (running_nonneg l1). pose proof (running_nonneg l2).
    destruct (at_work_quiet N (accounted q temp) l1 Hl1) as (Hh1 & Hd1 & Hb1); [lia|].
    destruct (at_work_quiet N (accounted q temp) l2 Hl2) as (Hh2 & Hd2 & Hb2); [lia|].
    assert (st = true) as ->.
    { destruct st; [done|]. destruct (Hidle' eq_refl) as [[]|(_ & [?|?] & _)]; done. }
    assert (working (mk_pool (accounted q temp) (l1 ++ in_kill_task_initializer task 0 :: l2)
                       true (h ++ [])) = false) as Hph'.
    { rewrite working_middle, Hh1, Hh2, Hq', Hq0. done. }
    split; [|right; eauto]. constructor; simpl; try done.
    + congruence.
    + rewrite sumZ_middle. simpl. lia.
    + by rewrite Hph'.
    + intros _. rewrite Hq', Hq0. split; [constructor|]. split.
      * apply Forall_middle. split; [done|]. split; [|done]. simpl. split; [done|lia].
      * rewrite !sumZ_middle, Hb1, Hb2. simpl.
        pose proof (has_kill_nonneg l1). pose proof (has_kill_nonneg l2).
        pose proof (alive_le_length l1). pose proof (alive_le_length l2).
        rewrite length_app in Hlen. simpl in Hlen. lia.
  - (* a task of work is through, and there is more *)
    destruct Hw as (Hk & Htemp & _).
    destruct (accounted_fields q temp) as (Ha' & Hq' & Hr' & Hs' & _).
    simpl in Hrun.
    assert (st = true) as ->.
    { destruct st; [done|]. destruct (Hidle' eq_refl) as [[]|(_ & [?|?] & _)]; done. }
    assert (working (mk_pool (accounted q temp) (l1 ++ at_lock (Some task) :: l2)
                       true (h ++ [])) = true) as Hph'.
    { rewrite working_middle, Hq'. simpl.
      unfold kill_task_initializer_test in Htest.
      assert ((temp >? -1) = true) as Hgt by (apply Z.gtb_lt; lia).
      rewrite Hgt, andb_true_r in Htest. apply andb_false_iff in Htest as [Hne|Hnz].
      - unfold q_is_empty in Hne. rewrite Hq' in Hne.
        destruct (task_q q) as [|t0 l0]; [done|]. apply Forall_cons in Hq as [Hk0 _].
        simpl. by rewrite Hk0.
      - apply Z.eqb_neq in Hnz.
        destruct (decide (sumZ running l1 = 0)) as [Hz1|Hz1].
        + rewrite (at_work_busy l2 Hl2) by lia. by rewrite !orb_true_r.
        + rewrite (at_work_busy l1 Hl1) by done. by rewrite !orb_true_r. }
    split; [|by left]. constructor; simpl; try done.
    + congruence.
    + rewrite sumZ_middle. simpl. lia.
    + intros _. split; [congruence|]. split; [by rewrite Hq'|].
      apply Forall_middle. done.
    + by rewrite Hph'.
  - done.
  - done.
Qed.

Lemma all_kill_tasks l :
  existsb (λ t, negb (is_kill t)) l = false ↔ Forall (λ t, is_kill t = true) l.
Proof.
  rewrite existsb_false. apply Forall_iff. intros t. by destruct (is_kill t).
Qed.

(** While the pool winds down, every move of a thread leaves it so. *)
Lemma thread_move_winding_down N q l1 w l2 st h q' evs w' :
  pool_inv N (mk_pool q (l1 ++ w :: l2) st h) →
  working (mk_pool q (l1 ++ w :: l2) st h) = false →
  thread_step q w q' evs w' →
  pool_inv N (mk_pool q' (l1 ++ w' :: l2) st (h ++ evs)) ∧
  working (mk_pool q' (l1 ++ w' :: l2) st (h ++ evs)) = false.
Proof.
  intros [Ham Hlen Hrun _ _ Hwind] Hphase Hmove. simpl in *.
  destruct (Hwind Hphase) as (Hq & Hth & Hcount).
  apply Forall_middle in Hth as (Hl1 & Hw & Hl2).
  rewrite !sumZ_middle in Hcount.
  rewrite sumZ_middle in Hrun. rewrite (length_middle l1 l2 w w') in Hlen.
  rewrite working_middle in Hphase.
  apply orb_false_iff in Hphase as [Hphase Hhw].
  apply orb_false_iff in Hphase as [Hst Hnk].
  apply orb_false_iff in Hhw as [Hhw Hh2]. apply orb_false_iff in Hhw as [Hh1 Hhw].
  apply negb_false_iff in Hst. subst st.
  assert (existsb (λ t, negb (is_kill t)) (task_q q') = false →
          holds_work w' = false →
          thread_amount q' = N →
          t_running q' = sumZ running l1 + running w' + sumZ running l2 →
          (shutdown q = true → shutdown q' = true) →
          thread_winding_down N q' w' →
          alive w' - alive w
          ≤ Z.of_nat (length (task_q q')) - Z.of_nat (length (task_q q))
            + (has_kill w' - has_kill w) + (kill_budget N w' - kill_budget N w) →
          pool_inv N (mk_pool q' (l1 ++ w' :: l2) true (h ++ evs)) ∧
          working (mk_pool q' (l1 ++ w' :: l2) true (h ++ evs)) = false) as Hgo.
  { intros Hnk' Hhw' Ham' Hrun' Hmono Hw' Hcount'.
    assert (working (mk_pool q' (l1 ++ w' :: l2) true (h ++ evs)) = false) as Hph'.
    { by rewrite working_middle, Hnk', Hh1, Hhw', Hh2. }
    split; [|done]. constructor; simpl; try done.
    - by rewrite sumZ_middle.
    - by rewrite Hph'.
    - intros _. split; [by apply all_kill_tasks|]. split.
      + apply Forall_middle. split; [by eapply winding_down_mono|].
        split; [done|]. by eapply winding_down_mono.
      + rewrite !sumZ_middle. lia. }
  destruct Hmove as [fin Hs|fin Hs Hq0|fin l t temp todo t' Hs Hq0 Hcall
                    |l t temp todo t' Hq0 Hcall
                    |task e todo temp|task temp Htest|task temp Htest
                    |task i Hi|task i Hi].
  - (* the thread returns *)
    apply Hgo; simpl; try done.
    destruct fin as [t|]; simpl; [|lia]. destruct (is_kill t); lia.
  - (* the thread waits *)
    apply Hgo; simpl; try done.
    destruct fin as [t|]; simpl in *; [|lia].
    destruct (is_kill t); [|lia]. rewrite Hw in Hs; done.
  - (* the thread takes a kill task *)
    rewrite Hq0 in Hq, Hnk. apply Forall_app in Hq as [Hql Hqt].
    apply Forall_cons in Hqt as [Hkt _].
    rewrite existsb_app in Hnk. apply orb_false_iff in Hnk as [Hnk _].
    destruct (call_task_pointer_kill t Hkt) as (Hcall' & Hk' & _).
    rewrite Hcall in Hcall'. injection Hcall' as -> -> ->.
    apply Hgo; simpl; try done.
    + by rewrite Hk'.
    + destruct fin; simpl in *; lia.
    + split; [done|]. split; [done|]. by left.
    + rewrite Hk', Hq0, length_app. simpl.
      destruct fin as [t0|]; simpl in *; [|lia].
      destruct (is_kill t0); [|lia]. rewrite Hw in Hs; done.
  - rewrite Hq0 in Hq, Hnk. apply Forall_app in Hq as [Hql Hqt].
    apply Forall_cons in Hqt as [Hkt _].
    rewrite existsb_app in Hnk. apply orb_false_iff in Hnk as [Hnk _].
    destruct (call_task_pointer_kill t Hkt) as (Hcall' & Hk' & _).
    rewrite Hcall in Hcall'. injection Hcall' as -> -> ->.
    apply Hgo; simpl; try done.
    + by rewrite Hk'.
    + simpl in Hrun. lia.
    + split; [done|]. split; [done|]. by left.
    + rewrite Hk', Hq0, length_app. simpl. lia.
  - (* the kill task sets the shutdown flag *)
    destruct Hw as (Hk & -> & [Htodo|[Htodo _]]); [|done].
    injection Htodo as -> ->.
    apply Hgo; simpl; try done.
    + split; [done|]. split; [done|]. by right.
    + lia.
  - (* a kill task never leads into kill_task_initializer *)
    destruct Hw as (_ & -> & _). unfold kill_task_initializer_test in Htest.
    by rewrite andb_false_r in Htest.
  - (* the kill task is through *)
    destruct Hw as (Hk & -> & [Htodo|[_ Hs]]); [done|].
    destruct (accounted_fields q (-1)) as (Ha' & Hq' & Hr' & Hs' & _).
    apply Hgo; simpl; try done; try congruence.
    + simpl in Hrun. lia.
    + rewrite Hq'. lia.
  - (* one more kill task *)
    destruct Hw as [Hk Hi'].
    apply Hgo; simpl; try done.
    + rewrite existsb_app, Hnk. simpl. unfold is_kill. simpl. done.
    + split; [done|]. lia.
    + rewrite length_app. simpl. lia.
  - (* all kill tasks added *)
    destruct Hw as [Hk Hi'].
    apply Hgo; simpl; try done.
    + congruence.
    + rewrite Hk. lia.
Qed.

Lemma step_pool_inv start_path N s s' :
  pool_inv N s → step start_path s s' → pool_inv N s'.
Proof.
  intros Hinv Hstep. apply step_inv in Hstep
    as [[Hstart ->]|(l1 & w & l2 & q' & evs & w' & Hws & Hmove & ->)].
  - destruct Hinv as [Ham Hlen Hrun Hidle Hwork Hwind].
    destruct (Hidle Hstart) as [Hq Hall].
    destruct (idle_at_work _ Hall) as [Hall' _].
    assert (working s = true) as Hph by (unfold working; by rewrite Hstart).
    destruct (Hwork Hph) as (Hsh & _ & _).
    assert (working (mk_pool (add_task (queue s) (start_task start_path)) (threads s) true
                       (happened s ++ [ev_add_task (start_task start_path)])) = true) as Hph'.
    { unfold working. simpl. rewrite Hq. simpl. done. }
    constructor; simpl; try done.
    + intros _. split; [done|]. split; [|done]. rewrite Hq. by repeat constructor.
    + by rewrite Hph'.
  - destruct s as [q ws st h]. simpl in *. subst ws.
    destruct (working (mk_pool q (l1 ++ w :: l2) st h)) eqn:Hph.
    + by eapply thread_move_at_work.
    + by eapply thread_move_winding_down.
Qed.

Lemma pool_start_inv (q : Queue) :
  0 ≤ thread_amount q → task_q q = [] → t_running q = 0 → shutdown q = false →
  pool_inv (thread_amount q) (pool_start q).
Proof.
  intros HN Hq Hr Hs. unfold pool_start.
  assert (∀ n, Forall (λ w, w = at_lock None ∨ w = at_wait) (replicate n (at_lock None)))
    as Hall.
  { intros n. apply Forall_replicate. by left. }
  constructor; simpl; try done.
  - rewrite length_replicate. lia.
  - rewrite Hr, sumZ_replicate. simpl. lia.
  - intros _. split; [done|]. split; [by rewrite Hq|].
    by destruct (idle_at_work _ (Hall (Z.to_nat (thread_amount q)))).
Qed.

Lemma steps_pool_inv start_path N s s' :
  pool_inv N s → steps start_path s s' → pool_inv N s'.
Proof.
  intros Hinv Hsteps. induction Hsteps as [|s1 s2 s3 Hstep _ IH]; [done|].
  apply IH. by eapply step_pool_inv.
Qed.

(** ** When all threads have returned *)

Lemma kill_tasks_stand_for_nothing l :
  Forall (λ t, is_kill t = true) l →
  sumZ task_size l = 0 ∧ forallb task_readable l = true.
Proof.
  induction 1 as [|t l Ht _ [IH1 IH2]]; simpl; [done|].
  unfold is_kill in Ht. apply bool_decide_eq_true in Ht.
  assert (task_size t = 0 ∧ task_readable t = true) as [-> ->].
  { unfold task_size, task_readable. by rewrite Ht. }
  split; [lia|done].
Qed.

Lemma returned_threads l :
  Forall (λ w, w = returned) l →
  sumZ thread_size l = 0 ∧ forallb thread_readable l = true.
Proof. induction 1 as [|w l -> _ [IH1 IH2]]; simpl; [done|]. split; [lia|done]. Qed.

(** No step creates a thread or takes one away. *)
Lemma step_threads_length start_path s s' :
  step start_path s s' → length (threads s') = length (threads s).
Proof.
  intros Hstep. apply step_inv in Hstep
    as [[Hstart ->]|(l1 & w & l2 & q' & evs & w' & Hws & Hmove & ->)]; [done|].
  simpl. rewrite Hws. apply length_middle.
Qed.

Lemma steps_threads_length start_path s s' :
  steps start_path s s' → length (threads s') = length (threads s).
Proof.
  induction 1 as [|s1 s2 s3 Hstep _ IH]; [done|].
  rewrite IH. by eapply step_threads_length.
Qed.

Lemma pool_created_threads start_path (q : Queue) created s :
  (1 ≤ created)%nat → steps start_path (pool_created q created) s → threads s ≠ [].
Proof.
  intros Hc Hsteps Hnil. apply steps_threads_length in Hsteps.
  rewrite Hnil in Hsteps. simpl in Hsteps. rewrite length_replicate in Hsteps. lia.
Qed.

Lemma pool_start_threads start_path (q : Queue) s :
  1 ≤ thread_amount q → steps start_path (pool_start q) s → threads s ≠ [].
Proof.
  intros HN. apply (pool_created_threads start_path q (Z.to_nat (thread_amount q))). lia.
Qed.

Lemma joined_winding_down N s :
  pool_inv N s → threads s ≠ [] → joined s → working s = false.
Proof.
  intros Hinv HN [Hst Hall]. destruct (working s) eqn:Hph; [|done].
  destruct (inv_working N s Hinv Hph) as (_ & _ & Hth).
  destruct (threads s) as [|w l]; [done|].
  apply Forall_cons in Hall as [-> _]. apply Forall_cons in Hth as [[] _].
Qed.

Lemma joined_result start_path N s :
  pool_inv N s → threads s ≠ [] → joined s →
  pool_size start_path s = block_size (queue s) ∧
  pool_readable start_path s = permission (queue s).
Proof.
  intros Hinv HN Hj. pose proof (joined_winding_down N s Hinv HN Hj) as Hph.
  destruct (inv_winding_down N s Hinv Hph) as (Hq & _ & _).
  destruct Hj as [Hst Hall].
  destruct (kill_tasks_stand_for_nothing _ Hq) as [Hq1 Hq2].
  destruct (returned_threads _ Hall) as [Ht1 Ht2].
  unfold pool_size, pool_readable. rewrite Hst, Hq1, Hq2, Ht1, Ht2.
  split; [lia|]. by rewrite !andb_true_r.
Qed.

(** ** No thread waits for ever *)

Lemma run_thread_step_None q w :
  run_thread_step q w = None → w = returned ∨ (w = at_wait ∧ task_q q = []).
Proof.
  destruct w as [fin| |task [|e todo] temp|task i|]; simpl; try done.
  - destruct (shutdown q); [done|].
    destruct (task_q_cases q) as [Hq|(l & t & Hq)].
    { unfold q_is_empty. by rewrite Hq. }
    by rewrite (q_is_empty_snoc q l t Hq), (take_task_snoc q l t Hq).
  - destruct (task_q_cases q) as [Hq|(l & t & Hq)]; [by right|].
    by rewrite (q_is_empty_snoc q l t Hq), (take_task_snoc q l t Hq).
  - unfold run_task_locked. by destruct (kill_task_initializer_test _ _ _).
  - by destruct (i <? thread_amount q).
  - by left.
Qed.

Lemma stuck_threads l :
  Forall (λ w, w = returned ∨ w = at_wait) l →
  existsb holds_work l = false ∧ sumZ has_kill l = 0 ∧
  (∀ N, sumZ (kill_budget N) l = 0) ∧ 0 ≤ sumZ alive l ∧
  (sumZ alive l = 0 → Forall (λ w, w = returned) l).
Proof.
  induction 1 as [|w l [->| ->] _ (IH1 & IH2 & IH3 & IH4 & IH5)]; simpl.
  - repeat split; try done.
  - split; [done|]. split; [lia|]. split; [intros N; rewrite IH3; lia|].
    split; [lia|]. intros H. constructor; [done|]. apply IH5. lia.
  - split; [done|]. split; [lia|]. split; [intros N; rewrite IH3; lia|].
    split; [lia|]. intros H. lia.
Qed.

Lemma stuck_queue_empty (q : Queue) l :
  Forall (λ w, run_thread_step q w = None) l → sumZ alive l ≠ 0 → task_q q = [].
Proof.
  induction 1 as [|w l Hw _ IH]; simpl; [done|]. intros Hnz.
  apply run_thread_step_None in Hw as [->|[_ ?]]; [|done]. apply IH. simpl in Hnz. lia.
Qed.

(** In every state of the pool a move is possible, unless all threads have
    returned: the pool never gets stuck. *)
Lemma pool_progress start_path N s :
  pool_inv N s → joined s ∨ ∃ s', step start_path s s'.
Proof.
  intros Hinv. destruct (start_added s) eqn:Hst.
  2:{ right. eexists. by apply step_add_start_task. }
  destruct (Forall_Exists_dec (λ w, run_thread_step (queue s) w = None)
              (λ w, is_Some (run_thread_step (queue s) w))
              (λ w, match run_thread_step (queue s) w as o
                          return {o = None} + {is_Some o} with
                    | Some r => right (ex_intro _ r eq_refl)
                    | None => left eq_refl
                    end) (threads s)) as [Hstuck|Hmove].
  - assert (Forall (λ w, w = returned ∨ w = at_wait) (threads s)) as Hall.
    { eapply Forall_impl; [exact Hstuck|]. intros w Hw.
      apply run_thread_step_None in Hw as [?|[? _]]; auto. }
    destruct (stuck_threads _ Hall) as (Hhw & Hk & Hb & Ha & Hret).
    destruct (decide (sumZ alive (threads s) = 0)) as [Hz|Hnz].
    { left. split; [done|]. by apply Hret. }
    exfalso.
    pose proof (stuck_queue_empty _ _ Hstuck Hnz) as Hq.
    assert (working s = false) as Hph.
    { unfold working. by rewrite Hst, Hq, Hhw. }
    destruct (inv_winding_down N s Hinv Hph) as (_ & _ & Hcount).
    rewrite Hq, Hk, Hb in Hcount. simpl in Hcount. lia.
  - right. apply Exists_exists in Hmove as (w & Hin & [[[q' evs] w'] Hw]).
    apply list_elem_of_lookup in Hin as [i Hi].
    eexists. by eapply step_thread.
Qed.

(** ** Every run of the pool ends *)

Lemma event_weight_pos e : 1 ≤ event_weight e.
Proof. destruct e; simpl; try lia. pose proof (task_weight_min t). lia. Qed.

Lemma call_task_pointer_weight t :
  sumZ event_weight (call_task_pointer t).1.2 + 3 ≤ task_weight t.
Proof.
  destruct (is_kill t) eqn:Hk.
  - destruct (call_task_pointer_kill t Hk) as (-> & _ & ->). simpl. lia.
  - by destruct (call_task_pointer_work t Hk) as (_ & _ & _ & ?).
Qed.

Lemma perform_weight e (q : Queue) :
  sumZ task_weight (task_q (perform e q)) + 1 = sumZ task_weight (task_q q) + event_weight e.
Proof. destruct e; simpl; try lia. rewrite sumZ_app. simpl. lia. Qed.

Lemma thread_step_weight N q w q' evs w' :
  thread_step q w q' evs w' →
  (∀ t i, w = in_kill_task_initializer t i → i ≤ N) →
  (∃ task temp, w = in_task task [] temp ∧ w' = in_kill_task_initializer task 0 ∧
                (temp >? -1) = true ∧
                sumZ task_weight (task_q q') = sumZ task_weight (task_q q)) ∨
  sumZ task_weight (task_q q') + thread_weight N w' + 1
  ≤ sumZ task_weight (task_q q) + thread_weight N w.
Proof.
  intros [fin Hs|fin Hs Hq0|fin l t temp todo t' Hs Hq0 Hcall
         |l t temp todo t' Hq0 Hcall
         |task e todo temp|task temp Htest|task temp Htest
         |task i Hi|task i Hi] Hkill; simpl.
  - right. lia.
  - right. lia.
  - right. pose proof (call_task_pointer_weight t) as Hw. rewrite Hcall in Hw.
    simpl in Hw. rewrite Hq0, sumZ_app. simpl. lia.
  - right. pose proof (call_task_pointer_weight t) as Hw. rewrite Hcall in Hw.
    simpl in Hw. rewrite Hq0, sumZ_app. simpl. lia.
  - right. pose proof (perform_weight e q). lia.
  - left. exists task, temp. destruct (accounted_fields q temp) as (_ & -> & _).
    unfold kill_task_initializer_test in Htest. apply andb_prop in Htest as [_ ?]. done.
  - right. destruct (accounted_fields q temp) as (_ & -> & _). lia.
  - right. rewrite sumZ_app. simpl. unfold task_weight at 2. simpl. lia.
  - right. specialize (Hkill task i eq_refl). lia.
Qed.

Lemma thread_weight_nonneg N q w :
  0 ≤ N → thread_at_work w ∨ thread_winding_down N q w → 0 ≤ thread_weight N w.
Proof.
  intros HN Hw. destruct w as [fin| |task todo temp|task i|]; simpl; try lia.
  - pose proof (sumZ_nonneg event_weight todo) as H.
    assert (0 ≤ sumZ event_weight todo); [|lia].
    apply H. intros e. pose proof (event_weight_pos e). lia.
  - destruct Hw as [[]|[_ ?]]. lia.
Qed.

Lemma pool_weight_nonneg start_path N s :
  pool_inv N s → 0 ≤ pool_weight start_path N s.
Proof.
  intros Hinv. pose proof (inv_threads N s Hinv) as Hlen.
  assert (0 ≤ N) as HN by lia.
  assert (0 ≤ sumZ (thread_weight N) (threads s)) as Hth.
  { assert (Forall (λ w, thread_at_work w ∨ thread_winding_down N (queue s) w) (threads s))
      as Hall.
    { destruct (working s) eqn:Hph.
      - destruct (inv_working N s Hinv Hph) as (_ & _ & H).
        eapply Forall_impl; [exact H|]. auto.
      - destruct (inv_winding_down N s Hinv Hph) as (_ & H & _).
        eapply Forall_impl; [exact H|]. auto. }
    clear Hlen. induction Hall as [|w l Hw _ IH]; simpl; [lia|].
    pose proof (thread_weight_nonneg N (queue s) w HN Hw). lia. }
  assert (0 ≤ sumZ task_weight (task_q (queue s))) as Hq.
  { apply sumZ_nonneg. intros t. pose proof (task_weight_min t). lia. }
  pose proof (task_weight_min (start_task start_path)).
  unfold pool_weight. destruct (working s), (start_added s); lia.
Qed.

(** Every move of the pool uses up some of the weight. *)
Lemma step_pool_weight start_path N s s' :
  pool_inv N s → step start_path s s' →
  pool_weight start_path N s' + 1 ≤ pool_weight start_path N s.
Proof.
  intros Hinv Hstep. pose proof (step_pool_inv start_path N s s' Hinv Hstep) as Hinv'.
  pose proof (inv_threads N s Hinv) as Hlen. assert (0 ≤ N) as HN by lia.
  apply step_inv in Hstep
    as [[Hstart ->]|(l1 & w & l2 & q' & evs & w' & Hws & Hmove & ->)].
  - unfold pool_weight, working. simpl. rewrite Hstart.
    destruct (inv_idle N s Hinv Hstart) as [Hq _]. rewrite Hq. simpl. lia.
  - destruct s as [q ws st h]. simpl in *. subst ws.
    assert (∀ t i, w = in_kill_task_initializer t i → i ≤ N) as Hkill.
    { intros t i ->. destruct (working (mk_pool q (l1 ++ in_kill_task_initializer t i :: l2) st h))
        eqn:Hph.
      - destruct (inv_working _ _ Hinv Hph) as (_ & _ & H). simpl in H.
        apply Forall_middle in H as (_ & [] & _).
      - destruct (inv_winding_down _ _ Hinv Hph) as (_ & H & _). simpl in H.
        apply Forall_middle in H as (_ & [_ ?] & _). lia. }
    pose proof (thread_step_weight N q w q' evs w' Hmove Hkill) as Hlocal.
    unfold pool_weight. simpl. rewrite !sumZ_middle.
    destruct (working (mk_pool q (l1 ++ w :: l2) st h)) eqn:Hph.
    + destruct (working (mk_pool q' (l1 ++ w' :: l2) st (h ++ evs))) eqn:Hph'.
      * destruct Hlocal as [(task & temp & -> & -> & _)|Hlocal]; [|lia].
        destruct (inv_working _ _ Hinv' Hph') as (_ & _ & H). simpl in H.
        apply Forall_middle in H as (_ & [] & _).
      * destruct Hlocal as [(task & temp & -> & -> & _ & Hsame)|Hlocal]; simpl; lia.
    + destruct (thread_move_winding_down N q l1 w l2 st h q' evs w' Hinv Hph Hmove)
        as [_ Hph'].
      rewrite Hph'.
      destruct Hlocal as [(task & temp & -> & -> & Htemp & _)|Hlocal]; [|lia].
      destruct (inv_winding_down _ _ Hinv Hph) as (_ & H & _). simpl in H.
      apply Forall_middle in H as (_ & (_ & -> & _) & _). done.
Qed.

(** From every state of the pool the threads get to the point where all of
    them have returned. *)
Lemma pool_terminates start_path N s :
  pool_inv N s → ∃ s', steps start_path s s' ∧ joined s'.
Proof.
  intros Hinv.
  remember (Z.to_nat (pool_weight start_path N s)) as n eqn:Hn.
  revert s Hinv Hn. induction n as [n IH] using lt_wf_ind. intros s Hinv Hn.
  destruct (pool_progress start_path N s Hinv) as [Hj|[s1 Hstep]].
  { exists s. split; [apply rtc_refl|done]. }
  pose proof (step_pool_inv _ _ _ _ Hinv Hstep) as Hinv1.
  pose proof (step_pool_weight _ _ _ _ Hinv Hstep) as Hlt.
  pose proof (pool_weight_nonneg start_path N s1 Hinv1) as Hnn.
  destruct (IH (Z.to_nat (pool_weight start_path N s1))) with (s := s1)
    as (s' & Hsteps & Hj); [lia|done|done|].
  exists s'. split; [|done]. by eapply rtc_l.
Qed.

(** No run of the pool is longer than the weight of the state it starts
    from. *)
Lemma pool_bounded start_path N s n s' :
  pool_inv N s → nsteps (step start_path) n s s' →
  Z.of_nat n ≤ pool_weight start_path N s.
Proof.
  intros Hinv Hsteps. induction Hsteps as [s|n s1 s2 s3 Hstep _ IH].
  - simpl. by apply pool_weight_nonneg.
  - pose proof (step_pool_inv _ _ _ _ Hinv Hstep) as Hinv2.
    pose proof (step_pool_weight _ _ _ _ Hinv Hstep). specialize (IH Hinv2). lia.
Qed.

(** ** The pool and the recursion *)

Lemma pool_start_size start_path (q : Queue) :
  task_q q = [] →
  pool_size start_path (pool_start q) = block_size q + size_under start_path ∧
  pool_readable start_path (pool_start q) = permission q && readable_under start_path.
Proof.
  intros Hq. unfold pool_size, pool_readable, pool_start. simpl. rewrite Hq. simpl.
  assert (sumZ thread_size (replicate (Z.to_nat (thread_amount q)) (at_lock None)) = 0 ∧
          forallb thread_readable (replicate (Z.to_nat (thread_amount q)) (at_lock None))
          = true) as [-> ->].
  { induction (Z.to_nat (thread_amount q)) as [|n [IH1 IH2]]; simpl; [done|].
    split; [lia|done]. }
  unfold task_size, task_readable. simpl. split; [lia|]. by rewrite !andb_true_r.
Qed.

(** What [run_mult_thread] leaves in the queue. *)
Lemma run_mult_thread_result (q : Queue) start_path q' evs :
  1 ≤ thread_amount q → task_q q = [] → t_running q = 0 → shutdown q = false →
  run_mult_thread q start_path q' evs →
  block_size q' = block_size q + size_under start_path ∧
  permission q' = permission q && readable_under start_path.
Proof.
  intros HN Hq Hr Hs (s & Hsteps & Hj & <- & _).
  assert (pool_inv (thread_amount q) s) as Hinv.
  { eapply steps_pool_inv; [|done]. apply pool_start_inv; [lia|done..]. }
  pose proof (pool_start_threads _ _ _ HN Hsteps) as Hth.
  destruct (joined_result start_path _ s Hinv Hth Hj) as [H1 H2].
  destruct (pool_start_size start_path q Hq) as [H3 H4].
  rewrite <- H1, <- H2.
  rewrite (steps_pool_size _ _ _ Hsteps), (steps_pool_readable _ _ _ Hsteps). done.
Qed.

(** ** Signals *)

Lemma blocked_cons w b ws :
  sumZ blocked ((w, b) :: ws) = (if b then 1 else 0) + sumZ blocked ws.
Proof. done. Qed.

Lemma blocked_bounds ws : 0 ≤ sumZ blocked ws ≤ Z.of_nat (length ws).
Proof.
  induction ws as [|[w b] ws IH]; [simpl; lia|]. rewrite blocked_cons, length_cons.
  destruct b; lia.
Qed.

Lemma released_bounds ws : 0 ≤ sumZ released ws ≤ Z.of_nat (length ws).
Proof.
  induction ws as [|[w b] ws IH]; simpl; [lia|]. destruct w, b; lia.
Qed.

Lemma blocked_all ws :
  Forall (λ wb, wb.2 = true) ws → sumZ blocked ws = Z.of_nat (length ws).
Proof.
  induction 1 as [|[w b] ws Hb _ IH]; simpl; [done|]. simpl in Hb. subst b.
  unfold blocked at 1. simpl. lia.
Qed.

Lemma blocked_none ws :
  sumZ blocked ws ≤ 0 → Forall (λ wb, wb.2 = false) ws.
Proof.
  induction ws as [|[w b] ws IH]; simpl; [done|]. unfold blocked at 1. simpl.
  pose proof (blocked_bounds ws). intros Hle. destruct b; [lia|].
  constructor; [done|]. apply IH. lia.
Qed.

Lemma signal_fst ws ws' : pthread_cond_signal ws ws' → ws'.*1 = ws.*1.
Proof.
  intros [H _]. induction H as [|wb wb' ws ws' [Hw _] _ IH]; [done|].
  rewrite !fmap_cons. by rewrite Hw, IH.
Qed.

Lemma signal_le ws ws' :
  pthread_cond_signal ws ws' → sumZ blocked ws' ≤ sumZ blocked ws.
Proof.
  intros [H _]. induction H as [|[w b] [w' b'] ws ws' [_ Hb] _ IH]; simpl; [done|].
  unfold blocked at 1 3. simpl in *. destruct b'; [rewrite Hb by done|destruct b]; lia.
Qed.

Lemma signal_length ws ws' : pthread_cond_signal ws ws' → length ws' = length ws.
Proof. intros [H _]. symmetry. by eapply Forall2_length. Qed.

Lemma signal_blocked_waits ws ws' :
  pthread_cond_signal ws ws' →
  Forall (λ wb, wb.2 = true → wb.1 = at_wait) ws →
  Forall (λ wb, wb.2 = true → wb.1 = at_wait) ws'.
Proof.
  intros [H _]. induction H as [|wb wb' ws ws' [Hw Hb] _ IH]; [done|].
  intros Hall. apply Forall_cons in Hall as [Hwb Hall].
  constructor; [|by apply IH]. intros Hb'. rewrite Hw. auto.
Qed.

(** A signal can release every thread. *)
Lemma signal_all ws : pthread_cond_signal ws ((λ wb, (wb.1, false)) <$> ws).
Proof.
  split.
  - induction ws as [|wb ws IH]; simpl; constructor; [done|exact IH].
  - assert (sumZ blocked ((λ wb, (wb.1, false)) <$> ws) = 0) as ->; [|done].
    induction ws as [|wb ws IH]; [done|]. rewrite fmap_cons. cbn [sumZ]. by rewrite IH.
Qed.

Lemma release_first_signal ws : pthread_cond_signal ws (release_first ws).
Proof.
  split.
  - induction ws as [|[w b] ws IH]; simpl; [constructor|].
    destruct b; constructor; try done. clear IH.
    induction ws as [|wb ws IH]; constructor; done.
  - induction ws as [|[w b] ws IH]; [simpl; lia|].
    destruct b; cbn [release_first]; rewrite !blocked_cons; lia.
Qed.

Lemma after_events_next evs ws : ∃ ws', after_events evs ws ws'.
Proof.
  unfold after_events. destruct (signals evs); [|by exists ws].
  eexists. apply signal_all.
Qed.

Lemma after_events_spec evs ws ws' :
  after_events evs ws ws' →
  ws'.*1 = ws.*1 ∧ length ws' = length ws ∧
  sumZ blocked ws' ≤ sumZ blocked ws ∧
  (signals evs = true → 0 < sumZ blocked ws → sumZ blocked ws' < sumZ blocked ws) ∧
  (Forall (λ wb, wb.2 = true → wb.1 = at_wait) ws →
   Forall (λ wb, wb.2 = true → wb.1 = at_wait) ws').
Proof.
  unfold after_events. destruct (signals evs).
  - intros H. split; [by apply signal_fst|]. split; [by apply signal_length|].
    split; [by apply signal_le|]. split; [intros _; apply H|].
    by apply signal_blocked_waits.
  - intros ->. repeat split; done.
Qed.

(** The steps with signals, thread by thread. *)
Lemma cv_step_inv start_path s s' :
  cv_step start_path s s' →
  (cv_start_added s = false ∧
   ∃ ws', pthread_cond_signal (cv_threads s) ws' ∧
     s' = mk_cv_pool (add_task (cv_queue s) (start_task start_path)) ws' true
            (cv_happened s ++ [ev_add_task (start_task start_path)])) ∨
  (∃ l1 w l2 q' evs w' ws',
     cv_threads s = l1 ++ (w, false) :: l2 ∧
     thread_step (cv_queue s) w q' evs w' ∧
     after_events evs (l1 ++ (w', waits w') :: l2) ws' ∧
     s' = mk_cv_pool q' ws' (cv_start_added s) (cv_happened s ++ evs)) ∨
  (∃ l1 l2,
     cv_threads s = l1 ++ (at_wait, false) :: l2 ∧ task_q (cv_queue s) = [] ∧
     s' = mk_cv_pool (cv_queue s) (l1 ++ (at_wait, true) :: l2) (cv_start_added s)
            (cv_happened s)).
Proof.
  intros [s0 ws' Hstart Hsig|s0 i w q' evs w' ws' Hw Hstep Hev|s0 i Hw Hq].
  - left. eauto.
  - right. left.
    exists (take i (cv_threads s0)), w, (drop (S i) (cv_threads s0)), q', evs, w', ws'.
    split; [by rewrite take_drop_middle|].
    split; [by apply run_thread_step_inv|].
    split; [|done].
    rewrite <- insert_take_drop; [done|]. by eapply lookup_lt_Some.
  - right. right.
    exists (take i (cv_threads s0)), (drop (S i) (cv_threads s0)).
    split; [by rewrite take_drop_middle|].
    split; [unfold q_is_empty in Hq; by destruct (task_q (cv_queue s0))|].
    f_equal. apply insert_take_drop. by eapply lookup_lt_Some.
Qed.

(** A step with signals is a step of the pool, or a thread that was
    released waits again. *)
Lemma cv_step_pool start_path s s' :
  cv_step start_path s s' →
  step start_path (pool_of s) (pool_of s') ∨
  (pool_of s' = pool_of s ∧
   sumZ released (cv_threads s') + 1 = sumZ released (cv_threads s)).
Proof.
  intros [s0 ws' Hstart Hsig|s0 i w q' evs w' ws' Hw Hstep Hev|s0 i Hw Hq].
  - left. unfold pool_of at 2. simpl. rewrite (signal_fst _ _ Hsig).
    by apply (step_add_start_task start_path (pool_of s0)).
  - left. unfold pool_of at 2. simpl.
    destruct (after_events_spec _ _ _ Hev) as (-> & _).
    rewrite list_fmap_insert. simpl.
    apply (step_thread start_path (pool_of s0) i w); [|done].
    simpl. by rewrite list_lookup_fmap, Hw.
  - right. unfold pool_of. simpl. split.
    + f_equal. rewrite list_fmap_insert. simpl. apply list_insert_id.
      by rewrite list_lookup_fmap, Hw.
    + rewrite <- (take_drop_middle _ _ _ Hw) at 2.
      rewrite insert_take_drop by (by eapply lookup_lt_Some).
      rewrite !sumZ_middle. simpl. lia.
Qed.

Lemma cv_steps_pool start_path s s' :
  cv_steps start_path s s' → steps start_path (pool_of s) (pool_of s').
Proof.
  induction 1 as [|s1 s2 s3 Hstep _ IH]; [apply rtc_refl|].
  destruct (cv_step_pool _ _ _ Hstep) as [Hbase|[Heq _]].
  - by eapply rtc_l.
  - by rewrite <- Heq.
Qed.

Lemma cv_step_pool_inv start_path N s s' :
  pool_inv N (pool_of s) → cv_step start_path s s' → pool_inv N (pool_of s').
Proof.
  intros Hinv Hstep. destruct (cv_step_pool _ _ _ Hstep) as [Hbase|[Heq _]].
  - by eapply step_pool_inv.
  - by rewrite Heq.
Qed.

Lemma kill_budget_nonneg N q l :
  Forall (thread_winding_down N q) l → 0 ≤ sumZ (kill_budget N) l.
Proof.
  induction 1 as [|w l Hw _ IH]; simpl; [lia|].
  destruct w; simpl in *; lia.
Qed.

(** A thread that is blocked is alive and has no kill task. *)
Lemma blocked_le_alive ws :
  Forall (λ wb, wb.2 = true → wb.1 = at_wait) ws →
  sumZ blocked ws ≤ sumZ alive ws.*1 - sumZ has_kill ws.*1.
Proof.
  induction 1 as [|[w b] ws Hwb _ IH]; [simpl; lia|]. simpl in Hwb.
  rewrite blocked_cons, !fmap_cons, !sumZ_cons. cbn [fst]. destruct b.
  - rewrite Hwb by done. simpl. lia.
  - assert (has_kill w ≤ alive w); [|lia].
    destruct w as [[t|]| |t ? ?| |]; simpl; try lia; destruct (is_kill t); lia.
Qed.

(** While the pool winds down, a thread that gets to wait on the empty
    queue leaves a kill task to come for every thread that is blocked. *)
Lemma room_to_wait N q l1 w l2 st h :
  pool_inv N (mk_pool q (l1.*1 ++ w :: l2.*1) st h) →
  working (mk_pool q (l1.*1 ++ w :: l2.*1) st h) = false →
  task_q q = [] → alive w = 1 → has_kill w = 0 → kill_budget N w = 0 →
  Forall (λ wb, wb.2 = true → wb.1 = at_wait) l1 →
  Forall (λ wb, wb.2 = true → wb.1 = at_wait) l2 →
  sumZ blocked l1 + 1 + sumZ blocked l2
  ≤ sumZ (kill_budget N) l1.*1 + sumZ (kill_budget N) l2.*1.
Proof.
  intros Hinv Hph Hq Ha Hk Hb Hl1 Hl2.
  destruct (inv_winding_down _ _ Hinv Hph) as (_ & _ & Hcount). simpl in Hcount.
  rewrite !sumZ_middle, Hq, Ha, Hk, Hb in Hcount. simpl in Hcount.
  pose proof (blocked_le_alive l1 Hl1). pose proof (blocked_le_alive l2 Hl2). lia.
Qed.

Lemma working_add_task q t ws st h :
  is_kill t = false → working (mk_pool (add_task q t) ws st h) = true.
Proof.
  intros Hk. unfold working. simpl. rewrite existsb_app. simpl. rewrite Hk. simpl.
  by rewrite !orb_true_r.
Qed.

Lemma blocked_pair w b : blocked (w, b) = if b then 1 else 0.
Proof. done. Qed.

Ltac cv_unfold :=
  unfold pool_of in *; cbn [cv_queue cv_threads cv_start_added cv_happened] in *;
  rewrite ?fmap_app, ?fmap_cons in *; cbn [fst snd] in *.

(** Every step with signals keeps what holds of the blocked threads. *)
Lemma cv_step_cv_inv start_path N s s' :
  cv_threads s ≠ [] → pool_inv N (pool_of s) → cv_inv N s → cv_step start_path s s' →
  cv_inv N s'.
Proof.
  intros HN Hinv Hcv Hstep.
  pose proof (cv_step_pool_inv _ _ _ _ Hinv Hstep) as Hinv'.
  pose proof (inv_threads _ _ Hinv) as Hlen. simpl in Hlen. rewrite length_fmap in Hlen.
  destruct Hcv as [Hflags Hseen Hkill].
  apply cv_step_inv in Hstep
    as [(Hstart & ws' & Hsig & ->)
       |[(l1 & w & l2 & q' & evs & w' & ws' & Hws & Hmove & Hev & ->)
        |(l1 & l2 & Hws & Hq & ->)]].
  - constructor; simpl.
    + by eapply signal_blocked_waits.
    + intros _. pose proof (signal_le _ _ Hsig). rewrite (signal_length _ _ Hsig).
      destruct Hsig as [_ Hlt]. pose proof (blocked_bounds (cv_threads s)).
      assert (1 ≤ Z.of_nat (length (cv_threads s))); [|lia].
      destruct (cv_threads s); [done|simpl; lia].
    + intros Hph. unfold pool_of in Hph. simpl in Hph.
      by rewrite working_add_task in Hph.
  - destruct s as [q ws st h]. simpl in *. subst ws.
    apply Forall_middle in Hflags as (Hl1 & _ & Hl2).
    destruct (after_events_spec _ _ _ Hev) as (Hfst & Hlen' & Hle & Hlt & Hfl).
    rewrite sumZ_middle in Hle, Hlt. rewrite length_app in Hlen. simpl in Hlen.
    rewrite length_app in Hlen'. simpl in Hlen'.
    pose proof (blocked_bounds l1). pose proof (blocked_bounds l2).
    constructor; cbn [cv_queue cv_threads].
    + apply Hfl. apply Forall_middle. split; [done|]. split; [|done].
      simpl. by destruct w'.
    + intros Hq'. rewrite Hlen'. destruct (waits w') eqn:Hw'.
      * destruct w'; try done. inversion Hmove; subst. congruence.
      * rewrite blocked_pair in Hle. lia.
    + cv_unfold. rewrite Hfst. cv_unfold. intros Hph'. rewrite Hfst in Hinv'. cv_unfold.
      rewrite sumZ_middle.
      destruct (working (mk_pool q (l1.*1 ++ w :: l2.*1) st h)) eqn:Hph.
      * destruct (thread_move_at_work N q l1.*1 w l2.*1 st h q' evs w' Hinv Hph Hmove)
          as [_ [Hph2|(task & temp & -> & ->)]]; [congruence|].
        destruct (inv_winding_down _ _ Hinv' Hph') as (_ & Hth & _). simpl in Hth.
        apply Forall_middle in Hth as (Hth1 & _ & Hth2).
        pose proof (kill_budget_nonneg _ _ _ Hth1).
        pose proof (kill_budget_nonneg _ _ _ Hth2).
        rewrite blocked_pair in Hle. simpl in *. lia.
      * specialize (Hkill eq_refl). rewrite !sumZ_middle in Hkill.
        destruct (inv_winding_down _ _ Hinv Hph) as (_ & Hth & _). simpl in Hth.
        apply Forall_middle in Hth as (Hth1 & Hthw & Hth2).
        pose proof (kill_budget_nonneg _ _ _ Hth1).
        pose proof (kill_budget_nonneg _ _ _ Hth2).
        assert (thread_amount q ≤ N ≤ thread_amount q) as Ham.
        { pose proof (inv_amount _ _ Hinv) as Ham. simpl in Ham. lia. }
        clear Hlen'.
        rewrite blocked_pair in Hkill, Hle, Hlt.
        inversion Hmove; subst; simpl in *; try lia.
        -- assert (has_kill (at_lock finished) = 0) as Hk.
           { destruct finished as [t|]; simpl; [|done].
             destruct (is_kill t); [|done]. simpl in Hthw.
             rewrite Hthw in * by done. done. }
           pose proof (room_to_wait N q' l1 (at_lock finished) l2 st h Hinv Hph
                         ltac:(done) eq_refl Hk eq_refl Hl1 Hl2) as Hroom.
           lia.
  - destruct s as [q ws st h]. simpl in *. subst ws.
    apply Forall_middle in Hflags as (Hl1 & _ & Hl2).
    constructor; cbn [cv_queue cv_threads].
    + apply Forall_middle. done.
    + intros Hq'. done.
    + cv_unfold. intros Hph. rewrite !sumZ_middle. simpl.
      pose proof (room_to_wait N q l1 at_wait l2 st h Hinv Hph Hq eq_refl eq_refl eq_refl
                    Hl1 Hl2) as Hroom.
      rewrite blocked_pair. lia.
Qed.

Lemma cv_start_pool (q : Queue) : pool_of (cv_start q) = pool_start q.
Proof. unfold pool_of, cv_start, pool_start. simpl. by rewrite fmap_replicate. Qed.

Lemma cv_created_pool (q : Queue) created :
  pool_of (cv_created q created) = pool_created q created.
Proof. unfold pool_of, cv_created, pool_created. simpl. by rewrite fmap_replicate. Qed.

Lemma cv_created_inv (q : Queue) created :
  task_q q = [] → cv_inv (thread_amount q) (cv_created q created).
Proof.
  intros Hq. constructor; simpl.
  - apply Forall_replicate. done.
  - done.
  - rewrite cv_created_pool. unfold working. simpl. done.
Qed.

Lemma cv_start_inv (q : Queue) :
  task_q q = [] → cv_inv (thread_amount q) (cv_start q).
Proof. apply (cv_created_inv q (Z.to_nat (thread_amount q))). Qed.

Lemma cv_step_threads start_path s s' :
  cv_step start_path s s' → cv_threads s ≠ [] → cv_threads s' ≠ [].
Proof.
  intros Hstep Hne Hnil.
  assert (length (threads (pool_of s')) = length (threads (pool_of s))) as Hlen.
  { destruct (cv_step_pool _ _ _ Hstep) as [Hbase|[Heq _]].
    - by eapply step_threads_length.
    - by rewrite Heq. }
  unfold pool_of in Hlen. simpl in Hlen. rewrite !length_fmap, Hnil in Hlen.
  by destruct (cv_threads s).
Qed.

Lemma cv_steps_inv start_path N s s' :
  cv_threads s ≠ [] → pool_inv N (pool_of s) → cv_inv N s → cv_steps start_path s s' →
  pool_inv N (pool_of s') ∧ cv_inv N s' ∧ cv_threads s' ≠ [].
Proof.
  intros HN Hinv Hcv Hsteps. induction Hsteps as [|s1 s2 s3 Hstep _ IH]; [done|].
  apply IH.
  - by eapply cv_step_threads.
  - by eapply cv_step_pool_inv.
  - by eapply cv_step_cv_inv.
Qed.

Lemma Forall_both {A} (P Q R : A → Prop) l :
  Forall P l → Forall Q l → (∀ x, P x → Q x → R x) → Forall R l.
Proof.
  intros HP HQ HR. induction HP as [|x l Hx _ IH]; [done|].
  apply Forall_cons in HQ as [? ?]. constructor; auto.
Qed.

Lemma blocked_or_awake (wb : thread * bool) :
  {wb.2 = true ∨ wb.1 = returned} + {wb.2 = false ∧ wb.1 ≠ returned}.
Proof.
  destruct wb as [w [|]]; [left; by left|].
  destruct w; try (right; done). left. by right.
Qed.

(** With signals, too, a step is possible in every state of the pool unless
    all threads have returned: no thread is left blocked with no signal to
    come. *)
Lemma cv_progress start_path N s :
  pool_inv N (pool_of s) → cv_inv N s →
  joined (pool_of s) ∨ ∃ s', cv_step start_path s s'.
Proof.
  intros Hinv [Hflags Hseen Hkill]. destruct (cv_start_added s) eqn:Hst.
  2:{ right. eexists. apply cv_add_start_task; [done|]. apply signal_all. }
  destruct (Forall_Exists_dec (λ wb : thread * bool, wb.2 = true ∨ wb.1 = returned)
              (λ wb, wb.2 = false ∧ wb.1 ≠ returned) blocked_or_awake (cv_threads s))
    as [Hstuck|Hmove].
  - left. split; [done|]. simpl.
    assert (Forall (λ w, w = returned ∨ w = at_wait) (cv_threads s).*1) as Hall.
    { apply Forall_fmap. apply (Forall_both _ _ _ _ Hstuck Hflags).
      intros [w b] [Hb|Hw] Hf; simpl in *; auto. }
    destruct (stuck_threads _ Hall) as (Hhw & _ & Hb & _ & _).
    assert (Forall (λ wb : thread * bool, wb.2 = false) (cv_threads s)) as Hnone.
    { apply blocked_none. destruct (working (pool_of s)) eqn:Hph.
      - exfalso. destruct (inv_working _ _ Hinv Hph) as (_ & _ & Hth). simpl in Hth.
        assert (Forall (λ wb : thread * bool, wb.2 = true) (cv_threads s)) as Hblocked.
        { apply (proj1 (Forall_fmap _ _ _)) in Hth. apply (Forall_both _ _ _ _ Hstuck Hth).
          intros [w b] [Hb'|Hw] Hf; simpl in *; [done|]. by subst w. }
        apply blocked_all in Hblocked.
        pose proof (inv_threads _ _ Hinv) as Hlen. simpl in Hlen.
        rewrite length_fmap in Hlen.
        destruct (task_q (cv_queue s)) as [|t l] eqn:Hq.
        + unfold working in Hph. simpl in Hph. by rewrite Hst, Hq, Hhw in Hph.
        + assert (sumZ blocked (cv_threads s) < Z.of_nat (length (cv_threads s)))
            by (by apply Hseen).
          lia.
      - specialize (Hkill eq_refl). by rewrite Hb in Hkill. }
    apply Forall_fmap. apply (Forall_both _ _ _ _ Hstuck Hnone).
    intros [w b] [Hb'|Hw] Hf; simpl in *; [congruence|done].
  - right. apply Exists_exists in Hmove as ([w b] & Hin & Hb & Hw). simpl in *. subst b.
    apply list_elem_of_lookup in Hin as [i Hi].
    destruct (run_thread_step (cv_queue s) w) as [[[q' evs] w']|] eqn:Hstep.
    + destruct (after_events_next evs (<[i:=(w', waits w')]> (cv_threads s))) as [ws' Hev].
      eexists. by eapply cv_thread.
    + apply run_thread_step_None in Hstep as [?|[-> Hq]]; [done|].
      eexists. apply (cv_wait_again start_path s i); [done|].
      unfold q_is_empty. by rewrite Hq.
Qed.

(** ** Every run with signals ends *)

Lemma cv_weight_nonneg start_path N s :
  pool_inv N (pool_of s) → 0 ≤ cv_weight start_path N s.
Proof.
  intros Hinv. pose proof (pool_weight_nonneg start_path N _ Hinv).
  pose proof (inv_threads _ _ Hinv). pose proof (released_bounds (cv_threads s)).
  unfold cv_weight. nia.
Qed.

Lemma cv_step_weight start_path N s s' :
  pool_inv N (pool_of s) → cv_step start_path s s' →
  cv_weight start_path N s' + 1 ≤ cv_weight start_path N s.
Proof.
  intros Hinv Hstep. unfold cv_weight.
  pose proof (cv_step_pool_inv _ _ _ _ Hinv Hstep) as Hinv'.
  pose proof (inv_threads _ _ Hinv') as Hlen. simpl in Hlen. rewrite length_fmap in Hlen.
  pose proof (released_bounds (cv_threads s)).
  pose proof (released_bounds (cv_threads s')).
  destruct (cv_step_pool _ _ _ Hstep) as [Hbase|[Heq Hrel]].
  - pose proof (step_pool_weight _ _ _ _ Hinv Hbase). nia.
  - rewrite Heq. lia.
Qed.

(** From every state of the pool the threads get to the point where all of
    them have returned, with no other wake-up than the signals. *)
Lemma cv_terminates start_path N s :
  cv_threads s ≠ [] → pool_inv N (pool_of s) → cv_inv N s →
  ∃ s', cv_steps start_path s s' ∧ joined (pool_of s').
Proof.
  intros HN Hinv Hcv.
  remember (Z.to_nat (cv_weight start_path N s)) as n eqn:Hn.
  revert s HN Hinv Hcv Hn. induction n as [n IH] using lt_wf_ind. intros s HN Hinv Hcv Hn.
  destruct (cv_progress start_path N s Hinv Hcv) as [Hj|[s1 Hstep]].
  { exists s. split; [apply rtc_refl|done]. }
  pose proof (cv_step_pool_inv _ _ _ _ Hinv Hstep) as Hinv1.
  pose proof (cv_step_cv_inv _ _ _ _ HN Hinv Hcv Hstep) as Hcv1.
  pose proof (cv_step_threads _ _ _ Hstep HN) as HN1.
  pose proof (cv_step_weight _ _ _ _ Hinv Hstep) as Hlt.
  pose proof (cv_weight_nonneg start_path N s1 Hinv1) as Hnn.
  destruct (IH (Z.to_nat (cv_weight start_path N s1))) with (s := s1)
    as (s' & Hsteps & Hj); [lia|done|done|done|done|].
  exists s'. split; [|done]. by eapply rtc_l.
Qed.

Lemma cv_bounded start_path N s n s' :
  pool_inv N (pool_of s) → nsteps (cv_step start_path) n s s' →
  Z.of_nat n ≤ cv_weight start_path N s.
Proof.
  intros Hinv Hsteps. induction Hsteps as [s|n s1 s2 s3 Hstep _ IH].
  - simpl. by apply cv_weight_nonneg.
  - pose proof (cv_step_pool_inv _ _ _ _ Hinv Hstep) as Hinv2.
    pose proof (cv_step_weight _ _ _ _ Hinv Hstep). specialize (IH Hinv2). lia.
Qed.

Lemma cv_weight_start start_path N (q : Queue) :
  thread_amount q = N →
  cv_weight start_path N (cv_start q) = (N + 1) * pool_weight start_path N (pool_start q).
Proof.
  intros <-. unfold cv_weight. rewrite cv_start_pool. simpl.
  rewrite sumZ_replicate. simpl. lia.
Qed.

Lemma cv_run_schedule_steps start_path schedule s :
  cv_steps start_path s (cv_run_schedule start_path schedule s).
Proof.
  revert s. induction schedule as [|who schedule IH]; intros s; simpl; [apply rtc_refl|].
  eapply rtc_trans; [|apply IH].
  destruct who as [i|]; simpl.
  - destruct (cv_threads s !! i) as [[w []]|] eqn:Hw; try apply rtc_refl.
    destruct (run_thread_step (cv_queue s) w) as [[[q' evs] w']|] eqn:Hstep.
    + apply rtc_once. eapply cv_thread; [done..|].
      unfold after_events. destruct (signals evs); [|done]. apply release_first_signal.
    + destruct w; simpl; try apply rtc_refl.
      destruct (q_is_empty (cv_queue s)) eqn:Hq; [|apply rtc_refl].
      apply rtc_once. by apply cv_wait_again.
  - destruct (cv_start_added s) eqn:Hst; [apply rtc_refl|].
    apply rtc_once. apply cv_add_start_task; [done|]. apply release_first_signal.
Qed.

(** ** Two runs of the pool *)

(** [/tmp/g] with four threads that move in turn: the pool ends with 24
    blocks and a cleared permission flag, as the recursion does. *)
Example pool_run_in_turn :
  let q := mk_queue [] 4 0 0 true false in
  let turn := [Some 0%nat; Some 1%nat; None; Some 2%nat; Some 3%nat] in
  let s := run_schedule tmp_g (concat (replicate 30 turn)) (pool_start q) in
  (block_size (queue s), permission (queue s), threads s)
  = (24, false, [returned; returned; returned; returned]) ∧
  (get_block_size tmp_g true).1 = (24, false).
Proof. vm_compute. done. Qed.

(** The same run when every signal releases the first thread that is
    blocked. After 14 turns one thread is inside a task and the other three
    are blocked. *)
Example pool_run_with_signals :
  let q := mk_queue [] 4 0 0 true false in
  let turn := [Some 0%nat; Some 1%nat; None; Some 2%nat; Some 3%nat] in
  let s1 := cv_run_schedule tmp_g (concat (replicate 14 turn)) (cv_start q) in
  let s := cv_run_schedule tmp_g (concat (replicate 30 turn)) (cv_start q) in
  (cv_threads s1).*2 = [false; true; true; true] ∧
  (block_size (cv_queue s), permission (cv_queue s), cv_threads s)
  = (24, false, [(returned, false); (returned, false); (returned, false);
                 (returned, false)]).
Proof. vm_compute. done. Qed.

(** ** The driver *)

Lemma clear_queue_spec n (q : Queue) :
  (length (task_q q) ≤ n)%nat →
  clear_queue n q = with_task_q q [].
Proof.
  revert q. induction n as [|n IH]; intros q Hlen; simpl.
  - destruct q as [l ? ? ? ? ?]. simpl in *. destruct l; [done|simpl in Hlen; lia].
  - destruct (task_q_cases q) as [Hq|(l & t & Hq)].
    + unfold q_is_empty. rewrite Hq. destruct q; simpl in *. by subst.
    + rewrite (q_is_empty_snoc q l t Hq), (q_dequeue_snoc q l t Hq). simpl.
      rewrite IH; [done|]. simpl. rewrite Hq, length_app in Hlen. simpl in Hlen. lia.
Qed.

Lemma reset_queue_spec (q : Queue) :
  reset_queue q = mk_queue [] (thread_amount q) 0 0 (permission q) false.
Proof. unfold reset_queue. by rewrite clear_queue_spec. Qed.

Lemma reset_queue_clean (q : Queue) : clean (reset_queue q).
Proof. by rewrite reset_queue_spec. Qed.

(** C7: the driver runs one target and then the next one. The queue that
    the second run starts from is the queue that the first run left, with
    the block size and the number of running threads back at 0, the
    shutdown flag down and no task left in it; the permission flag and the
    thread amount are the ones the first run left. *)
Theorem reset_between_targets (q : Queue) path next targets q' out evs :
  start_options_and_run q (path :: next :: targets) q' out evs →
  ∃ q1 evs1 q2 evs2,
    run_target q path q1 evs1 ∧
    run_target (reset_queue q1) next q2 evs2 ∧
    block_size (reset_queue q1) = 0 ∧
    t_running (reset_queue q1) = 0 ∧
    shutdown (reset_queue q1) = false ∧
    task_q (reset_queue q1) = [] ∧
    permission (reset_queue q1) = permission q1 ∧
    thread_amount (reset_queue q1) = thread_amount q1.
Proof.
  intros Hrun. inversion Hrun as [|? ? ? q1 evs1 ? ? ? Hfirst Hrest]; subst.
  inversion Hrest as [|? ? ? q2 evs2' ? ? ? Hsecond _]; subst.
  exists q1, evs1, q2, evs2'. rewrite reset_queue_spec in *. done.
Qed.

(** A run of the driver with one thread on the two targets [/tmp/f] and
    [/tmp/g]. *)
Lemma two_targets_run :
  let q := new_queue 1 in
  let q1 := with_block_size (with_permission q (get_block_size tmp_f true).1.2)
              (get_block_size tmp_f true).1.1 in
  let q2 := with_block_size
              (with_permission (reset_queue q1)
                 (get_block_size tmp_g (permission (reset_queue q1))).1.2)
              (get_block_size tmp_g (permission (reset_queue q1))).1.1 in
  start_options_and_run q [tmp_f; tmp_g] (reset_queue q2)
    [(block_size q1, "/tmp/f"%string); (block_size q2, "/tmp/g"%string)]
    ((get_block_size tmp_f true).2
     ++ (get_block_size tmp_g (permission (reset_queue q1))).2 ++ []).
Proof.
  intros q q1 q2.
  apply (run_next_target q tmp_f [tmp_g] q1 _ (reset_queue q2)).
  - apply (run_target_recursive q tmp_f). simpl. lia.
  - apply (run_next_target (reset_queue q1) tmp_g [] q2 _ (reset_queue q2)).
    + apply (run_target_recursive (reset_queue q1) tmp_g).
      rewrite reset_queue_spec. simpl. lia.
    + apply run_no_target.
Qed.

Lemma reset_between_targets_witness :
  let q := new_queue 1 in
  ∃ q1 evs1 q2 evs2,
    run_target q tmp_f q1 evs1 ∧
    run_target (reset_queue q1) tmp_g q2 evs2 ∧
    block_size (reset_queue q1) = 0 ∧
    t_running (reset_queue q1) = 0 ∧
    shutdown (reset_queue q1) = false ∧
    task_q (reset_queue q1) = [] ∧
    permission (reset_queue q1) = permission q1 ∧
    thread_amount (reset_queue q1) = thread_amount q1.
Proof.
  intros q.
  exact (reset_between_targets q tmp_f tmp_g [] _ _ _ two_targets_run).
Defined.

(** ** The permission flag and the directories that cannot be opened *)

Lemma failed_open_app evs1 evs2 :
  failed_open (evs1 ++ evs2) = failed_open evs1 || failed_open evs2.
Proof. apply existsb_app. Qed.

(** In the recursion the flag is cleared exactly if an [opendir] fails. *)
Lemma get_size_of_dir_loop_opens task p buf (dir : DIR) :
  Forall (λ e, ∀ c, (get_block_size_at c e.2 true).1.2
                    = negb (failed_open (get_block_size_at c e.2 true).2)) dir →
  ∀ f bs,
    (get_size_of_dir_loop get_block_size_at task f p buf dir false bs).1.2
    = f && negb (failed_open
                   (get_size_of_dir_loop get_block_size_at task f p buf dir false bs).2).
Proof.
  induction 1 as [|[n c] dir Hc _ IH]; intros f bs; simpl.
  { by rewrite andb_true_r. }
  unfold lstat. simpl. destruct (lstat_of c) as [cbuf|]; simpl.
  2:{ by rewrite andb_true_r. }
  destruct (n =? ".")%string; simpl; [apply IH|].
  destruct (negb (n =? ".."))%string; simpl; [|apply IH].
  destruct (S_ISREG (st_mode cbuf)); simpl; [apply IH|].
  rewrite (get_block_size_at_flag (new_absolute_path n p) c f).
  simpl in Hc. rewrite (Hc (new_absolute_path n p)).
  set (evs := (get_block_size_at (new_absolute_path n p) c true).2).
  simpl. rewrite IH.
  rewrite <- app_assoc, !failed_open_app. simpl.
  by destruct f, (failed_open evs), (failed_open _).
Qed.

Lemma get_block_size_at_opens c t :
  (get_block_size_at c t true).1.2 = negb (failed_open (get_block_size_at c t true).2).
Proof.
  revert c. induction t as [ls od IH] using fs_node_induction. intros c.
  destruct ls as [buf|]; simpl; [|done].
  destruct (S_ISDIR (st_mode buf)); [|done].
  destruct od as [dir|]; [|done].
  pose proof (get_size_of_dir_loop_opens None c buf dir IH true 0) as H.
  destruct (get_size_of_dir_loop get_block_size_at None true c buf dir false 0)
    as [[size ok] evs]. simpl in *. done.
Qed.

Lemma get_block_size_opens p f :
  (get_block_size p f).1.2 = f && negb (failed_open (get_block_size p f).2).
Proof.
  rewrite get_block_size_flag. simpl. unfold readable_under, get_block_size.
  by rewrite get_block_size_at_opens.
Qed.

(** In the pool the same holds of everything that happened, once all
    threads have returned. *)
Lemma get_size_of_dir_loop_opens_pool rec task flag p buf (dir : DIR) bs :
  forallb event_opens (get_size_of_dir_loop rec (Some task) flag p buf dir true bs).2
  = forallb event_readable (get_size_of_dir_loop rec (Some task) flag p buf dir true bs).2.
Proof.
  revert bs. induction dir as [|[n c] dir IH]; intros bs; simpl; [done|].
  unfold lstat. simpl. destruct (lstat_of c) as [cbuf|]; simpl; [|done].
  destruct (n =? ".")%string; simpl; [apply IH|].
  destruct (negb (n =? ".."))%string; simpl; [|apply IH].
  destruct (S_ISREG (st_mode cbuf)); simpl; [apply IH|]. by rewrite IH.
Qed.

Lemma call_task_pointer_opens t :
  forallb event_opens (call_task_pointer t).1.2 = task_readable t.
Proof.
  pose proof (call_task_pointer_pending t) as Hp.
  destruct (call_task_pointer t) as [[temp todo] t'] eqn:Hcall.
  destruct Hp as (_ & <- & _). simpl.
  unfold call_task_pointer in Hcall. destruct (task_pointer t).
  - unfold get_block_size_mult in Hcall.
    destruct (path t) as [[p [ls od]]|]; simpl in Hcall; [|by injection Hcall as <- <- <-].
    unfold lstat, opendir in Hcall. simpl in Hcall.
    destruct ls as [buf|]; [|by injection Hcall as <- <- <-].
    destruct (S_ISDIR (st_mode buf)); [|by injection Hcall as <- <- <-].
    destruct od as [dir|]; [|by injection Hcall as <- <- <-].
    unfold get_size_of_dir in Hcall.
    pose proof (get_size_of_dir_loop_opens_pool get_block_size_at t true p buf dir 0) as H.
    destruct (get_size_of_dir_loop get_block_size_at (Some t) true p buf dir true 0)
      as [[sm fm] em]. injection Hcall as <- <- <-. simpl in *. done.
  - by injection Hcall as <- <- <-.
  - by injection Hcall as <- <- <-.
Qed.

Lemma kill_task_events_open fin : failed_open (kill_task_events fin) = false.
Proof. by destruct fin as [[? [?|]]|]. Qed.

Lemma event_opens_perform h e (q : Queue) :
  negb (failed_open (h ++ [e])) && forallb task_readable (task_q (perform e q))
  = negb (failed_open h) && forallb task_readable (task_q q) && event_opens e.
Proof.
  rewrite failed_open_app.
  destruct e as [| ? [|] | | | | | |]; simpl;
    rewrite ?orb_false_r, ?orb_true_r, ?andb_true_r, ?andb_false_r; try done.
  rewrite forallb_app. simpl. by rewrite andb_true_r, andb_assoc.
Qed.

Lemma thread_step_opens h q w q' evs w' :
  thread_step q w q' evs w' →
  negb (failed_open (h ++ evs)) && forallb task_readable (task_q q') && thread_opens w'
  = negb (failed_open h) && forallb task_readable (task_q q) && thread_opens w.
Proof.
  intros [fin Hs|fin Hs Hq0|fin l t temp todo t' Hs Hq0 Hcall
         |l t temp todo t' Hq0 Hcall
         |task e todo temp|task temp Htest|task temp Htest
         |task i Hi|task i Hi]; simpl;
    rewrite ?failed_open_app, ?kill_task_events_open, ?orb_false_r; try done.
  - pose proof (call_task_pointer_opens t) as Ho. rewrite Hcall in Ho. simpl in Ho.
    rewrite Hq0, forallb_app, Ho. simpl. by rewrite !andb_true_r, andb_assoc.
  - pose proof (call_task_pointer_opens t) as Ho. rewrite Hcall in Ho. simpl in Ho.
    rewrite Hq0, forallb_app, Ho. simpl. by rewrite !andb_true_r, andb_assoc.
  - rewrite <- failed_open_app, (event_opens_perform h e q). by rewrite andb_assoc.
  - by destruct (accounted_fields q temp) as (_ & -> & _).
  - by destruct (accounted_fields q temp) as (_ & -> & _).
  - rewrite forallb_app. simpl. by rewrite !andb_true_r.
Qed.

Lemma step_pool_opens start_path s s' :
  step start_path s s' → pool_opens start_path s' = pool_opens start_path s.
Proof.
  intros Hstep. apply step_inv in Hstep
    as [[Hstart ->]|(l1 & w & l2 & q' & evs & w' & Hws & Hmove & ->)].
  - unfold pool_opens. simpl. rewrite Hstart, forallb_app, failed_open_app. simpl.
    rewrite !andb_true_r, orb_false_r.
    destruct (negb (failed_open (happened s))),
      (forallb task_readable (task_q (queue s))),
      (forallb thread_opens (threads s)), (task_readable (start_task start_path)); done.
  - unfold pool_opens. simpl. rewrite Hws, !forallb_middle.
    pose proof (thread_step_opens (happened s) _ _ _ _ _ Hmove) as H.
    by apply andb_frame.
Qed.

Lemma steps_pool_opens start_path s s' :
  steps start_path s s' → pool_opens start_path s' = pool_opens start_path s.
Proof.
  induction 1 as [|s1 s2 s3 Hstep _ IH]; [done|].
  rewrite IH. by apply step_pool_opens.
Qed.

Lemma run_mult_thread_opens (q : Queue) start_path q' evs :
  1 ≤ thread_amount q → clean q →
  run_mult_thread q start_path q' evs →
  permission q' = permission q && negb (failed_open evs).
Proof.
  intros HN (Hq & Hb & Hr & Hs) Hrun.
  destruct (run_mult_thread_result q start_path q' evs HN Hq Hr Hs Hrun) as [_ ->].
  f_equal. destruct Hrun as (s & Hsteps & Hj & _ & <-).
  assert (pool_inv (thread_amount q) s) as Hinv.
  { eapply steps_pool_inv; [|done]. apply pool_start_inv; [lia|done..]. }
  pose proof (steps_pool_opens _ _ _ Hsteps) as Hopens.
  pose proof (joined_winding_down _ s Hinv (pool_start_threads _ _ _ HN Hsteps) Hj) as Hph.
  destruct (inv_winding_down _ s Hinv Hph) as (Hkill & _ & _).
  destruct (kill_tasks_stand_for_nothing _ Hkill) as [_ Hq2].
  destruct Hj as [Hst Hall].
  assert (forallb thread_opens (threads s) = true) as Hth.
  { clear -Hall. induction Hall as [|w l -> _ IH]; simpl; done. }
  unfold pool_opens in Hopens. rewrite Hst, Hq2, Hth in Hopens. simpl in Hopens.
  rewrite Hq in Hopens. simpl in Hopens.
  assert (∀ n, forallb thread_opens (replicate n (at_lock None)) = true) as Hth0.
  { intros n. induction n as [|n IH]; simpl; done. }
  rewrite Hth0 in Hopens. rewrite !andb_true_r in Hopens. simpl in Hopens.
  rewrite Hopens. unfold task_readable. simpl. done.
Qed.

Lemma run_target_opens (q : Queue) path q1 evs1 :
  clean q → run_target q path q1 evs1 →
  permission q1 = permission q && negb (failed_open evs1).
Proof.
  intros Hclean [q' evs HN Hrun|HN].
  - apply (run_mult_thread_opens q path); [lia|done..].
  - simpl. apply get_block_size_opens.
Qed.

Lemma start_options_and_run_opens (q : Queue) targets q' out evs :
  clean q → start_options_and_run q targets q' out evs →
  permission q' = permission q && negb (failed_open evs).
Proof.
  intros Hclean Hrun. induction Hrun as [q|q path targets q1 evs1 q2 out evs2 Hfirst _ IH].
  - by rewrite andb_true_r.
  - rewrite IH by apply reset_queue_clean.
    rewrite reset_queue_spec. simpl.
    rewrite (run_target_opens q path q1 evs1 Hclean Hfirst), failed_open_app.
    by destruct (permission q), (failed_open evs1), (failed_open evs2).
Qed.

(** C8: [main] exits with status 0 exactly if no [opendir] failed during
    the whole invocation, on any of the targets, in the pool as well as in
    the recursion; that is the case exactly if the permission flag of the
    queue is still true after the last target. Otherwise the status is
    [EXIT_FAILURE], which is not 0. (An invocation that a fatal error ends
    early, with [EXIT_FAILURE], is not a run of [main] here.) *)
Theorem exit_status (thread_amount : Z) (path_names : list Path) status out evs :
  main thread_amount path_names status out evs →
  (status = 0 ↔ failed_open evs = false) ∧
  (∃ q, start_options_and_run (new_queue thread_amount) path_names q out evs ∧
        (status = 0 ↔ permission q = true)) ∧
  (status ≠ 0 → status = EXIT_FAILURE ∧ EXIT_FAILURE ≠ 0).
Proof.
  intros [q out' evs' Hrun].
  assert (clean (new_queue thread_amount)) as Hclean by done.
  pose proof (start_options_and_run_opens _ _ _ _ _ Hclean Hrun) as Hperm.
  simpl in Hperm. unfold EXIT_SUCCESS, EXIT_FAILURE.
  split; [|split].
  - rewrite Hperm. by destruct (failed_open evs').
  - exists q. split; [done|]. by destruct (permission q).
  - by destruct (permission q).
Qed.

Lemma exit_status_witness :
  let out := [(16, "/tmp/f"%string); (24, "/tmp/g"%string)] in
  let evs := (get_block_size tmp_f true).2 ++ (get_block_size tmp_g true).2 ++ [] in
  main 1 [tmp_f; tmp_g] 1 out evs ∧
  (1 = 0 ↔ failed_open evs = false) ∧
  (∃ q, start_options_and_run (new_queue 1) [tmp_f; tmp_g] q out evs ∧
        (1 = 0 ↔ permission q = true)) ∧
  (1 ≠ 0 → 1 = EXIT_FAILURE ∧ EXIT_FAILURE ≠ 0).
Proof.
  intros out evs.
  assert (main 1 [tmp_f; tmp_g] 1 out evs) as Hmain.
  { exact (main_exit 1 [tmp_f; tmp_g] _ _ _ two_targets_run). }
  split; [exact Hmain|].
  exact (exit_status 1 [tmp_f; tmp_g] 1 out evs Hmain).
Defined.

(** ** kill_task_initializer *)

Transparent accounted.

Lemma run_task_locked_accounted (q : Queue) temp :
  run_task_locked q temp = (accounted q temp, q_is_empty (accounted q temp),
                            t_running (accounted q temp)).
Proof. done. Qed.

Opaque accounted.

Lemma kill_task_loop_spec n (q : Queue) :
  kill_task_loop n q
  = (with_task_q q (task_q q ++ replicate n kill_task_of_pool),
     replicate n (ev_add_task kill_task_of_pool)).
Proof.
  revert q. induction n as [|n IH]; intros q; simpl.
  - rewrite app_nil_r. by destruct q.
  - rewrite IH. simpl. by rewrite <- app_assoc.
Qed.

Lemma perform_all_thread_amount todo (q : Queue) :
  thread_amount (foldl (λ q e, perform e q) q todo) = thread_amount q.
Proof.
  revert q. induction todo as [|e todo IH]; intros q; simpl; [done|].
  rewrite IH. by destruct e.
Qed.

(** The value that the function of a task returns tells a kill task from
    every other task. *)
Lemma call_task_pointer_temp task :
  ((call_task_pointer task).1.1 >? -1) = negb (is_kill task).
Proof.
  destruct (is_kill task) eqn:Hk.
  - by destruct (call_task_pointer_kill task Hk) as (-> & _).
  - destruct (call_task_pointer_work task Hk) as (_ & ? & _). simpl.
    apply Z.gtb_lt. lia.
Qed.

Lemma kill_tasks_added_app evs1 evs2 :
  kill_tasks_added (evs1 ++ evs2) = kill_tasks_added evs1 + kill_tasks_added evs2.
Proof. apply sumZ_app. Qed.

Lemma kill_tasks_added_nil : kill_tasks_added [] = 0.
Proof. done. Qed.

Lemma kill_tasks_added_one e :
  kill_tasks_added [e]
  = match e with ev_add_task t => if is_kill t then 1 else 0 | _ => 0 end.
Proof. unfold kill_tasks_added. simpl. lia. Qed.

Lemma kill_task_events_added fin : kill_tasks_added (kill_task_events fin) = 0.
Proof. by destruct fin as [[f [p|]]|]. Qed.

(** The kill tasks that were added and those that are still to be added:
    none while the pool is at work, and [N] together from then on. *)
Lemma step_kill_tasks start_path N s s' :
  pool_inv N s → step start_path s s' →
  kill_tasks_added (happened s) + sumZ (kill_budget N) (threads s)
  = (if working s then 0 else N) →
  kill_tasks_added (happened s') + sumZ (kill_budget N) (threads s')
  = (if working s' then 0 else N).
Proof.
  intros Hinv Hstep. pose proof (step_pool_inv _ _ _ _ Hinv Hstep) as Hinv'.
  apply step_inv in Hstep
    as [[Hstart ->]|(l1 & w & l2 & q' & evs & w' & Hws & Hmove & ->)].
  - simpl. unfold working at 1. rewrite Hstart. simpl.
    rewrite kill_tasks_added_app, working_add_task by done.
    assert (kill_tasks_added [ev_add_task (start_task start_path)] = 0) as -> by done.
    lia.
  - destruct s as [q ws st h]. simpl in *. subst ws.
    rewrite kill_tasks_added_app, !sumZ_middle.
    assert (thread_amount q ≤ N ≤ thread_amount q) as Ham.
    { pose proof (inv_amount _ _ Hinv) as Ham. simpl in Ham. lia. }
    destruct (working (mk_pool q (l1 ++ w :: l2) st h)) eqn:Hph.
    + destruct (inv_working _ _ Hinv Hph) as (_ & _ & Hth). simpl in Hth.
      apply Forall_middle in Hth as (_ & Hw & _).
      destruct (thread_move_at_work N q l1 w l2 st h q' evs w' Hinv Hph Hmove)
        as [_ [Hph'|(task & temp & -> & ->)]].
      * rewrite Hph'. destruct (inv_working _ _ Hinv' Hph') as (_ & _ & Hth'). simpl in Hth'.
        apply Forall_middle in Hth' as (_ & Hw' & _).
        assert (kill_tasks_added evs = 0) as ->.
        { inversion Hmove; subst; simpl in *; rewrite ?kill_task_events_added; try done.
          destruct Hw as (_ & _ & Hev). apply Forall_cons in Hev as [He _].
          rewrite kill_tasks_added_one. destruct e; simpl in *; try done.
          by rewrite He. }
        destruct w, w'; simpl in *; try done; lia.
      * destruct (working (mk_pool q' (l1 ++ _ :: l2) st (h ++ evs))) eqn:Hph'.
        { destruct (inv_working _ _ Hinv' Hph') as (_ & _ & Hth'). simpl in Hth'.
          apply Forall_middle in Hth' as (_ & [] & _). }
        inversion Hmove; subst. simpl. rewrite kill_tasks_added_nil. lia.
    + destruct (thread_move_winding_down N q l1 w l2 st h q' evs w' Hinv Hph Hmove)
        as [_ Hph']. rewrite Hph'.
      destruct (inv_winding_down _ _ Hinv Hph) as (_ & Hth & _). simpl in Hth.
      apply Forall_middle in Hth as (_ & Hw & _).
      inversion Hmove; subst; simpl in *;
        rewrite ?kill_task_events_added, ?kill_tasks_added_nil, ?kill_tasks_added_one;
        try lia.
      * destruct Hw as (_ & _ & [Hev|[Hev _]]); [|done].
        injection Hev as -> ->. simpl. lia.
      * destruct Hw as (_ & -> & _).
        match goal with H : kill_task_initializer_test _ _ _ = true |- _ =>
          unfold kill_task_initializer_test in H; simpl in H;
          rewrite andb_false_r in H; done end.
      * assert (is_kill kill_task_of_pool = true) as -> by done. lia.
Qed.

Lemma at_work_no_budget N l :
  Forall thread_at_work l → sumZ (kill_budget N) l = 0.
Proof.
  induction 1 as [|w l Hw _ IH]; simpl; [done|]. rewrite IH.
  destruct w; simpl in *; try done; lia.
Qed.

Lemma steps_kill_tasks start_path N s s' :
  pool_inv N s → steps start_path s s' →
  kill_tasks_added (happened s) + sumZ (kill_budget N) (threads s)
  = (if working s then 0 else N) →
  kill_tasks_added (happened s') + sumZ (kill_budget N) (threads s')
  = (if working s' then 0 else N).
Proof.
  intros Hinv Hsteps. induction Hsteps as [|s1 s2 s3 Hstep _ IH]; [done|].
  intros H. apply IH.
  - by eapply step_pool_inv.
  - by eapply step_kill_tasks.
Qed.

(** The scheduler moves the pool by steps. *)
Lemma run_schedule_steps start_path schedule s :
  steps start_path s (run_schedule start_path schedule s).
Proof.
  revert s. induction schedule as [|who schedule IH]; intros s; simpl; [apply rtc_refl|].
  eapply rtc_trans; [|apply IH].
  destruct who as [i|]; simpl.
  - destruct (threads s !! i) as [w|] eqn:Hw; [|apply rtc_refl].
    destruct (run_thread_step (queue s) w) as [[[q' evs] w']|] eqn:Hstep; [|apply rtc_refl].
    apply rtc_once. by eapply step_thread.
  - destruct (start_added s) eqn:Hst; [apply rtc_refl|].
    apply rtc_once. by apply step_add_start_task.
Qed.

(** C6. In every state that a pool of [N] threads reaches, the number of
    running threads in the queue counts the threads that are inside
    [run_task], and a kill task is in the queue, or a thread is in the loop
    of [kill_task_initializer], only if no work is left: the start task has
    been added, every task in the queue is a kill task and no thread is
    inside a task that is not a kill task. No kill task is added while the
    pool is at work, and when all threads have returned exactly [N] kill
    tasks have been added. A step of a thread leads into
    the loop of [kill_task_initializer] only from the end of a task whose
    test succeeded on the queue as the critical section left it, and goes
    round the loop only while the counter is below the thread amount, adding
    one kill task. For [run_task] on a task, from
    any queue: after the function of the task and the critical section, the
    test of [kill_task_initializer] succeeds exactly if the queue is empty,
    no thread is running a task and the task was not a kill task. If so,
    exactly [N] kill tasks are added, [N] the thread amount; if not, none is
    added. Running a kill task leaves the block size of the queue as it
    was. *)
Theorem kill_tasks_at_quiescence (start_path : Path) (N : Z) (flag : bool) (s : pool)
    (q : Queue) (task : Task) :
  0 ≤ N →
  steps start_path (pool_start (mk_queue [] N 0 0 flag false)) s →
  (t_running (queue s) = sumZ running (threads s) ∧
   ((Exists (λ t, is_kill t = true) (task_q (queue s)) ∨
     Exists (λ w, ∃ t i, w = in_kill_task_initializer t i) (threads s)) →
    start_added s = true ∧
    Forall (λ t, is_kill t = true) (task_q (queue s)) ∧
    Forall (λ w, holds_work w = false) (threads s)) ∧
   (working s = true → kill_tasks_added (happened s) = 0) ∧
   (joined s → kill_tasks_added (happened s) = N)) ∧
  (∀ q0 w q' evs t i,
     run_thread_step q0 w = Some (q', evs, in_kill_task_initializer t i) →
     (∃ temp, w = in_task t [] temp ∧ i = 0 ∧ q' = accounted q0 temp ∧ evs = [] ∧
              kill_task_initializer_test temp (q_is_empty q') (t_running q') = true) ∨
     (∃ j, w = in_kill_task_initializer t j ∧ i = j + 1 ∧ j < thread_amount q0 ∧
           q' = add_task q0 kill_task_of_pool ∧ evs = [ev_add_task kill_task_of_pool])) ∧
  let temp := (call_task_pointer task).1.1 in
  let todo := (call_task_pointer task).1.2 in
  let q1 := foldl (λ q e, perform e q) q todo in
  let q2 := accounted q1 temp in
  let quiescent := task_q q2 = [] ∧ t_running q2 = 0 ∧ is_kill task = false in
  let kills := Z.to_nat (thread_amount q) in
  (kill_task_initializer_test temp (q_is_empty q2) (t_running q2) = true ↔ quiescent) ∧
  (quiescent →
   run_task q task
   = (with_task_q q2 (replicate kills kill_task_of_pool),
      todo ++ replicate kills (ev_add_task kill_task_of_pool))) ∧
  (¬ quiescent → run_task q task = (q2, todo ++ [])) ∧
  (is_kill task = true → block_size (run_task q task).1 = block_size q).
Proof.
  intros HN Hsteps. split; [|split].
  - assert (pool_inv N s) as Hinv.
    { eapply steps_pool_inv; [|done].
      apply (pool_start_inv (mk_queue [] N 0 0 flag false)); done. }
    assert (kill_tasks_added (happened s) + sumZ (kill_budget N) (threads s)
            = (if working s then 0 else N)) as Hadded.
    { eapply steps_kill_tasks; [|exact Hsteps|].
      - apply (pool_start_inv (mk_queue [] N 0 0 flag false)); done.
      - unfold pool_start, working. simpl. rewrite sumZ_replicate. simpl.
        rewrite kill_tasks_added_nil. lia. }
    split; [apply (inv_running N s Hinv)|]. split; [|split].
    2:{ intros Hph. rewrite Hph in Hadded.
        destruct (inv_working N s Hinv Hph) as (_ & _ & Hth).
        rewrite (at_work_no_budget N _ Hth) in Hadded. lia. }
    2:{ intros Hj. pose proof Hj as [_ Hret].
        assert (sumZ (kill_budget N) (threads s) = 0) as Hb.
        { clear -Hret. induction Hret as [|w l -> _ IH]; simpl; [done|]. lia. }
        rewrite Hb in Hadded. destruct (working s) eqn:Hph; [|lia].
        destruct (decide (1 ≤ N)) as [H1|H0]; [|lia].
        by rewrite (joined_winding_down N s Hinv
                      (pool_start_threads start_path (mk_queue [] N 0 0 flag false) s H1 Hsteps)
                      Hj) in Hph. }
    intros Hkill.
    destruct (working s) eqn:Hph.
    + exfalso. destruct (inv_working N s Hinv Hph) as (_ & Hq & Hth).
      destruct Hkill as [Hex|Hex].
      * apply Exists_exists in Hex as (t & Hin & Ht).
        rewrite Forall_forall in Hq. specialize (Hq t Hin). congruence.
      * apply Exists_exists in Hex as (w & Hin & (t & i & ->)).
        rewrite Forall_forall in Hth. by specialize (Hth _ Hin).
    + destruct (inv_winding_down N s Hinv Hph) as (Hq & _ & _).
      unfold working in Hph. apply orb_false_iff in Hph as [Hph Hhw].
      apply orb_false_iff in Hph as [Hst _]. apply negb_false_iff in Hst.
      split; [done|]. split; [done|]. by apply existsb_false.
  - intros q0 w q' evs t i Hstep. destruct w as [fin| |t' todo temp|t' j|];
      cbn [run_thread_step] in Hstep.
    + destruct (shutdown q0); [done|]. destruct (q_is_empty q0); [done|].
      unfold take_task in Hstep. destruct (q_dequeue q0) as [[t'|] q1]; [|done].
      by destruct (call_task_pointer t') as [[? ?] ?].
    + destruct (q_is_empty q0); [done|].
      unfold take_task in Hstep. destruct (q_dequeue q0) as [[t'|] q1]; [|done].
      by destruct (call_task_pointer t') as [[? ?] ?].
    + destruct todo as [|e todo]; [|done].
      rewrite run_task_locked_accounted in Hstep.
      destruct (kill_task_initializer_test temp _ _) eqn:Ht; [|done].
      injection Hstep as <- <- <- <-. left. by exists temp.
    + destruct (j <? thread_amount q0) eqn:Hj; [|done].
      injection Hstep as <- <- <- <-. right. exists j. apply Z.ltb_lt in Hj. done.
    + done.
  - intros temp todo q1 q2 quiescent kills.
    assert (kill_task_initializer_test temp (q_is_empty q2) (t_running q2) = true
            ↔ quiescent) as Htest.
    { unfold kill_task_initializer_test, quiescent, temp.
      rewrite call_task_pointer_temp, !andb_true_iff, Z.eqb_eq, negb_true_iff.
      unfold q_is_empty. destruct (task_q q2); split; [intros [[? ?] ?]|intros (? & ? & ?)| intros [[? ?] ?]|intros (? & ? & ?)]; done. }
    assert (thread_amount q2 = thread_amount q) as Hamount.
    { unfold q2. destruct (accounted_fields q1 temp) as (-> & _).
      apply perform_all_thread_amount. }
    assert (run_task q task
            = (let '(q3, evs) := kill_task_initializer q2 temp (q_is_empty q2) (t_running q2)
               in (q3, todo ++ evs))) as Hrun.
    { unfold run_task, temp, todo, q2, q1, temp, todo.
      destruct (call_task_pointer task) as [[temp' todo'] t']. cbn [fst snd].
      by rewrite run_task_locked_accounted. }
    split; [done|]. split; [|split].
    + intros Hq. rewrite Hrun. unfold kill_task_initializer.
      rewrite (proj2 Htest Hq), kill_task_loop_spec, Hamount.
      destruct Hq as (-> & _). done.
    + intros Hq. rewrite Hrun. unfold kill_task_initializer.
      destruct (kill_task_initializer_test temp _ _); [|done].
      destruct Hq. by apply Htest.
    + intros Hk. rewrite Hrun. unfold kill_task_initializer.
      destruct (kill_task_initializer_test temp _ _).
      { destruct (proj1 Htest eq_refl) as (_ & _ & ?). congruence. }
      simpl. unfold q2, q1, temp, todo.
      destruct (call_task_pointer_kill task Hk) as (-> & _). simpl.
      by destruct (accounted_fields (with_shutdown q true) (-1)) as (_ & _ & _ & _ & _).
Qed.

Lemma kill_tasks_at_quiescence_witness :
  let turn := [Some 0%nat; Some 1%nat; None; Some 2%nat; Some 3%nat] in
  let s := run_schedule tmp_g (take 80 (concat (replicate 30 turn)))
             (pool_start (mk_queue [] 4 0 0 true false)) in
  let q := mk_queue [] 4 16 1 true false in
  let task := mk_task fn_get_block_size_mult
                (Some (mk_path "/tmp/g/h" (Fs_node (Some dir8) None))) in
  (task_q (queue s) = [kill_task_of_pool] ∧
   threads s !! 3%nat = Some (in_kill_task_initializer task 2)) ∧
  (start_added s = true ∧
   Forall (λ t, is_kill t = true) (task_q (queue s)) ∧
   Forall (λ w, holds_work w = false) (threads s)) ∧
  (run_task q task).1 = mk_queue (replicate 4 kill_task_of_pool) 4 24 0 false false ∧
  block_size (run_task q kill_task_of_pool).1 = 16.
Proof.
  intros turn s q task.
  assert (0 ≤ 4) as HN by lia.
  assert (steps tmp_g (pool_start (mk_queue [] 4 0 0 true false)) s) as Hsteps
    by apply run_schedule_steps.
  assert (task_q (queue s) = [kill_task_of_pool] ∧
          threads s !! 3%nat = Some (in_kill_task_initializer task 2))
    as Hs by (by vm_compute).
  split; [done|].
  destruct (kill_tasks_at_quiescence tmp_g 4 true s q task HN Hsteps)
    as ((_ & Hkill & _ & _) & _ & _ & Hrun & _ & _).
  destruct (kill_tasks_at_quiescence tmp_g 4 true s q kill_task_of_pool HN Hsteps)
    as (_ & _ & _ & _ & _ & Hblocks).
  split; [|split].
  - apply Hkill. left. destruct Hs as (-> & _). by apply Exists_cons_hd.
  - rewrite Hrun; by vm_compute.
  - by apply Hblocks.
Defined.

(** [/tmp/g] with four threads that move in turn: four kill tasks are
    added in all. The thread that added them finds the shutdown flag set
    and returns without taking one, so that one kill task is left in the
    queue for the driver to clear. *)
Example kill_tasks_of_a_run :
  let turn := [Some 0%nat; Some 1%nat; None; Some 2%nat; Some 3%nat] in
  let s := run_schedule tmp_g (concat (replicate 30 turn))
             (pool_start (mk_queue [] 4 0 0 true false)) in
  kill_tasks_added (happened s) = 4 ∧ task_q (queue s) = [kill_task_of_pool].
Proof. vm_compute. done. Qed.

(** ** list.c: positions in the middle of a list *)

Lemma seg_app (h : heap) p ns1 ns2 e :
  seg h p (ns1 ++ ns2) e ↔
  seg h p ns1 (hd_addr e ns2) ∧ seg h (last_addr p ns1) ns2 e.
Proof.
  revert p. induction ns1 as [|n ns1 IH]; intros p; simpl.
  - unfold last_addr. simpl. tauto.
  - rewrite IH, hd_addr_app_l, last_addr_cons. tauto.
Qed.

Lemma last_addr_app p ns1 ns2 : last_addr p (ns1 ++ ns2) = last_addr (last_addr p ns1) ns2.
Proof.
  revert p. induction ns1 as [|n ns1 IH]; intros p; [done|].
  rewrite <- app_comm_cons, !last_addr_cons. apply IH.
Qed.

Lemma last_addr_in p ns : ns ≠ [] → last_addr p ns ∈ ns.*1.
Proof.
  destruct ns as [|n ns _] using rev_ind; [done|]. intros _.
  rewrite last_addr_snoc, fmap_app. apply elem_of_app. right.
  by apply list_elem_of_singleton.
Qed.

Lemma hd_addr_in e ns : ns ≠ [] → hd_addr e ns ∈ ns.*1.
Proof. destruct ns as [|n ns]; [done|]. intros _. apply elem_of_cons. by left. Qed.

(** The node in front of a position, and the position itself, in a list
    that is split at the position. *)
Lemma dll_split (h : heap) lst ns1 ns2 :
  dll h lst (ns1 ++ ns2) →
  ∃ nx pv vl vb,
    h !! hd_addr lst ns2 = Some (ONode (Node nx (last_addr lst ns1) vl)) ∧
    h !! last_addr lst ns1 = Some (ONode (Node (hd_addr lst ns2) pv vb)).
Proof.
  intros (Hnd & Hh & Hs). apply seg_app in Hs as [Hs1 Hs2].
  rewrite hd_addr_app_l, last_addr_app in Hh.
  assert (∃ nx vl, h !! hd_addr lst ns2 = Some (ONode (Node nx (last_addr lst ns1) vl)))
    as (nx & vl & Hpos).
  { destruct ns2 as [|n2 ns2]; simpl in *.
    - unfold last_addr at 1 in Hh. simpl in Hh. eauto.
    - destruct Hs2 as [Hn2 _]. eauto. }
  assert (∃ pv vb, h !! last_addr lst ns1 = Some (ONode (Node (hd_addr lst ns2) pv vb)))
    as (pv & vb & Hbefore).
  { destruct ns1 as [|n1 ns1 _] using rev_ind.
    - unfold last_addr. simpl in *. eauto.
    - rewrite last_addr_snoc. apply seg_snoc in Hs1 as [_ Hn1]. eauto. }
  eauto 10.
Qed.

Lemma hd_addr_cons e n ns : hd_addr e (n :: ns) = n.1.
Proof. done. Qed.

Lemma last_addr_nonempty p p' ns : ns ≠ [] → last_addr p ns = last_addr p' ns.
Proof.
  destruct ns as [|n ns _] using rev_ind; [done|]. intros _. by rewrite !last_addr_snoc.
Qed.

Lemma hd_addr_nonempty e e' ns : ns ≠ [] → hd_addr e ns = hd_addr e' ns.
Proof. by destruct ns. Qed.

Lemma NoDup_middle_ne {A} (l1 l2 : list A) x y :
  NoDup (l1 ++ x :: l2) → y ∈ l1 ++ l2 → y ≠ x.
Proof.
  intros Hnd Hin ->. apply NoDup_app in Hnd as (_ & Hdis & Hnd2).
  apply NoDup_cons in Hnd2 as [Hnot _].
  apply elem_of_app in Hin as [Hin|Hin]; [|done].
  apply (Hdis _ Hin). apply elem_of_cons. by left.
Qed.

(** [list_insert] in front of an element: the new node goes in between the
    element and the one before it. *)
Lemma list_insert_before (h : heap) lst ns1 n2 ns2 v :
  dll h lst (ns1 ++ n2 :: ns2) →
  ∃ h', list_insert h n2.1 v = Some (fresh_addr h, h') ∧
        dll h' lst (ns1 ++ (fresh_addr h, v) :: n2 :: ns2) ∧
        ∀ x, x ≠ fresh_addr h → x ∉ lst :: (ns1 ++ n2 :: ns2).*1 → h' !! x = h !! x.
Proof.
  intros Hd. pose proof (dll_fresh _ _ _ Hd) as Hfr.
  destruct (dll_split _ _ _ _ Hd) as (nx & pv & vl & vb & Hpos & Hbefore).
  pose proof Hd as (Hnd & Hh & Hs).
  apply seg_app in Hs as [Hs1 Hs2]. simpl in Hs2, Hpos, Hbefore, Hs1.
  destruct Hs2 as [Hn2 Hs2].
  set (a := fresh_addr h) in *. set (B := last_addr lst ns1) in *.
  rewrite fmap_app, fmap_cons in Hnd, Hfr.
  assert (a ≠ lst) as Hal by (intros ->; apply Hfr, elem_of_cons; by left).
  assert (a ≠ n2.1) as Han.
  { intros Heq. apply Hfr. apply elem_of_cons. right. apply elem_of_app. right.
    rewrite Heq. apply elem_of_cons. by left. }
  assert (n2.1 ≠ lst) as Hnl.
  { intros Heq. apply NoDup_cons in Hnd as [Hnot _]. apply Hnot.
    apply elem_of_app. right. rewrite Heq. apply elem_of_cons. by left. }
  assert (B ≠ n2.1) as HBn.
  { unfold B. destruct ns1 as [|n1 ns1 _] using rev_ind; [by unfold last_addr|].
    rewrite last_addr_snoc. intros Heq.
    apply NoDup_cons in Hnd as [_ Hnd]. apply NoDup_app in Hnd as (_ & Hdis & _).
    apply (Hdis n1.1).
    - rewrite fmap_app. apply elem_of_app. right. by apply list_elem_of_singleton.
    - rewrite Heq. apply elem_of_cons. by left. }
  assert (B ≠ a) as HBa.
  { unfold B. destruct ns1 as [|n1 ns1 _] using rev_ind; [by unfold last_addr|].
    rewrite last_addr_snoc. intros Heq. apply Hfr. apply elem_of_cons. right.
    apply elem_of_app. left. rewrite fmap_app. apply elem_of_app. right.
    rewrite <- Heq. by apply list_elem_of_singleton. }
  assert (nx = hd_addr lst ns2 ∧ vl = n2.2) as [-> ->].
  { rewrite Hn2 in Hpos. by injection Hpos as -> ->. }
  unfold list_insert, make_node, alloc, list_prev, set_next, set_prev.
  fold a. cbv zeta. heap_simpl. rewrite (get_node_Some _ _ _ Hpos). heap_simpl.
  rewrite (get_node_Some _ _ _ Hbefore). heap_simpl.
  eexists. split; [done|].
  assert (∀ x, x ∈ ns1.*1 ++ ns2.*1 → x ≠ a ∧ x ≠ n2.1 ∧ x ≠ lst) as Hother.
  { intros x Hx. split; [|split].
    - intros ->. apply Hfr. apply elem_of_cons. right.
      apply elem_of_app in Hx as [Hx|Hx]; apply elem_of_app; [by left|right].
      apply elem_of_cons. by right.
    - apply NoDup_cons in Hnd as [_ Hnd]. by apply (NoDup_middle_ne _ _ _ _ Hnd).
    - intros ->. apply NoDup_cons in Hnd as [Hnot _]. apply Hnot.
      apply elem_of_app in Hx as [Hx|Hx]; apply elem_of_app; [by left|right].
      apply elem_of_cons. by right. }
  split; [split; [|split]|].
  - rewrite fmap_app, !fmap_cons. simpl.
    apply NoDup_cons in Hnd as [Hnot Hnd]. apply NoDup_cons. split.
    + intros Hin. apply elem_of_app in Hin as [Hin|Hin].
      * apply Hnot. apply elem_of_app. by left.
      * apply elem_of_cons in Hin as [Hin|Hin]; [congruence|].
        apply Hnot. apply elem_of_app. by right.
    + apply NoDup_app in Hnd as (Hnd1 & Hdis & Hnd2).
      apply NoDup_app. split; [done|]. split.
      * intros x Hx Hin. apply elem_of_cons in Hin as [->|Hin]; [|by apply (Hdis x)].
        apply Hfr. apply elem_of_cons. right. apply elem_of_app. by left.
      * apply NoDup_cons. split; [|done].
        intros Hin. apply Hfr. apply elem_of_cons. right. apply elem_of_app. by right.
  - destruct ns1 as [|n1 ns1 _] using rev_ind.
    + unfold B, last_addr in *. simpl in *. heap_simpl.
      rewrite Hh in Hbefore. injection Hbefore as <- <-.
      by do 3 f_equal.
    + unfold B in *. rewrite last_addr_snoc in *.
      assert (n1.1 ≠ lst) as Hn1l.
      { intros Heq. apply NoDup_cons in Hnd as [Hnot _]. apply Hnot.
        apply elem_of_app. left. rewrite fmap_app. apply elem_of_app. right.
        rewrite <- Heq. by apply list_elem_of_singleton. }
      heap_simpl. rewrite Hh. do 3 f_equal.
      * rewrite <- !app_assoc. by destruct ns1.
      * rewrite !last_addr_app. simpl. rewrite !last_addr_cons. done.
  - apply seg_app. simpl. split; [|split; [|split]].
    + destruct ns1 as [|n1 ns1 _] using rev_ind; [done|].
      unfold B in *. rewrite last_addr_snoc in *.
      apply seg_snoc in Hs1 as [Hs1 Hn1]. rewrite Hn1 in Hbefore.
      injection Hbefore as <- <-.
      apply seg_snoc. split; [|by heap_simpl].
      eapply seg_frame; [|exact Hs1]. intros x Hx.
      assert (x ≠ n1.1).
      { intros ->. apply NoDup_cons in Hnd as [_ Hnd].
        apply NoDup_app in Hnd as (Hnd & _ & _). rewrite fmap_app in Hnd.
        apply NoDup_app in Hnd as (_ & Hdis & _). apply (Hdis _ Hx).
        by apply list_elem_of_singleton. }
      destruct (Hother x) as (? & ? & ?).
      { apply elem_of_app. left. rewrite fmap_app. apply elem_of_app. by left. }
      by heap_simpl.
    + fold B. by heap_simpl.
    + by heap_simpl.
    + eapply seg_frame; [|exact Hs2]. intros x Hx.
      destruct (Hother x) as (? & ? & ?); [apply elem_of_app; by right|].
      assert (x ≠ B).
      { unfold B. destruct ns1 as [|n1 ns1 _] using rev_ind; [by unfold last_addr|].
        rewrite last_addr_snoc. intros ->.
        apply NoDup_cons in Hnd as [_ Hnd]. apply NoDup_app in Hnd as (_ & Hdis & _).
        apply (Hdis n1.1).
        - rewrite fmap_app. apply elem_of_app. right. by apply list_elem_of_singleton.
        - apply elem_of_cons. by right. }
      by heap_simpl.
  - intros x Hxa Hx.
    assert (x ≠ lst) by (intros ->; apply Hx, elem_of_cons; by left).
    assert (x ≠ n2.1).
    { intros ->. apply Hx. apply elem_of_cons. right. rewrite fmap_app.
      apply elem_of_app. right. apply elem_of_cons. by left. }
    assert (x ≠ B).
    { unfold B. destruct ns1 as [|n1 ns1 _] using rev_ind; [by unfold last_addr|].
      rewrite last_addr_snoc. intros ->. apply Hx. apply elem_of_cons. right.
      rewrite !fmap_app. apply elem_of_app. left. apply elem_of_app. right.
      by apply list_elem_of_singleton. }
    by heap_simpl.
Qed.

Lemma free_spec (h : heap) v :
  v = NULL ∨ is_Some (h !! v) →
  ∃ h', free h v = Some h' ∧
        (∀ x, x ≠ v → h' !! x = h !! x) ∧ (v ≠ NULL → h' !! v = None) ∧
        (v = NULL → h' = h).
Proof.
  intros Hv. unfold free. destruct (decide (v = NULL)) as [->|Hn].
  { exists h. done. }
  destruct Hv as [?|[o Ho]]; [done|]. rewrite Ho.
  exists (delete v h). split; [done|]. split; [|split; [|done]].
  - intros x Hx. by rewrite lookup_delete_ne.
  - intros _. by rewrite lookup_delete_eq.
Qed.

(** [list_remove] on the position of an element: the element goes, its
    node and the value it points to are freed, and the position behind it
    is returned. *)
Lemma list_remove_at (h : heap) lst ns1 b vb ns2 :
  h !! NULL = None →
  dll h lst (ns1 ++ (b, vb) :: ns2) →
  vb = NULL ∨ (is_Some (h !! vb) ∧ vb ∉ lst :: (ns1 ++ (b, vb) :: ns2).*1) →
  ∃ h', list_remove h b = Some (hd_addr lst ns2, h') ∧
        dll h' lst (ns1 ++ ns2) ∧ h' !! b = None ∧ (vb ≠ NULL → h' !! vb = None) ∧
        ∀ x, x ≠ b → x ≠ vb → x ∉ lst :: (ns1 ++ ns2).*1 → h' !! x = h !! x.
Proof.
  intros Hnull Hd Hvb.
  pose proof Hd as (Hnd & Hh & Hs).
  apply seg_app in Hs as [Hs1 Hs2]. simpl in Hs1, Hs2. destruct Hs2 as [Hb Hs2].
  set (B := last_addr lst ns1) in *. set (Nx := hd_addr lst ns2) in *.
  rewrite fmap_app, fmap_cons in Hnd. simpl in Hnd.
  assert (b ≠ NULL) as HbN by congruence.
  assert (b ≠ lst) as Hbl.
  { intros ->. apply NoDup_cons in Hnd as [Hnot _]. apply Hnot.
    apply elem_of_app. right. apply elem_of_cons. by left. }
  assert (∀ x, x ∈ lst :: ns1.*1 ++ ns2.*1 → x ≠ b ∧ x ≠ vb) as Hcell.
  { intros x Hx.
    assert (x ∈ lst :: (ns1 ++ (b, vb) :: ns2).*1) as Hx'.
    { apply elem_of_cons in Hx as [->|Hx]; apply elem_of_cons; [by left|right].
      rewrite fmap_app, fmap_cons.
      apply elem_of_app in Hx as [Hx|Hx]; apply elem_of_app; [by left|right].
      apply elem_of_cons. by right. }
    split.
    - apply elem_of_cons in Hx as [->|Hx]; [done|].
      apply NoDup_cons in Hnd as [_ Hnd]. by apply (NoDup_middle_ne _ _ _ _ Hnd).
    - destruct Hvb as [->|[_ Hnot]]; [|by intros ->].
      intros ->. destruct (dll_allocated _ _ _ _ Hd Hx') as [m Hm]. congruence. }
  assert (B ∈ lst :: ns1.*1 ++ ns2.*1) as HBin.
  { unfold B. destruct ns1 as [|n1 ns1 _] using rev_ind.
    - apply elem_of_cons. by left.
    - rewrite last_addr_snoc. apply elem_of_cons. right. apply elem_of_app. left.
      rewrite fmap_app. apply elem_of_app. right. by apply list_elem_of_singleton. }
  assert (Nx ∈ lst :: ns1.*1 ++ ns2.*1) as HNin.
  { unfold Nx. destruct ns2 as [|n2 ns2].
    - apply elem_of_cons. by left.
    - apply elem_of_cons. right. apply elem_of_app. right. apply elem_of_cons. by left. }
  destruct (Hcell B HBin) as [HBb HBv]. destruct (Hcell Nx HNin) as [HNb HNv].
  assert (vb ≠ b) as Hvb'.
  { destruct Hvb as [->|[_ Hnot]]; [done|]. intros ->. apply Hnot.
    apply elem_of_cons. right. rewrite fmap_app. apply elem_of_app. right.
    apply elem_of_cons. by left. }
  destruct (dll_split h lst ns1 ((b, vb) :: ns2) Hd) as (nx0 & pB & vl0 & vB & _ & HB).
  simpl in HB. fold B in HB.
  assert (∃ nN vN, h !! Nx = Some (ONode (Node nN b vN))) as (nN & vN & HN).
  { unfold Nx. destruct ns2 as [|n2 ns2]; simpl in *.
    - rewrite last_addr_app, last_addr_cons in Hh. unfold last_addr at 1 in Hh.
      simpl in Hh. eauto.
    - destruct Hs2 as [Hn2 _]. eauto. }
  assert (ns1 ≠ [] ∨ ns2 ≠ [] → B ≠ Nx) as HBN.
  { unfold B, Nx. intros Hne Heq.
    destruct ns1 as [|n1 ns1 _] using rev_ind; destruct ns2 as [|n2 ns2];
      rewrite ?last_addr_snoc in Heq; try change (last_addr lst []) with lst in Heq;
      simpl in Heq.
    - by destruct Hne.
    - apply NoDup_cons in Hnd as [Hnot _]. apply Hnot.
      apply elem_of_app. right. apply elem_of_cons. right.
      rewrite Heq. apply elem_of_cons. by left.
    - apply NoDup_cons in Hnd as [Hnot _]. apply Hnot.
      apply elem_of_app. left. rewrite fmap_app. apply elem_of_app. right.
      rewrite <- Heq. by apply list_elem_of_singleton.
    - apply NoDup_cons in Hnd as [_ Hnd].
      apply NoDup_app in Hnd as (_ & Hdis & _). apply (Hdis n1.1).
      + rewrite fmap_app. apply elem_of_app. right. by apply list_elem_of_singleton.
      + apply elem_of_cons. right. rewrite Heq. apply elem_of_cons. by left. }
  unfold list_remove, list_next, list_prev, list_inspect, set_next, set_prev.
  rewrite (get_node_Some _ _ _ Hb). simpl. fold Nx B.
  rewrite (get_node_Some _ _ _ HB). simpl.
  set (h1 := <[B:=ONode (Node Nx pB vB)]> h).
  assert (∃ n1', get_node h1 Nx = Some n1' ∧
            ∀ h2, h2 = <[Nx:=ONode (Node (next n1') B (value n1'))]> h1 →
              h2 !! b = Some (ONode (Node Nx B vb)) ∧
              (∀ x, x ≠ B → x ≠ Nx → h2 !! x = h !! x) ∧
              h2 !! Nx = Some (ONode (Node (if decide (B = Nx) then Nx else nN) B vN)) ∧
              (B ≠ Nx → h2 !! B = Some (ONode (Node Nx pB vB)))) as (n1' & -> & Hh2).
  { destruct (decide (B = Nx)) as [He|Hne].
    - exists (Node Nx pB vB). unfold h1. rewrite He. heap_simpl. split; [done|].
      intros h2 ->. rewrite <- He in *. rewrite HB in HN. injection HN as -> -> ->.
      heap_simpl. repeat split; try done. intros x ? ?. by heap_simpl.
    - exists (Node nN b vN). unfold h1. heap_simpl. rewrite (get_node_Some _ _ _ HN).
      split; [done|]. intros h2 ->. heap_simpl. repeat split; try done.
      intros x ? ?. by heap_simpl. }
  simpl. set (h2 := <[Nx:=_]> h1) in *.
  destruct (Hh2 h2 eq_refl) as (Hb2 & Hframe2 & HN2 & HB2). clear Hh2.
  rewrite (get_node_Some _ _ _ Hb2). simpl.
  destruct (free_spec h2 vb) as (h3 & -> & Hframe3 & Hv3 & _).
  { destruct Hvb as [?|[[o Ho] Hnot]]; [by left|right].
    assert (vb ≠ B) by congruence. assert (vb ≠ Nx) by congruence.
    rewrite Hframe2 by done. eauto. }
  simpl. unfold free. rewrite decide_False by done.
  rewrite Hframe3, Hb2 by done.
  eexists. split; [done|].
  assert (∀ x, x ≠ b → x ≠ vb → delete b h3 !! x = h2 !! x) as Hframe.
  { intros x ? ?. rewrite lookup_delete_ne by done. by apply Hframe3. }
  split; [|split; [by rewrite lookup_delete_eq|split]].
  - split; [|split].
    + rewrite fmap_app. apply NoDup_cons in Hnd as [Hnot Hnd]. apply NoDup_cons. split.
      * intros Hin. apply Hnot.
        apply elem_of_app in Hin as [Hin|Hin]; apply elem_of_app; [by left|right].
        apply elem_of_cons. by right.
      * apply NoDup_app in Hnd as (Hnd1 & Hdis & Hnd2).
        apply NoDup_cons in Hnd2 as [_ Hnd2].
        apply NoDup_app. split; [done|]. split; [|done].
        intros x Hx Hin. apply (Hdis x Hx). apply elem_of_cons. by right.
    + destruct (Hcell lst) as [Hlb Hlv]; [apply elem_of_cons; by left|].
      rewrite Hframe by done.
      destruct ns1 as [|n1 ns1 _] using rev_ind; destruct ns2 as [|n2 ns2];
        unfold B, Nx in *; simpl in *; rewrite ?last_addr_snoc in *;
        try change (last_addr lst []) with lst in *.
      * unfold last_addr in *. simpl in *. rewrite HN2.
        rewrite Hh in HN. injection HN as _ <-. by rewrite decide_True.
      * rewrite HB2 by (apply HBN; by right). rewrite Hh in HB. injection HB as <- <-.
        by do 3 f_equal.
      * rewrite app_nil_r. rewrite HN2, decide_False by (apply HBN; left; by destruct ns1).
        rewrite Hh in HN. injection HN as <- <-. rewrite last_addr_snoc.
        do 3 f_equal. rewrite <- app_assoc. by destruct ns1.
      * assert (n1.1 ≠ lst ∧ n2.1 ≠ lst) as [? ?].
        { apply NoDup_cons in Hnd as [Hnot _]. split; intros Heq; apply Hnot.
          - apply elem_of_app. left. rewrite fmap_app. apply elem_of_app. right.
            rewrite <- Heq. by apply list_elem_of_singleton.
          - apply elem_of_app. right. apply elem_of_cons. right.
            rewrite <- Heq. apply elem_of_cons. by left. }
        rewrite Hframe2, Hh by done. do 3 f_equal.
        -- rewrite <- !app_assoc. by destruct ns1.
        -- rewrite !last_addr_app. simpl. by rewrite !last_addr_cons.
    + apply seg_app. fold Nx B. split.
      * destruct ns1 as [|n1 ns1 _] using rev_ind; [done|].
        unfold B in *. rewrite last_addr_snoc in *.
        apply seg_snoc in Hs1 as [Hs1 Hn1]. simpl in Hn1.
        rewrite Hn1 in HB. injection HB as <- <-.
        assert (n1.1 ≠ Nx) as Hne by (apply HBN; left; by destruct ns1).
        apply seg_snoc. split.
        -- eapply seg_frame; [|exact Hs1]. intros x Hx.
           assert (x ∈ lst :: (ns1 ++ [n1]).*1 ++ ns2.*1) as Hx'.
           { apply elem_of_cons. right. apply elem_of_app. left.
             rewrite fmap_app. apply elem_of_app. by left. }
           destruct (Hcell x Hx') as [? ?].
           assert (x ≠ n1.1).
           { intros ->. apply NoDup_cons in Hnd as [_ Hnd].
             apply NoDup_app in Hnd as (Hnd & _ & _). rewrite fmap_app in Hnd.
             apply NoDup_app in Hnd as (_ & Hdis & _). apply (Hdis _ Hx).
             by apply list_elem_of_singleton. }
           assert (x ≠ Nx).
           { unfold Nx. destruct ns2 as [|n2 ns2]; simpl.
             - intros ->. apply NoDup_cons in Hnd as [Hnot _]. apply Hnot.
               apply elem_of_app. left. rewrite fmap_app. apply elem_of_app. by left.
             - intros ->. apply NoDup_cons in Hnd as [_ Hnd].
               apply NoDup_app in Hnd as (_ & Hdis & _). apply (Hdis n2.1).
               + rewrite fmap_app. apply elem_of_app. by left.
               + apply elem_of_cons. right. apply elem_of_cons. by left. }
           rewrite Hframe, Hframe2 by done. done.
        -- rewrite Hframe by done. by rewrite HB2.
      * destruct ns2 as [|n2 ns2]; [done|]. unfold Nx in *. simpl in *.
        destruct Hs2 as [Hn2 Hs2]. rewrite Hn2 in HN. injection HN as <- <-.
        assert (B ≠ n2.1) as Hne by (apply HBN; by right).
        split.
        -- rewrite Hframe by done. rewrite HN2. by rewrite decide_False.
        -- eapply seg_frame; [|exact Hs2]. intros x Hx.
           assert (x ∈ lst :: ns1.*1 ++ (n2 :: ns2).*1) as Hx'.
           { apply elem_of_cons. right. apply elem_of_app. right.
             apply elem_of_cons. by right. }
           destruct (Hcell x Hx') as [? ?].
           assert (x ≠ n2.1).
           { intros ->. apply NoDup_cons in Hnd as [_ Hnd].
             apply NoDup_app in Hnd as (_ & _ & Hnd). apply NoDup_cons in Hnd as [_ Hnd].
             apply NoDup_cons in Hnd as [Hnot _]. done. }
           assert (x ≠ B).
           { unfold B. destruct ns1 as [|n1 ns1 _] using rev_ind.
             - unfold last_addr. simpl. intros ->.
               apply NoDup_cons in Hnd as [Hnot _]. apply Hnot.
               apply elem_of_app. right. apply elem_of_cons. right.
               apply elem_of_cons. by right.
             - rewrite last_addr_snoc. intros ->. apply NoDup_cons in Hnd as [_ Hnd].
               apply NoDup_app in Hnd as (_ & Hdis & _). apply (Hdis n1.1).
               + rewrite fmap_app. apply elem_of_app. right.
                 by apply list_elem_of_singleton.
               + apply elem_of_cons. right. apply elem_of_cons. by right. }
           rewrite Hframe, Hframe2 by done. done.
  - intros Hvn. rewrite lookup_delete_ne by done. by apply Hv3.
  - intros x Hxb Hxv Hx. rewrite Hframe by done. apply Hframe2.
    + intros ->. apply Hx. by rewrite fmap_app.
    + intros ->. apply Hx. by rewrite fmap_app.
Qed.

Lemma dll_node (h : heap) lst ns1 n ns2 :
  dll h lst (ns1 ++ n :: ns2) →
  h !! n.1 = Some (ONode (Node (hd_addr lst ns2) (last_addr lst ns1) n.2)).
Proof. intros (_ & _ & Hs). apply seg_app in Hs as [_ Hs]. by destruct Hs. Qed.

Lemma dll_head_split (h : heap) lst ns :
  dll h lst ns → h !! lst = Some (ONode (Node (hd_addr lst ns) (last_addr lst ns) NULL)).
Proof. by intros (_ & ? & _). Qed.

Lemma two_tasks_dll : dll two_tasks 1%nat [(3, 2)%nat; (5, 4)%nat].
Proof.
  split; [|split; [vm_compute; reflexivity|]].
  - apply (bool_decide_unpack _). vm_compute. exact I.
  - simpl. split; [vm_compute; reflexivity|]. split; [vm_compute; reflexivity|exact I].
Qed.

Lemma two_tasks_is_queue :
  is_queue two_tasks two_tasks_queue [(3, 2)%nat; (5, 4)%nat] [task_a; task_b].
Proof.
  split; [vm_compute; reflexivity|]. split; [apply two_tasks_dll|]. split.
  - apply (bool_decide_unpack _). vm_compute. exact I.
  - repeat (apply Forall2_cons; split; [vm_compute; reflexivity|]). apply Forall2_nil_2.
Qed.

(** X1: [list_create] hands out a new head node, not NULL and not in use
    before, and leaves everything else on the heap as it is. The new list
    has no element: [list_is_empty] holds of it and its first position is
    its end position. *)
Theorem list_create_empty (h : heap) :
  (list_create h).1 ≠ NULL ∧ h !! (list_create h).1 = None ∧
  dll (list_create h).2 (list_create h).1 [] ∧
  list_is_empty (list_create h).2 (list_create h).1 = Some true ∧
  list_first (list_create h).2 (list_create h).1 = Some (list_end (list_create h).1) ∧
  ∀ x, x ≠ (list_create h).1 → (list_create h).2 !! x = h !! x.
Proof.
  unfold list_create, alloc. simpl.
  pose proof (fresh_addr_not_NULL h) as Hn. pose proof (fresh_addr_None h) as Hf.
  split; [done|]. split; [done|]. split; [|split; [|split]].
  - split; [apply NoDup_singleton|]. split; [|done]. unfold last_addr. by heap_simpl.
  - unfold list_is_empty. heap_simpl. by rewrite bool_decide_eq_true_2.
  - unfold list_first. by heap_simpl.
  - intros x Hx. by heap_simpl.
Qed.

(** X2: [list_insert] at any position of a list, the position of an
    element or the end position: the value goes into a new node in front of
    that position, the elements before and behind it stay in their order,
    the position of the new element is returned, and nothing outside the
    list changes. *)
Theorem list_insert_at (h : heap) lst ns1 ns2 v :
  dll h lst (ns1 ++ ns2) →
  ∃ pos h', list_insert h (hd_addr lst ns2) v = Some (pos, h') ∧
            h !! pos = None ∧ pos ≠ NULL ∧
            dll h' lst (ns1 ++ (pos, v) :: ns2) ∧
            list_inspect h' pos = Some v ∧
            ∀ x, x ≠ pos → x ∉ lst :: (ns1 ++ ns2).*1 → h' !! x = h !! x.
Proof.
  intros Hd. exists (fresh_addr h).
  assert (∃ h', list_insert h (hd_addr lst ns2) v = Some (fresh_addr h, h') ∧
                dll h' lst (ns1 ++ (fresh_addr h, v) :: ns2) ∧
                ∀ x, x ≠ fresh_addr h → x ∉ lst :: (ns1 ++ ns2).*1 → h' !! x = h !! x)
    as (h' & Hins & Hd' & Hframe).
  { destruct ns2 as [|n2 ns2].
    - rewrite app_nil_r in *. by apply list_insert_end.
    - by apply list_insert_before. }
  exists h'. split; [done|]. split; [apply fresh_addr_None|].
  split; [apply fresh_addr_not_NULL|]. split; [done|]. split; [|done].
  pose proof (dll_node _ _ _ _ _ Hd') as Hn. simpl in Hn.
  unfold list_inspect. by rewrite (get_node_Some _ _ _ Hn).
Qed.

Lemma list_insert_at_witness :
  ∃ pos h', list_insert two_tasks 5%nat 2%nat = Some (pos, h') ∧
            two_tasks !! pos = None ∧ pos ≠ NULL ∧
            dll h' 1%nat ([(3, 2)%nat] ++ (pos, 2%nat) :: [(5, 4)%nat]) ∧
            list_inspect h' pos = Some 2%nat ∧
            ∀ x, x ≠ pos → x ∉ 1%nat :: ([(3, 2)%nat] ++ [(5, 4)%nat]).*1 →
                 h' !! x = two_tasks !! x.
Proof.
  apply (list_insert_at two_tasks 1%nat [(3, 2)%nat] [(5, 4)%nat] 2%nat).
  apply two_tasks_dll.
Defined.

(** X3: [list_remove] on the position of an element, in a list whose
    values are NULL or allocated outside the list: the element is taken
    out, its node and the value it points to are freed, the other elements
    stay in their order, the position behind the element is returned, and
    nothing outside the list changes. *)
Theorem list_remove_element (h : heap) lst ns1 b vb ns2 :
  h !! NULL = None →
  dll h lst (ns1 ++ (b, vb) :: ns2) →
  vb = NULL ∨ (is_Some (h !! vb) ∧ vb ∉ lst :: (ns1 ++ (b, vb) :: ns2).*1) →
  ∃ h', list_remove h b = Some (hd_addr lst ns2, h') ∧
        dll h' lst (ns1 ++ ns2) ∧ h' !! b = None ∧ (vb ≠ NULL → h' !! vb = None) ∧
        ∀ x, x ≠ b → x ≠ vb → x ∉ lst :: (ns1 ++ ns2).*1 → h' !! x = h !! x.
Proof. apply list_remove_at. Qed.

Lemma list_remove_element_witness :
  ∃ h', list_remove two_tasks 3%nat = Some (hd_addr 1%nat [(5, 4)%nat], h') ∧
        dll h' 1%nat ([] ++ [(5, 4)%nat]) ∧ h' !! 3%nat = None ∧
        (2%nat ≠ NULL → h' !! 2%nat = None) ∧
        ∀ x, x ≠ 3%nat → x ≠ 2%nat → x ∉ 1%nat :: ([] ++ [(5, 4)%nat]).*1 →
             h' !! x = two_tasks !! x.
Proof.
  apply (list_remove_element two_tasks 1%nat [] 3%nat 2%nat [(5, 4)%nat]).
  - vm_compute. reflexivity.
  - apply two_tasks_dll.
  - right. split; [vm_compute; eauto|].
    apply (bool_decide_unpack _). vm_compute. exact I.
Defined.

(** X4: the positions of a list, with the end position, are linked in a
    circle: from any of them [list_next] and then [list_prev] leads back to
    it, and so does [list_prev] and then [list_next]. From the end position
    [list_next] leads to the first position, and [list_is_empty] holds
    exactly if the list has no element. *)
Theorem list_next_prev (h : heap) lst ns pos :
  dll h lst ns →
  pos ∈ lst :: ns.*1 →
  (list_next h pos ≫= list_prev h) = Some pos ∧
  (list_prev h pos ≫= list_next h) = Some pos ∧
  list_next h (list_end lst) = list_first h lst ∧
  list_is_empty h lst = Some (bool_decide (ns = [])).
Proof.
  intros Hd Hin.
  assert (∀ ns1 ns2, ns = ns1 ++ ns2 →
            ∃ nx pv vl vb,
              h !! hd_addr lst ns2 = Some (ONode (Node nx (last_addr lst ns1) vl)) ∧
              h !! last_addr lst ns1 = Some (ONode (Node (hd_addr lst ns2) pv vb))) as Hsplit.
  { intros ns1 ns2 ->. by apply dll_split. }
  split; [|split; [|split]].
  - apply elem_of_cons in Hin as [->|Hin].
    + destruct (Hsplit [] ns eq_refl) as (nx & pv & vl & vb & Hpos & Hl).
      change (last_addr lst []) with lst in *.
      unfold list_next, list_prev. rewrite (get_node_Some _ _ _ Hl). simpl.
      by rewrite (get_node_Some _ _ _ Hpos).
    + apply list_elem_of_fmap in Hin as (n & -> & Hn).
      apply list_elem_of_split in Hn as (ns1 & ns2 & ->).
      destruct (Hsplit (ns1 ++ [n]) ns2) as (nx & pv & vl & vb & Hpos & Hl).
      { by rewrite <- app_assoc. }
      rewrite last_addr_snoc in *.
      unfold list_next, list_prev. rewrite (get_node_Some _ _ _ Hl). simpl.
      by rewrite (get_node_Some _ _ _ Hpos).
  - apply elem_of_cons in Hin as [->|Hin].
    + destruct (Hsplit ns []) as (nx & pv & vl & vb & Hpos & Hl).
      { by rewrite app_nil_r. }
      simpl in *.
      unfold list_next, list_prev. rewrite (get_node_Some _ _ _ Hpos). simpl.
      by rewrite (get_node_Some _ _ _ Hl).
    + apply list_elem_of_fmap in Hin as (n & -> & Hn).
      apply list_elem_of_split in Hn as (ns1 & ns2 & ->).
      destruct (Hsplit ns1 (n :: ns2) eq_refl) as (nx & pv & vl & vb & Hpos & Hl).
      simpl in *.
      unfold list_next, list_prev. rewrite (get_node_Some _ _ _ Hpos). simpl.
      by rewrite (get_node_Some _ _ _ Hl).
  - done.
  - unfold list_is_empty. rewrite (dll_head _ _ _ Hd). simpl. f_equal.
    destruct Hd as (Hnd & _ & _). destruct ns as [|n ns]; simpl.
    + by rewrite !bool_decide_eq_true_2.
    + rewrite !bool_decide_eq_false_2; [done..|].
      intros Heq. apply NoDup_cons in Hnd as [Hnot _]. apply Hnot.
      rewrite fmap_cons, Heq. apply elem_of_cons. by left.
Qed.

Lemma list_next_prev_witness :
  (list_next two_tasks 5%nat ≫= list_prev two_tasks) = Some 5%nat ∧
  (list_prev two_tasks 5%nat ≫= list_next two_tasks) = Some 5%nat ∧
  list_next two_tasks (list_end 1%nat) = list_first two_tasks 1%nat ∧
  list_is_empty two_tasks 1%nat = Some (bool_decide ([(3, 2)%nat; (5, 4)%nat] = [])).
Proof.
  apply (list_next_prev two_tasks 1%nat [(3, 2)%nat; (5, 4)%nat] 5%nat).
  - apply two_tasks_dll.
  - apply (bool_decide_unpack _). vm_compute. exact I.
Defined.

Lemma inspect_from_spec (h : heap) lst ns1 ns2 fuel :
  dll h lst (ns1 ++ ns2) →
  (length ns2 < fuel)%nat →
  inspect_from fuel h lst (hd_addr lst ns2) = Some ns2.*2.
Proof.
  revert ns1 fuel. induction ns2 as [|n ns2 IH]; intros ns1 fuel Hd Hfuel.
  - destruct fuel as [|fuel]; [simpl in Hfuel; lia|]. simpl.
    unfold list_pos_equal, list_end. by rewrite bool_decide_eq_true_2.
  - destruct fuel as [|fuel]; [simpl in Hfuel; lia|]. simpl.
    pose proof (dll_node _ _ _ _ _ Hd) as Hn.
    assert (n.1 ≠ lst) as Hne.
    { destruct Hd as (Hnd & _ & _). intros Heq.
      apply NoDup_cons in Hnd as [Hnot _]. apply Hnot. rewrite fmap_app.
      apply elem_of_app. right. rewrite <- Heq. apply elem_of_cons. by left. }
    unfold list_pos_equal, list_end. rewrite bool_decide_eq_false_2 by done. simpl.
    unfold list_inspect, list_next. rewrite (get_node_Some _ _ _ Hn). simpl.
    rewrite (IH (ns1 ++ [n]) fuel).
    + done.
    + by rewrite <- app_assoc.
    + simpl in Hfuel. lia.
Qed.

(** X5: the loop that [start_options_and_run] makes over a list, from
    [list_first] with [list_next] until [list_end], inspects every element
    once, in the order of the list, and then comes to an end. *)
Theorem inspect_all_in_order (h : heap) lst ns fuel :
  dll h lst ns →
  (length ns < fuel)%nat →
  inspect_all fuel h lst = Some ns.*2.
Proof.
  intros Hd Hfuel. unfold inspect_all, list_first.
  rewrite (dll_head _ _ _ Hd). simpl.
  by apply (inspect_from_spec h lst [] ns).
Qed.

Lemma inspect_all_in_order_witness :
  inspect_all 3 two_tasks 1%nat = Some [(3, 2)%nat; (5, 4)%nat].*2.
Proof.
  apply (inspect_all_in_order two_tasks 1%nat [(3, 2)%nat; (5, 4)%nat] 3).
  - apply two_tasks_dll.
  - simpl. lia.
Defined.

(** ** list.c and t_queue.c: giving the memory back *)

Lemma dll_no_NULL (h : heap) lst ns :
  h !! NULL = None → dll h lst ns → NULL ∉ lst :: ns.*1.
Proof.
  intros Hnull Hd Hin. destruct (dll_allocated _ _ _ _ Hd Hin) as [n Hn]. congruence.
Qed.

Lemma list_destroy_loop_spec (ns : list (addr * addr)) :
  ∀ (h : heap) lst fuel,
    h !! NULL = None →
    dll h lst ns →
    Forall (λ v, is_Some (h !! v) ∧ v ∉ lst :: ns.*1) ns.*2 →
    NoDup ns.*2 →
    (length ns < fuel)%nat →
    ∃ h', list_destroy_loop fuel h lst (hd_addr lst ns) = Some h' ∧
          dll h' lst [] ∧
          (∀ x, x ∈ ns.*1 ++ ns.*2 → h' !! x = None) ∧
          (∀ x, x ∉ lst :: ns.*1 ++ ns.*2 → h' !! x = h !! x).
Proof.
  induction ns as [|[b vb] ns IH]; intros h lst fuel Hnull Hd Hvals Hnd Hfuel.
  - destruct fuel as [|fuel]; [simpl in Hfuel; lia|]. simpl.
    rewrite decide_False by (intros Hne; by apply Hne).
    exists h. split; [done|]. split; [done|]. split; [|done].
    intros x Hx. by apply elem_of_nil in Hx.
  - destruct fuel as [|fuel]; [simpl in Hfuel; lia|]. simpl.
    rewrite fmap_cons in Hvals, Hnd. simpl in Hvals, Hnd.
    apply Forall_cons in Hvals as [[Hvb Hvbc] Hvals].
    apply NoDup_cons in Hnd as [Hvbn Hnd].
    assert (b ≠ lst) as Hbl.
    { destruct Hd as (Hn & _ & _). intros ->. apply NoDup_cons in Hn as [Hnot _].
      apply Hnot. rewrite ?fmap_cons; simpl; apply elem_of_cons. by left. }
    rewrite decide_True by done.
    destruct (list_remove_at h lst [] b vb ns Hnull Hd) as (h1 & -> & Hd1 & Hb1 & Hv1 & Hfr1).
    { right. done. }
    simpl in *.
    assert (vb ≠ NULL) as HvN by (destruct Hvb; congruence).
    assert (vb ≠ b) as Hvb'.
    { intros ->. apply Hvbc. apply elem_of_cons. right. apply elem_of_cons. by left. }
    assert (b ≠ NULL) as HbN.
    { intros ->. apply (dll_no_NULL h lst ((NULL, vb) :: ns) Hnull Hd).
      apply elem_of_cons. right. apply elem_of_cons. by left. }
    assert (h1 !! NULL = None) as Hnull1.
    { rewrite Hfr1; [done|congruence|congruence|].
      intros Hin. apply (dll_no_NULL h lst ((b, vb) :: ns) Hnull Hd).
      apply elem_of_cons in Hin as [Hin|Hin]; apply elem_of_cons; [by left|right].
      rewrite ?fmap_cons; simpl; apply elem_of_cons. by right. }
    destruct (IH h1 lst fuel Hnull1 Hd1) as (h' & Hloop & Hd' & Hgone & Hfr').
    { apply Forall_forall. intros v Hvin.
      pose proof (proj1 (Forall_forall _ _) Hvals v Hvin) as [Hv Hvc]. split.
      - rewrite Hfr1; [done| | |].
        + intros ->. apply Hvc. apply elem_of_cons. right. apply elem_of_cons. by left.
        + by intros ->.
        + intros Hin. apply Hvc.
          apply elem_of_cons in Hin as [Hin|Hin]; apply elem_of_cons; [by left|right].
          rewrite ?fmap_cons; simpl; apply elem_of_cons. by right.
      - intros Hin. apply Hvc.
        apply elem_of_cons in Hin as [Hin|Hin]; apply elem_of_cons; [by left|right].
        rewrite ?fmap_cons; simpl; apply elem_of_cons. by right. }
    { done. }
    { lia. }
    exists h'. split; [done|]. split; [done|].
    assert (b ∉ lst :: ns.*1 ++ ns.*2) as Hbout.
    { destruct Hd as (Hn & _ & _). rewrite fmap_cons in Hn. simpl in Hn.
      apply NoDup_cons in Hn as [_ Hn]. apply NoDup_cons in Hn as [Hbn _].
      intros Hin. apply elem_of_cons in Hin as [?|Hin]; [done|].
      apply elem_of_app in Hin as [Hin|Hin]; [done|].
      rewrite Forall_forall in Hvals. destruct (Hvals b Hin) as [_ Hc].
      apply Hc. apply elem_of_cons. right. apply elem_of_cons. by left. }
    assert (vb ∉ lst :: ns.*1 ++ ns.*2) as Hvout.
    { intros Hin. apply elem_of_cons in Hin as [->|Hin].
      - apply Hvbc. apply elem_of_cons. by left.
      - apply elem_of_app in Hin as [Hin|Hin]; [|done].
        apply Hvbc. apply elem_of_cons. right. apply elem_of_cons. by right. }
    split.
    + intros x Hx. rewrite ?fmap_cons in Hx. simpl in Hx.
      apply elem_of_cons in Hx as [->|Hx]; [by rewrite Hfr'|].
      apply elem_of_app in Hx as [Hx|Hx].
      * apply Hgone. apply elem_of_app. by left.
      * apply elem_of_cons in Hx as [->|Hx]; [rewrite Hfr'; auto|].
        apply Hgone. apply elem_of_app. by right.
    + intros x Hx. rewrite ?fmap_cons in Hx. simpl in Hx.
      assert (x ≠ b ∧ x ≠ vb ∧ x ∉ lst :: ns.*1 ++ ns.*2) as (? & ? & Hx').
      { split; [|split].
        - intros ->. apply Hx. apply elem_of_cons. right. apply elem_of_cons. by left.
        - intros ->. apply Hx. apply elem_of_cons. right. apply elem_of_cons. right.
          apply elem_of_app. right. apply elem_of_cons. by left.
        - intros Hin. apply Hx.
          apply elem_of_cons in Hin as [Hin|Hin]; apply elem_of_cons; [by left|right].
          apply elem_of_cons. right.
          apply elem_of_app in Hin as [Hin|Hin]; apply elem_of_app; [by left|right].
          apply elem_of_cons. by right. }
      rewrite Hfr' by done. apply Hfr1; [done..|].
      intros Hin. apply Hx'.
      apply elem_of_cons in Hin as [Hin|Hin]; apply elem_of_cons; [by left|right].
      apply elem_of_app. by left.
Qed.

(** X6: [list_destroy] on a list whose values are allocated outside the
    list, each by one element only: it comes to an end, and afterwards the
    head node, every node and every value is freed; everything else on the
    heap is as before. *)
Theorem list_destroy_frees_all (h : heap) lst ns fuel :
  h !! NULL = None →
  dll h lst ns →
  Forall (λ v, is_Some (h !! v) ∧ v ∉ lst :: ns.*1) ns.*2 →
  NoDup ns.*2 →
  (length ns < fuel)%nat →
  ∃ h', list_destroy fuel h lst = Some h' ∧
        (∀ x, x ∈ lst :: ns.*1 ++ ns.*2 → h' !! x = None) ∧
        (∀ x, x ∉ lst :: ns.*1 ++ ns.*2 → h' !! x = h !! x).
Proof.
  intros Hnull Hd Hvals Hnd Hfuel.
  destruct (list_destroy_loop_spec ns h lst fuel Hnull Hd Hvals Hnd Hfuel)
    as (h1 & Hloop & Hd1 & Hgone & Hfr).
  assert (lst ≠ NULL) as HlN.
  { intros ->. apply (dll_no_NULL h NULL ns Hnull Hd). apply elem_of_cons. by left. }
  assert (list_is_empty h lst = Some (bool_decide (ns = []))) as Hempty.
  { unfold list_is_empty. rewrite (dll_head _ _ _ Hd). simpl. f_equal.
    destruct Hd as (Hn & _ & _). destruct ns as [|n ns]; simpl.
    + by rewrite !bool_decide_eq_true_2.
    + rewrite !bool_decide_eq_false_2; [done..|].
      intros Heq. apply NoDup_cons in Hn as [Hnot _]. apply Hnot.
      rewrite fmap_cons, Heq. apply elem_of_cons. by left. }
  assert (∃ h2, list_destroy fuel h lst = free h2 lst ∧
                dll h2 lst [] ∧ (∀ x, x ∈ ns.*1 ++ ns.*2 → h2 !! x = None) ∧
                (∀ x, x ∉ lst :: ns.*1 ++ ns.*2 → h2 !! x = h !! x))
    as (h2 & -> & Hd2 & Hgone2 & Hfr2).
  { unfold list_destroy. rewrite Hempty. destruct ns as [|n ns].
    - exists h. rewrite bool_decide_eq_true_2 by done. simpl. split; [done|].
      split; [done|]. split; [|done]. intros x Hx. by apply elem_of_nil in Hx.
    - exists h1. rewrite bool_decide_eq_false_2 by done. simpl.
      unfold list_first. rewrite (dll_head _ _ _ Hd). simpl.
      simpl in Hloop. rewrite Hloop. done. }
  destruct (free_spec h2 lst) as (h' & -> & Hfr' & Hl' & _).
  { right. destruct Hd2 as (_ & Hh & _). eauto. }
  exists h'. split; [done|]. split.
  - intros x Hx. apply elem_of_cons in Hx as [->|Hx]; [by apply Hl'|].
    destruct (decide (x = lst)) as [->|Hne]; [by apply Hl'|].
    rewrite Hfr' by done. by apply Hgone2.
  - intros x Hx. rewrite Hfr'; [by apply Hfr2|].
    intros ->. apply Hx. apply elem_of_cons. by left.
Qed.

Lemma list_destroy_frees_all_witness :
  ∃ h', list_destroy 3 two_tasks 1%nat = Some h' ∧
        (∀ x, x ∈ 1%nat :: [(3, 2)%nat; (5, 4)%nat].*1 ++ [(3, 2)%nat; (5, 4)%nat].*2 →
              h' !! x = None) ∧
        (∀ x, x ∉ 1%nat :: [(3, 2)%nat; (5, 4)%nat].*1 ++ [(3, 2)%nat; (5, 4)%nat].*2 →
              h' !! x = two_tasks !! x).
Proof.
  apply (list_destroy_frees_all two_tasks 1%nat [(3, 2)%nat; (5, 4)%nat] 3).
  - vm_compute. reflexivity.
  - apply two_tasks_dll.
  - repeat (apply Forall_cons; split;
            [split; [vm_compute; eauto|apply (bool_decide_unpack _); vm_compute; exact I]|]).
    apply Forall_nil_2.
  - apply (bool_decide_unpack _). vm_compute. exact I.
  - simpl. lia.
Defined.

Lemma is_queue_frame (h h' : heap) q ns ts :
  is_queue h q ns ts →
  h' !! NULL = None →
  (∀ x, x ∈ task_q q :: ns.*1 ++ ns.*2 → h' !! x = h !! x) →
  is_queue h' q ns ts.
Proof.
  intros (Hnull & Hd & Hnd & Hf) Hnull' Hag. split; [done|]. split; [|split; [done|]].
  - eapply dll_frame; [|exact Hd]. intros a Ha. apply Hag.
    apply elem_of_cons in Ha as [Ha|Ha]; apply elem_of_cons; [by left|right].
    apply elem_of_app. by left.
  - apply Forall2_same_length_lookup_2; [by eapply Forall2_length|].
    intros i n t Hn Ht.
    pose proof (Forall2_lookup_lr _ _ _ _ _ _ Hf Hn Ht) as Hnt. simpl in Hnt.
    rewrite Hag; [done|]. apply elem_of_cons. right. apply elem_of_app. right.
    apply list_elem_of_fmap. exists n. split; [done|].
    apply list_elem_of_lookup. eauto.
Qed.

(** [dequeue] on a queue that holds tasks, with what it leaves alone. *)
Lemma dequeue_last_frame (h : heap) q ns ts n t :
  is_queue h q (ns ++ [n]) (ts ++ [t]) →
  ∃ h', dequeue h q = Some (fresh_addr h, h') ∧
        h' !! fresh_addr h = Some (OTask t) ∧
        is_queue h' q ns ts ∧
        h' !! n.1 = None ∧ h' !! n.2 = None ∧
        ∀ x, x ≠ fresh_addr h → x ≠ n.1 → x ≠ n.2 → x ∉ task_q q :: ns.*1 →
             h' !! x = h !! x.
Proof.
  intros Hq.
  destruct (dequeue_last _ _ _ _ _ _ Hq) as (h' & Hdq & Hcopy & Hq' & Hn1 & Hn2).
  exists h'. do 5 (split; [done|]).
  destruct n as [b vb]. simpl in *.
  pose proof Hq as (Hnull & Hd & Hnd & Hf).
  apply Forall2_snoc_inv in Hf as [Hf Hn]. simpl in Hn.
  revert Hdq. unfold dequeue. rewrite (queue_is_empty_spec _ _ _ _ Hq).
  rewrite bool_decide_eq_false_2 by (by destruct ts). simpl.
  unfold list_prev, list_end, list_inspect.
  rewrite (dll_head _ _ _ Hd), last_addr_snoc. simpl.
  pose proof (dll_node h (task_q q) ns (b, vb) [] Hd) as Hn1'. simpl in Hn1'.
  rewrite (get_node_Some _ _ _ Hn1'). simpl.
  rewrite (get_task_Some _ _ _ Hn). unfold alloc.
  set (c := fresh_addr h). set (h1 := <[c:=OTask t]> h).
  assert (h !! c = None) as Hc by apply fresh_addr_None.
  assert (dll h1 (task_q q) (ns ++ [(b, vb)])) as Hd1.
  { eapply dll_frame; [|done]. intros a Ha. unfold h1. apply lookup_insert_ne.
    intros <-. destruct (dll_allocated _ _ _ _ Hd Ha) as [m Hm]. congruence. }
  destruct (list_remove_last h1 (task_q q) ns b vb t)
    as (h2 & Hrm & _ & _ & _ & Hframe).
  { unfold h1. rewrite lookup_insert_ne; [done|]. apply fresh_addr_not_NULL. }
  { done. }
  { unfold h1. rewrite lookup_insert_ne; [done|]. congruence. }
  simpl. fold h1. rewrite Hrm. simpl. intros [= <-].
  intros x Hxc Hxb Hxv Hx. rewrite Hframe by done.
  unfold h1. by rewrite lookup_insert_ne.
Qed.

(** X7: [enqueue] on any queue, with a task struct that is not yet in it:
    it puts the task into a new node behind the last one. The tasks that
    were in the queue stay, in their order, the queue is not empty
    afterwards, and nothing outside the list changes. *)
Theorem enqueue_appends (h : heap) q ns ts task t :
  is_queue h q ns ts →
  h !! task = Some (OTask t) →
  task ∉ ns.*2 →
  ∃ node h', enqueue h q task = Some h' ∧
             h !! node = None ∧
             is_queue h' q (ns ++ [(node, task)]) (ts ++ [t]) ∧
             queue_is_empty h' q = Some false ∧
             ∀ x, x ≠ node → x ∉ task_q q :: ns.*1 → h' !! x = h !! x.
Proof.
  intros Hq Ht Hnew.
  destruct (enqueue_spec _ _ _ _ _ _ Hq Ht Hnew) as (h' & He & Hq' & Hframe).
  exists (fresh_addr h), h'. split; [done|]. split; [apply fresh_addr_None|].
  split; [done|]. split; [|done].
  rewrite (queue_is_empty_spec _ _ _ _ Hq'). f_equal.
  apply bool_decide_eq_false_2. by destruct ts.
Qed.

Lemma enqueue_appends_witness :
  let h := <[6%nat := OTask task_a]> two_tasks in
  ∃ node h', enqueue h two_tasks_queue 6%nat = Some h' ∧
             h !! node = None ∧
             is_queue h' two_tasks_queue ([(3, 2)%nat; (5, 4)%nat] ++ [(node, 6%nat)])
               ([task_a; task_b] ++ [task_a]) ∧
             queue_is_empty h' two_tasks_queue = Some false ∧
             ∀ x, x ≠ node → x ∉ task_q two_tasks_queue :: [(3, 2)%nat; (5, 4)%nat].*1 →
                  h' !! x = h !! x.
Proof.
  intros h.
  apply (enqueue_appends h two_tasks_queue [(3, 2)%nat; (5, 4)%nat] [task_a; task_b]
           6%nat task_a).
  - apply (is_queue_frame two_tasks); [apply two_tasks_is_queue|vm_compute; reflexivity|].
    intros x Hx. unfold h. apply lookup_insert_ne. intros <-. revert Hx.
    apply (bool_decide_unpack _). vm_compute. exact I.
  - vm_compute. reflexivity.
  - apply (bool_decide_unpack _). vm_compute. exact I.
Defined.

(** X8: [create_task_queue] on a heap where NULL is not allocated: the new
    queue holds no task, [queue_is_empty] holds of it and [dequeue] answers
    NULL; it has the given thread amount, a block size of 0, no thread
    running, the permission flag set and the shutdown flag down. Nothing
    that was on the heap changes. *)
Theorem create_task_queue_empty (h : heap) (n : Z) :
  h !! NULL = None →
  is_queue (create_task_queue h n).2 (create_task_queue h n).1 [] [] ∧
  queue_is_empty (create_task_queue h n).2 (create_task_queue h n).1 = Some true ∧
  dequeue (create_task_queue h n).2 (create_task_queue h n).1
  = Some (NULL, (create_task_queue h n).2) ∧
  (thread_amount (create_task_queue h n).1, block_size (create_task_queue h n).1,
   t_running (create_task_queue h n).1, permission (create_task_queue h n).1,
   shutdown (create_task_queue h n).1) = (n, 0, 0, true, false) ∧
  h !! task_q (create_task_queue h n).1 = None ∧
  ∀ x, x ≠ task_q (create_task_queue h n).1 → (create_task_queue h n).2 !! x = h !! x.
Proof.
  intros Hnull. pose proof (create_task_queue_spec h n Hnull) as Hq.
  split; [done|]. split; [|split; [|split; [done|split]]].
  - by rewrite (queue_is_empty_spec _ _ _ _ Hq).
  - by apply dequeue_empty.
  - apply fresh_addr_None.
  - intros x Hx. unfold create_task_queue, list_create, alloc in *. simpl in *.
    by heap_simpl.
Qed.

Lemma create_task_queue_empty_witness :
  is_queue (create_task_queue ∅ 4).2 (create_task_queue ∅ 4).1 [] [] ∧
  queue_is_empty (create_task_queue ∅ 4).2 (create_task_queue ∅ 4).1 = Some true ∧
  dequeue (create_task_queue ∅ 4).2 (create_task_queue ∅ 4).1
  = Some (NULL, (create_task_queue ∅ 4).2) ∧
  (thread_amount (create_task_queue ∅ 4).1, block_size (create_task_queue ∅ 4).1,
   t_running (create_task_queue ∅ 4).1, permission (create_task_queue ∅ 4).1,
   shutdown (create_task_queue ∅ 4).1) = (4, 0, 0, true, false) ∧
  (∅ : heap) !! task_q (create_task_queue ∅ 4).1 = None ∧
  ∀ x, x ≠ task_q (create_task_queue ∅ 4).1 →
       (create_task_queue ∅ 4).2 !! x = (∅ : heap) !! x.
Proof. apply (create_task_queue_empty ∅ 4). reflexivity. Defined.

Lemma dequeue_kill_task (h : heap) q ns ts n t :
  is_queue h q (ns ++ [n]) (ts ++ [t]) →
  ∃ copy h1 h2,
    dequeue h q = Some (copy, h1) ∧ kill_task h1 copy = Some (h2, path t) ∧
    h !! copy = None ∧ get_task h1 copy = Some t ∧
    is_queue h2 q ns ts ∧
    h2 !! n.1 = None ∧ h2 !! n.2 = None ∧ h2 !! copy = None ∧
    ∀ x, x ≠ n.1 → x ≠ n.2 → x ∉ task_q q :: ns.*1 → h2 !! x = h !! x.
Proof.
  intros Hq.
  destruct (dequeue_last_frame _ _ _ _ _ _ Hq) as (h1 & Hdq & Hcopy & Hq1 & Hn1 & Hn2 & Hfr).
  set (c := fresh_addr h) in *.
  assert (c ≠ NULL) as HcN by apply fresh_addr_not_NULL.
  assert (h !! c = None) as Hc by apply fresh_addr_None.
  exists c, h1, (delete c h1). split; [done|].
  split.
  { unfold kill_task. rewrite decide_False by done.
    rewrite (get_task_Some _ _ _ Hcopy). simpl.
    unfold free. rewrite decide_False by done. by rewrite Hcopy. }
  split; [done|]. split; [by apply get_task_Some|].
  assert (c ≠ n.1 ∧ c ≠ n.2) as [Hc1 Hc2] by (split; congruence).
  split; [|split; [|split; [|split]]].
  - apply (is_queue_frame h1); [done| |].
    + rewrite lookup_delete_ne by done. by destruct Hq1.
    + intros x Hx. apply lookup_delete_ne. intros <-.
      destruct Hq1 as (_ & Hd1 & _ & Hf1).
      apply elem_of_cons in Hx as [->|Hx].
      * destruct (dll_allocated h1 (task_q q) ns (task_q q) Hd1) as [m Hm];
          [apply elem_of_cons; by left|congruence].
      * apply elem_of_app in Hx as [Hx|Hx].
        -- destruct (dll_allocated h1 (task_q q) ns c Hd1) as [m Hm];
             [apply elem_of_cons; by right|congruence].
        -- pose proof Hq as (_ & Hd & _ & Hf).
           assert (c ∈ (ns ++ [n]).*2) as Hin.
           { rewrite fmap_app. apply elem_of_app. by left. }
           destruct (is_queue_values _ _ _ _ _ Hq Hin) as [t' Ht']. congruence.
  - by rewrite lookup_delete_ne.
  - by rewrite lookup_delete_ne.
  - by rewrite lookup_delete_eq.
  - intros x Hx1 Hx2 Hx. destruct (decide (x = c)) as [->|Hne].
    + by rewrite lookup_delete_eq.
    + rewrite lookup_delete_ne by done. by apply Hfr.
Qed.

(** X9: [dequeue] on a queue that holds tasks and then [kill_task] on what
    it answers, as in the loop of [start_options_and_run] that clears the
    queue and in [destroy_queue]: the last task is taken out; its node and
    its struct are freed by [dequeue], the copy that [dequeue] made is
    freed by [kill_task], and the buffer that [kill_task] releases with
    [free(task->path)] is that of the path of the task, none if the task
    has no path. The other tasks stay in the queue and nothing outside the
    list changes. *)
Theorem dequeue_then_kill_task (h : heap) q ns ts n t :
  is_queue h q (ns ++ [n]) (ts ++ [t]) →
  ∃ copy h1 h2,
    dequeue h q = Some (copy, h1) ∧ kill_task h1 copy = Some (h2, path t) ∧
    h !! copy = None ∧ get_task h1 copy = Some t ∧
    h1 !! n.1 = None ∧ h1 !! n.2 = None ∧
    is_queue h2 q ns ts ∧
    h2 !! n.1 = None ∧ h2 !! n.2 = None ∧ h2 !! copy = None ∧
    ∀ x, x ≠ n.1 → x ≠ n.2 → x ∉ task_q q :: ns.*1 → h2 !! x = h !! x.
Proof.
  intros Hq.
  destruct (dequeue_kill_task _ _ _ _ _ _ Hq)
    as (copy & h1 & h2 & Hdq & Hkill & Hcopy & Hget & Hq2 & Hn1 & Hn2 & Hc2 & Hfr).
  exists copy, h1, h2. repeat (split; [done|]).
  destruct (dequeue_last_frame _ _ _ _ _ _ Hq) as (h1' & Hdq' & _ & _ & Hn1' & Hn2' & _).
  rewrite Hdq in Hdq'. injection Hdq' as _ <-. done.
Qed.

Lemma dequeue_then_kill_task_witness :
  ∃ copy h1 h2,
    dequeue two_tasks two_tasks_queue = Some (copy, h1) ∧
    kill_task h1 copy = Some (h2, Some tmp_g) ∧
    two_tasks !! copy = None ∧ get_task h1 copy = Some task_b ∧
    h1 !! 5%nat = None ∧ h1 !! 4%nat = None ∧
    is_queue h2 two_tasks_queue [(3, 2)%nat] [task_a] ∧
    h2 !! 5%nat = None ∧ h2 !! 4%nat = None ∧ h2 !! copy = None ∧
    ∀ x, x ≠ 5%nat → x ≠ 4%nat →
         x ∉ task_q two_tasks_queue :: [(3, 2)%nat].*1 → h2 !! x = two_tasks !! x.
Proof.
  apply (dequeue_then_kill_task two_tasks two_tasks_queue [(3, 2)%nat] [task_a]
           (5, 4)%nat task_b).
  apply two_tasks_is_queue.
Defined.

(** ** make_path: the bounds of the buffer *)

Lemma store_length (buf buf' : list ascii) i c :
  store buf i c = Some buf' → length buf' = length buf.
Proof.
  unfold store. destruct (decide (i < length buf)%nat); [|done].
  intros [= <-]. apply length_insert.
Qed.

Lemma store_outside (buf : list ascii) i c :
  (length buf ≤ i)%nat → store buf i c = None.
Proof. intros Hi. unfold store. by rewrite decide_False by lia. Qed.

(** A name that does not fit into what is left of the buffer takes the
    loop out of the buffer. *)
Lemma copy_name_overflow (n : list ascii) :
  Forall (λ c, c ≠ NUL) n →
  ∀ fuel name pre rest (buf : list ascii) i,
    name = pre ++ n ++ NUL :: rest →
    (i ≤ length buf)%nat →
    (length buf < i + length n)%nat →
    copy_name fuel name buf i (length pre) = None.
Proof.
  induction 1 as [|c n Hc _ IH]; intros fuel name pre rest buf i -> Hi Hover.
  { simpl in Hover. lia. }
  destruct fuel as [|fuel]; [done|]. simpl.
  rewrite lookup_app_r, Nat.sub_diag by lia. simpl.
  rewrite decide_False by done.
  destruct (store buf i c) as [buf'|] eqn:Hst; [|done]. simpl.
  pose proof (store_length _ _ _ _ Hst) as Hlen.
  assert (i < length buf)%nat as Hlt.
  { unfold store in Hst. by destruct (decide (i < length buf)%nat). }
  replace (S (length pre)) with (length (pre ++ [c])) by (rewrite length_app; simpl; lia).
  apply (IH fuel _ (pre ++ [c]) rest).
  - by rewrite <- app_assoc.
  - lia.
  - simpl in Hover. lia.
Qed.

Lemma make_path_outside (new_path name absolute_path P n : list ascii) :
  c_str absolute_path = Some P →
  c_str name = Some n →
  let sep := if decide (last P = Some slash) then [] else [slash] in
  P = [] ∨ (length new_path < length P + length sep + length n + 1)%nat →
  make_path new_path name absolute_path = None.
Proof.
  intros HP Hn sep Hbad.
  apply c_str_split in HP as (restP & -> & HPn).
  apply c_str_split in Hn as (restn & -> & Hnn).
  unfold make_path. rewrite copy_path_copy_name.
  destruct (decide (P = [])) as [->|Hne].
  { simpl. done. }
  destruct Hbad as [?|Hbad]; [done|].
  destruct (decide (length P ≤ length new_path)%nat) as [HfitP|HfitP].
  2:{ rewrite (copy_name_overflow P HPn _ (P ++ NUL :: restP) [] restP new_path 0);
        [done|done|lia|simpl; lia]. }
  pose proof (copy_name_spec new_path P HPn (S (length (P ++ NUL :: restP)))
                (P ++ NUL :: restP) [] restP []) as H1.
  cbn [app length] in H1. rewrite drop_0 in H1.
  rewrite H1; [|done|lia|rewrite length_app; lia].
  clear H1. cbn [mbind option_bind]. rewrite read_before_last by done.
  destruct (last P) as [c|] eqn:Hlast; [|by apply last_None in Hlast].
  cbn [mbind option_bind].
  assert (length (P ++ drop (length P) new_path) = length new_path) as HlenP.
  { rewrite length_app, length_drop. lia. }
  destruct (decide (length P + length sep ≤ length new_path)%nat) as [Hfits|Hfits].
  2:{ unfold sep in Hfits. destruct (decide (Some c = Some slash)) as [Hc|Hc].
      { simpl in Hfits. lia. }
      rewrite decide_True by congruence.
      rewrite store_outside; [done|]. simpl in Hfits. lia. }
  assert (∃ out, (if decide (c ≠ slash)
                  then store (P ++ drop (length P) new_path) (length P) slash
                       ≫= λ new_path0, Some (new_path0, S (length P))
                  else Some (P ++ drop (length P) new_path, length P))
                 = Some (out ++ drop (length out) new_path, length out)
                 ∧ out = P ++ sep) as (out & -> & Hout).
  { exists (P ++ sep). split; [|done]. unfold sep in *.
    destruct (decide (c ≠ slash)) as [Hc|Hc].
    - rewrite decide_False by congruence. rewrite decide_False in Hfits by congruence.
      rewrite store_next by (simpl in Hfits; lia).
      simpl. rewrite length_app. simpl. by rewrite Nat.add_1_r.
    - apply dec_stable in Hc. subst c. rewrite decide_True by done.
      by rewrite app_nil_r. }
  cbn [mbind option_bind].
  assert (length out = (length P + length sep)%nat) as Hlen
    by (by rewrite Hout, length_app).
  assert (length (out ++ drop (length out) new_path) = length new_path) as Hlenout.
  { rewrite length_app, length_drop. lia. }
  destruct (decide (length out + length n ≤ length new_path)%nat) as [Hfitn|Hfitn].
  2:{ rewrite (copy_name_overflow n Hnn _ (n ++ NUL :: restn) [] restn
                 (out ++ drop (length out) new_path) (length out)); [done|done|lia|lia]. }
  pose proof (copy_name_spec new_path n Hnn (S (length (n ++ NUL :: restn)))
                (n ++ NUL :: restn) [] restn out) as H2.
  cbn [app length] in H2. rewrite H2; [|done|lia|rewrite length_app; lia].
  clear H2. cbn [mbind option_bind].
  apply store_outside.
  rewrite (length_app (out ++ n)), length_drop, !(length_app out n). lia.
Qed.

(** X11: [make_path] checks no bound. It stays inside the buffer
    [new_path], and inside the array of the parent path, exactly if the
    parent path is not empty and the joined path with its terminator fits
    into the buffer. With an empty parent path it reads the byte in front
    of [absolute_path]; with a joined path that is too long it writes
    behind the end of [new_path]. *)
Theorem make_path_in_bounds (new_path name absolute_path P n : list ascii) :
  c_str absolute_path = Some P →
  c_str name = Some n →
  (is_Some (make_path new_path name absolute_path) ↔
   P ≠ [] ∧
   (length P + (if decide (last P = Some slash) then 0 else 1) + length n + 1
    ≤ length new_path)%nat).
Proof.
  intros HP Hn. split.
  - intros [buf Hbuf].
    destruct (decide (P = [])) as [->|Hne].
    { rewrite (make_path_outside new_path name absolute_path [] n HP Hn) in Hbuf;
        [done|by left]. }
    split; [done|].
    destruct (decide (length P + (if decide (last P = Some slash) then 0 else 1)
                      + length n + 1 ≤ length new_path)%nat) as [?|Hbad]; [done|].
    rewrite (make_path_outside new_path name absolute_path P n HP Hn) in Hbuf; [done|].
    right. destruct (decide (last P = Some slash)); simpl in *; lia.
  - intros [Hne Hfit].
    destruct (make_path_spec new_path name absolute_path P n HP Hn Hne) as (buf & -> & _).
    + destruct (decide (last P = Some slash)); simpl in *; lia.
    + by eexists.
Qed.

Lemma make_path_in_bounds_witness :
  let P := String.list_ascii_of_string "/tmp/g" in
  let n := String.list_ascii_of_string "a" in
  (is_Some (make_path (replicate 8 NUL) (c_array "a") (c_array "/tmp/g")) ↔
   P ≠ [] ∧
   (length P + (if decide (last P = Some slash) then 0 else 1) + length n + 1
    ≤ length (replicate 8 NUL))%nat) ∧
  make_path (replicate 8 NUL) (c_array "a") (c_array "/tmp/g") = None ∧
  make_path (replicate 9 NUL) (c_array "a") (c_array "/tmp/g") = Some (c_array "/tmp/g/a").
Proof.
  intros P n. split; [|split; vm_compute; reflexivity].
  apply (make_path_in_bounds (replicate 8 NUL) (c_array "a") (c_array "/tmp/g") P n);
    reflexivity.
Defined.

(** ** The recursion: the flag, the size and the order of the entries *)

Lemma get_size_of_dir_loop_nonneg task flag p buf (dir : DIR) bs :
  Forall (λ e, ∀ c f, 0 ≤ (get_block_size_at c e.2 f).1.1) dir →
  bs ≤ (get_size_of_dir_loop get_block_size_at task flag p buf dir false bs).1.1.
Proof.
  intros Hdir. revert flag bs.
  induction Hdir as [|[n c] dir Hc _ IH]; intros flag bs; simpl; [lia|].
  unfold lstat, blocks. simpl. destruct (lstat_of c) as [cbuf|]; simpl; [|lia].
  destruct (n =? ".")%string; simpl.
  { etrans; [|apply IH]. lia. }
  destruct (negb (n =? ".."))%string; simpl; [|apply IH].
  destruct (S_ISREG (st_mode cbuf)); simpl.
  { etrans; [|apply IH]. lia. }
  specialize (Hc (new_absolute_path n p) flag). simpl in Hc.
  destruct (get_block_size_at (new_absolute_path n p) c flag) as [[size ok] evs].
  simpl in *. etrans; [|apply IH]. lia.
Qed.

Lemma get_block_size_at_nonneg c t f : 0 ≤ (get_block_size_at c t f).1.1.
Proof.
  revert c f. induction t as [ls od IH] using fs_node_induction. intros c f.
  destruct ls as [buf|]; simpl; [|done].
  destruct (S_ISDIR (st_mode buf)); [|unfold blocks; simpl; lia].
  destruct od as [dir|]; [|unfold blocks; simpl; lia].
  pose proof (get_size_of_dir_loop_nonneg None f c buf dir 0 IH) as Hle.
  destruct (get_size_of_dir_loop get_block_size_at None f c buf dir false 0)
    as [[size ok] evs]. simpl in *. lia.
Qed.

(** X12: [get_block_size] never sets the permission flag: a flag that is
    false when it is called is false afterwards, and a flag that is true
    is cleared or left. The size it returns and the system calls it makes
    do not depend on the flag, and the size is not negative. *)
Theorem permission_is_only_cleared (p : Path) (flag : bool) :
  (get_block_size p flag).1.2 = flag && (get_block_size p true).1.2 ∧
  (get_block_size p false).1.2 = false ∧
  (get_block_size p flag).1.1 = (get_block_size p true).1.1 ∧
  (get_block_size p flag).2 = (get_block_size p true).2 ∧
  0 ≤ (get_block_size p flag).1.1.
Proof.
  rewrite (get_block_size_flag p flag), (get_block_size_flag p false). simpl.
  unfold size_under, readable_under. repeat split.
  apply get_block_size_at_nonneg.
Qed.

Lemma sumZ_Permutation {A} (f : A → Z) l l' : l ≡ₚ l' → sumZ f l = sumZ f l'.
Proof. induction 1; simpl; lia. Qed.

Lemma forallb_Permutation {A} (f : A → bool) l l' : l ≡ₚ l' → forallb f l = forallb f l'.
Proof.
  induction 1 as [|x l l' _ IH|x y l|l l' l'' _ IH1 _ IH2]; simpl.
  - done.
  - by rewrite IH.
  - by destruct (f x), (f y).
  - by rewrite IH1.
Qed.

(** The loop of [get_size_of_dir] in the recursive mode, when [lstat]
    succeeds on every entry: a sum over the entries. *)
Lemma get_size_of_dir_loop_sum task flag p buf (dir : DIR) bs :
  Forall (λ e, lstat_of e.2 ≠ None) dir →
  (get_size_of_dir_loop get_block_size_at task flag p buf dir false bs).1
  = (bs + sumZ (entry_size p) dir, flag && forallb (entry_readable p) dir).
Proof.
  intros Hdir. revert flag bs.
  induction Hdir as [|[n c] dir Hc _ IH]; intros flag bs; simpl.
  { apply pair_equal_spec. split; [lia|by rewrite andb_true_r]. }
  simpl in Hc. unfold lstat, entry_size at 1, entry_readable at 1. simpl.
  destruct (lstat_of c) as [cbuf|]; [|done]. simpl.
  destruct (n =? ".")%string; simpl.
  { rewrite IH. simpl. apply pair_equal_spec. split; [lia|done]. }
  destruct (negb (n =? ".."))%string; simpl.
  2:{ rewrite IH. simpl. apply pair_equal_spec. split; [lia|done]. }
  destruct (S_ISREG (st_mode cbuf)); simpl.
  { rewrite IH. simpl. apply pair_equal_spec. split; [lia|done]. }
  rewrite (get_block_size_at_flag (new_absolute_path n p) c flag).
  destruct (get_block_size_at (new_absolute_path n p) c true) as [[size ok] evs].
  simpl. rewrite IH. simpl. apply pair_equal_spec. split; [lia|]. by rewrite andb_assoc.
Qed.

(** X15: the order in which [readdir] hands out the entries of a directory
    does not matter for the result, as long as [lstat] succeeds on every
    entry: for two directories with the same entries in any order,
    [get_block_size] returns the same size and leaves the same permission
    flag. *)
Theorem entry_order_is_irrelevant (c : string) ls (dir dir' : list (string * fs_node))
    (flag : bool) :
  dir ≡ₚ dir' →
  Forall (λ e, lstat_of e.2 ≠ None) dir →
  (get_block_size (mk_path c (Fs_node ls (Some dir))) flag).1
  = (get_block_size (mk_path c (Fs_node ls (Some dir'))) flag).1.
Proof.
  intros Hperm Hdir.
  assert (Forall (λ e : string * fs_node, lstat_of e.2 ≠ None) dir') as Hdir'.
  { rewrite Forall_forall in *. intros e He. apply Hdir. by rewrite Hperm. }
  unfold get_block_size. simpl. destruct ls as [buf|]; [|done].
  destruct (S_ISDIR (st_mode buf)); [|done].
  pose proof (get_size_of_dir_loop_sum None flag c buf dir 0 Hdir) as H1.
  pose proof (get_size_of_dir_loop_sum None flag c buf dir' 0 Hdir') as H2.
  destruct (get_size_of_dir_loop get_block_size_at None flag c buf dir false 0)
    as [[s1 f1] e1].
  destruct (get_size_of_dir_loop get_block_size_at None flag c buf dir' false 0)
    as [[s2 f2] e2].
  simpl in *.
  rewrite (sumZ_Permutation _ _ _ Hperm), (forallb_Permutation _ _ _ Hperm) in H1.
  congruence.
Qed.

Lemma entry_order_is_irrelevant_witness :
  let h := ("h"%string, Fs_node (Some dir8) None) in
  let a := ("a"%string, file8) in
  (get_block_size (mk_path "/tmp/g" (Fs_node (Some dir8) (Some [self8; parent8; h; a])))
     true).1
  = (get_block_size (mk_path "/tmp/g" (Fs_node (Some dir8) (Some [a; h; parent8; self8])))
       true).1.
Proof.
  intros h a.
  apply (entry_order_is_irrelevant "/tmp/g" (Some dir8) [self8; parent8; h; a]
           [a; h; parent8; self8] true).
  - exact (Permutation_rev [self8; parent8; h; a]).
  - repeat (apply Forall_cons; split; [discriminate|]). apply Forall_nil_2.
Defined.

(** ** Directory streams *)

Lemma dirs_ok_start limit cur evs c : dirs_ok limit cur evs = Some c → 0 ≤ cur ≤ limit.
Proof. destruct evs; simpl; case_bool_decide; done. Qed.

Lemma dirs_ok_end limit cur evs c : dirs_ok limit cur evs = Some c → c = cur + open_dirs evs.
Proof.
  revert cur. induction evs as [|e evs IH]; intros cur; simpl; case_bool_decide; try done.
  - intros [= <-]. unfold open_dirs. simpl. lia.
  - intros H'. apply IH in H'. unfold open_dirs in *. simpl. lia.
Qed.

Lemma dirs_ok_take limit cur evs c n :
  dirs_ok limit cur evs = Some c → 0 ≤ cur + open_dirs (take n evs) ≤ limit.
Proof.
  revert cur n. induction evs as [|e evs IH]; intros cur n Hok.
  - apply dirs_ok_start in Hok. rewrite take_nil. unfold open_dirs. simpl. lia.
  - pose proof (dirs_ok_start _ _ _ _ Hok) as Hcur. destruct n as [|n].
    { unfold open_dirs. simpl. lia. }
    simpl in Hok. case_bool_decide; [|done].
    specialize (IH _ n Hok). unfold open_dirs in *. simpl. lia.
Qed.

Lemma dirs_ok_app limit cur evs1 evs2 :
  dirs_ok limit cur (evs1 ++ evs2) = dirs_ok limit cur evs1 ≫= λ c, dirs_ok limit c evs2.
Proof.
  revert cur. induction evs1 as [|e evs1 IH]; intros cur; simpl.
  - case_bool_decide as Hc; simpl; [done|]. destruct evs2; simpl; by rewrite bool_decide_false.
  - case_bool_decide; [apply IH|done].
Qed.

Lemma dirs_ok_shift limit limit' cur k evs c :
  0 ≤ k → limit + k ≤ limit' →
  dirs_ok limit cur evs = Some c → dirs_ok limit' (cur + k) evs = Some (c + k).
Proof.
  intros Hk Hl. revert cur. induction evs as [|e evs IH]; intros cur; simpl.
  - case_bool_decide; [|done]. intros [= <-]. by rewrite bool_decide_true by lia.
  - case_bool_decide; [|done]. intros Hok. rewrite bool_decide_true by lia.
    replace (cur + k + dir_change e) with (cur + dir_change e + k) by lia. by apply IH.
Qed.

Lemma dirs_ok_nil limit cur : 0 ≤ cur ≤ limit → dirs_ok limit cur [] = Some cur.
Proof. intros Hc. simpl. by rewrite bool_decide_true. Qed.

Lemma dirs_ok_neutral limit cur e evs :
  dir_change e = 0 → dirs_ok limit cur (e :: evs) = dirs_ok limit cur evs.
Proof.
  intros He. simpl. rewrite He, Z.add_0_r.
  case_bool_decide; [done|]. destruct evs; simpl; by rewrite bool_decide_false.
Qed.

Lemma fs_depth_dir ls dir : fs_depth (Fs_node ls (Some dir)) = 1 + dir_depth dir.
Proof. reflexivity. Qed.

Lemma dir_depth_nonneg dir : 0 ≤ dir_depth dir.
Proof. induction dir as [|[n c] dir IH]; simpl; lia. Qed.

Lemma fs_depth_nonneg t : 0 ≤ fs_depth t.
Proof.
  destruct t as [ls [dir|]]; [|simpl; lia].
  rewrite fs_depth_dir. pose proof (dir_depth_nonneg dir). lia.
Qed.

(** In the recursive mode the loop of [get_size_of_dir] ends with the
    stream closed that was open when it started, whichever way it ends. *)
Lemma get_size_of_dir_loop_dirs task flag p buf (dir : DIR) bs :
  Forall (λ e, ∀ c f, dirs_ok (fs_depth e.2) 0 (get_block_size_at c e.2 f).2 = Some 0) dir →
  dirs_ok (1 + dir_depth dir) 1
    (get_size_of_dir_loop get_block_size_at task flag p buf dir false bs).2 = Some 0.
Proof.
  intros Hdir. revert flag bs.
  induction Hdir as [|[n c] dir Hc _ IH]; intros flag bs; [done|].
  pose proof (dir_depth_nonneg dir) as Hd. pose proof (fs_depth_nonneg c) as Hf.
  assert (∀ flag bs, dirs_ok (1 + dir_depth ((n, c) :: dir)) 1
    (get_size_of_dir_loop get_block_size_at task flag p buf dir false bs).2 = Some 0)
    as IH'.
  { intros flag' bs'. apply (dirs_ok_shift (1 + dir_depth dir) _ 1 0 _ 0); [lia| |apply IH].
    change (dir_depth ((n, c) :: dir)) with (Z.max (fs_depth c) (dir_depth dir)). lia. }
  simpl in Hc. cbn [get_size_of_dir_loop]. unfold lstat. cbn [target chars].
  destruct (lstat_of c) as [cbuf|].
  2:{ cbn [snd]. rewrite !dirs_ok_neutral by done. simpl.
      rewrite !bool_decide_true by lia. done. }
  destruct (n =? ".")%string.
  { cbn [and_then snd app]. rewrite !dirs_ok_neutral by done. apply IH'. }
  destruct (negb (n =? ".."))%string.
  2:{ cbn [and_then snd app]. rewrite !dirs_ok_neutral by done. apply IH'. }
  destruct (S_ISREG (st_mode cbuf)).
  { cbn [and_then snd app]. rewrite !dirs_ok_neutral by done. apply IH'. }
  specialize (Hc (new_absolute_path n p) flag).
  destruct (get_block_size_at (new_absolute_path n p) c flag) as [[size ok] evs].
  cbn [and_then snd app] in *. rewrite dirs_ok_neutral by done.
  rewrite <- app_assoc, dirs_ok_app.
  assert (fs_depth c + 1 ≤ 1 + dir_depth ((n, c) :: dir)) as Hle.
  { change (dir_depth ((n, c) :: dir)) with (Z.max (fs_depth c) (dir_depth dir)). lia. }
  pose proof (dirs_ok_shift _ _ 0 1 _ 0 ltac:(lia) Hle Hc) as Hc'.
  change (0 + 1) with 1 in Hc'. rewrite Hc'.
  cbn [mbind option_bind Z.add app]. rewrite dirs_ok_neutral by done. apply IH'.
Qed.

Lemma get_block_size_at_dirs c t f :
  dirs_ok (fs_depth t) 0 (get_block_size_at c t f).2 = Some 0.
Proof.
  revert c f. induction t as [ls od IH] using fs_node_induction. intros c f.
  pose proof (fs_depth_nonneg (Fs_node ls od)) as Hf.
  destruct ls as [buf|]; cbn [get_block_size_at].
  2:{ cbn [snd]. rewrite dirs_ok_neutral by done. by rewrite dirs_ok_nil by lia. }
  destruct (S_ISDIR (st_mode buf)).
  2:{ cbn [snd]. rewrite dirs_ok_neutral by done. by rewrite dirs_ok_nil by lia. }
  destruct od as [dir|].
  2:{ cbn [snd]. rewrite !dirs_ok_neutral by done. by rewrite dirs_ok_nil by lia. }
  pose proof (get_size_of_dir_loop_dirs None f c buf dir 0 IH) as Hloop.
  destruct (get_size_of_dir_loop get_block_size_at None f c buf dir false 0)
    as [[size ok] evs].
  cbn [snd] in *. rewrite dirs_ok_neutral by done. rewrite fs_depth_dir in *.
  cbn [dirs_ok]. rewrite bool_decide_true by lia. exact Hloop.
Qed.

(** X13: [get_block_size] closes every directory stream that it opens. At
    any point of the call no more streams are open than directories are
    nested under the path, never fewer than none, and when the call
    returns none is open. *)
Theorem recursion_closes_its_directories (p : Path) (flag : bool) (n : nat) :
  0 ≤ open_dirs (take n (get_block_size p flag).2) ≤ fs_depth (target p) ∧
  open_dirs (get_block_size p flag).2 = 0.
Proof.
  pose proof (get_block_size_at_dirs (chars p) (target p) flag) as Hok.
  split.
  - apply (dirs_ok_take _ _ _ _ n) in Hok. unfold get_block_size. lia.
  - apply dirs_ok_end in Hok. unfold get_block_size. lia.
Qed.

(** In the pool the loop of [get_size_of_dir] opens no directory and
    closes the one that [get_block_size_mult] opened. *)
Lemma get_size_of_dir_loop_mult_dirs g task flag p buf (dir : DIR) bs :
  dirs_ok 1 1 (get_size_of_dir_loop g task flag p buf dir true bs).2 = Some 0.
Proof.
  revert bs. induction dir as [|[n c] dir IH]; intros bs; [done|].
  cbn [get_size_of_dir_loop]. unfold lstat. cbn [target chars].
  destruct (lstat_of c) as [cbuf|]; [|done].
  destruct (n =? ".")%string.
  { cbn [and_then snd app]. rewrite !dirs_ok_neutral by done. apply IH. }
  destruct (negb (n =? ".."))%string.
  2:{ cbn [and_then snd app]. rewrite !dirs_ok_neutral by done. apply IH. }
  destruct (S_ISREG (st_mode cbuf)).
  { cbn [and_then snd app]. rewrite !dirs_ok_neutral by done. apply IH. }
  destruct task as [task|]; cbn [and_then snd app];
    rewrite !dirs_ok_neutral by done; apply IH.
Qed.

Lemma call_task_pointer_dirs (t : Task) : dirs_ok 1 0 (call_task_pointer t).1.2 = Some 0.
Proof.
  unfold call_task_pointer. destruct (task_pointer t); [|done..].
  unfold get_block_size_mult. destruct (path t) as [p|]; [|done].
  destruct (lstat p) as [buf|]; [|done].
  destruct (S_ISDIR (st_mode buf)); [|done].
  destruct (opendir p) as [dir|]; [|done].
  unfold get_size_of_dir.
  pose proof (get_size_of_dir_loop_mult_dirs get_block_size_at (Some t) true (chars p)
                buf dir 0) as Hloop.
  destruct (get_size_of_dir_loop get_block_size_at (Some t) true (chars p) buf dir true 0)
    as [[size ok] evs].
  cbn [fst snd] in *. rewrite dirs_ok_neutral by done. cbn [dirs_ok].
  rewrite bool_decide_true by lia. exact Hloop.
Qed.

Lemma kill_task_events_dirs finished : open_dirs (kill_task_events finished) = 0.
Proof. by destruct finished as [[f [p|]]|]. Qed.

Lemma thread_step_dirs q w q' evs w' :
  thread_step q w q' evs w' → thread_dirs_ok w →
  thread_dirs_ok w' ∧ to_close w' = to_close w + open_dirs evs.
Proof.
  assert (∀ t temp todo t', call_task_pointer t = (temp, todo, t') →
            thread_dirs_ok (in_task t' todo temp) ∧ to_close (in_task t' todo temp) = 0)
    as Htake.
  { intros t temp todo t' Hcall. pose proof (call_task_pointer_dirs t) as Hok.
    rewrite Hcall in Hok. cbn [fst snd] in Hok.
    pose proof (dirs_ok_end _ _ _ _ Hok) as Hend. simpl.
    replace (- open_dirs todo) with 0 by lia. done. }
  destruct 1 as [finished|finished|finished l t temp todo t' _ _ Hcall
                |l t temp todo t' _ Hcall|task e todo temp| | | |]; intros Hw;
    rewrite ?kill_task_events_dirs; try done.
  - destruct (Htake _ _ _ _ Hcall) as [? ->]. done.
  - destruct (Htake _ _ _ _ Hcall) as [? ->]. done.
  - simpl in *. unfold open_dirs in *. simpl in *.
    case_bool_decide; [|done].
    split; [|lia].
    by replace (- sumZ dir_change todo) with (- (dir_change e + sumZ dir_change todo)
                                               + dir_change e) by lia.
Qed.

Lemma thread_dirs_bounds w : thread_dirs_ok w → 0 ≤ to_close w ≤ running w.
Proof.
  destruct w as [| |task todo temp| |]; simpl; try lia.
  intros Hok. apply dirs_ok_start in Hok. lia.
Qed.

Lemma sumZ_between {A} (f g : A → Z) l :
  Forall (λ x, 0 ≤ f x ≤ g x) l → 0 ≤ sumZ f l ≤ sumZ g l.
Proof. induction 1; simpl; lia. Qed.

Lemma steps_dirs start_path s s' :
  steps start_path s s' →
  Forall thread_dirs_ok (threads s) → open_dirs (happened s) = sumZ to_close (threads s) →
  Forall thread_dirs_ok (threads s') ∧ open_dirs (happened s') = sumZ to_close (threads s').
Proof.
  induction 1 as [|s1 s2 s3 Hstep _ IH]; [done|]. intros Hall Hsum. apply IH.
  - apply step_inv in Hstep
      as [[Hstart ->]|(l1 & w & l2 & q' & evs & w' & Hws & Hmove & ->)]; [done|].
    simpl. rewrite Hws in Hall. apply Forall_middle in Hall as (? & Hw & ?).
    apply Forall_middle. by destruct (thread_step_dirs _ _ _ _ _ Hmove Hw).
  - apply step_inv in Hstep
      as [[Hstart ->]|(l1 & w & l2 & q' & evs & w' & Hws & Hmove & ->)]; simpl.
    { unfold open_dirs in *. rewrite sumZ_app. simpl. lia. }
    rewrite Hws in Hall, Hsum. apply Forall_middle in Hall as (? & Hw & ?).
    destruct (thread_step_dirs _ _ _ _ _ Hmove Hw) as [_ Hto].
    unfold open_dirs in *. rewrite sumZ_app, !sumZ_middle in *. lia.
Qed.

(** X14: in a pool a thread holds at most one directory stream, and only
    while it runs a task: in every state that a pool of [N] threads
    reaches, the streams that are open are at least none and at most as
    many as [t_running], which is at most [N]. Once all threads have been
    joined, every stream that was opened has been closed. *)
Theorem pool_directory_streams (start_path : Path) (N : Z) (flag : bool) (s : pool) :
  0 ≤ N →
  steps start_path (pool_start (mk_queue [] N 0 0 flag false)) s →
  0 ≤ open_dirs (happened s) ≤ t_running (queue s) ∧
  t_running (queue s) ≤ N ∧
  (joined s → open_dirs (happened s) = 0).
Proof.
  intros HN Hsteps.
  pose proof (pool_start_inv (mk_queue [] N 0 0 flag false) HN eq_refl eq_refl eq_refl)
    as Hinv.
  pose proof (steps_pool_inv _ _ _ _ Hinv Hsteps) as Hinv'. simpl in Hinv'.
  destruct (steps_dirs _ _ _ Hsteps) as [Hall Hsum].
  { unfold pool_start. simpl. by apply Forall_replicate. }
  { unfold pool_start. cbn [happened threads]. rewrite sumZ_replicate.
    unfold open_dirs. simpl. lia. }
  pose proof (sumZ_between to_close running (threads s)) as Hb.
  rewrite <- Hsum, <- (inv_running _ _ Hinv') in Hb.
  assert (sumZ running (threads s) ≤ Z.of_nat (length (threads s))) as Hlen.
  { clear. induction (threads s) as [|w ws IH]; simpl; [lia|]. destruct w; simpl; lia. }
  rewrite <- (inv_running _ _ Hinv'), (inv_threads _ _ Hinv') in Hlen.
  assert (0 ≤ open_dirs (happened s) ≤ t_running (queue s)) as Hopen.
  { apply Hb. eapply Forall_impl; [exact Hall|]. apply thread_dirs_bounds. }
  split; [done|]. split; [done|].
  intros [_ Hret]. rewrite Hsum.
  clear -Hret. induction Hret as [|w ws -> _ IH]; simpl; [done|]. lia.
Qed.

Lemma pool_directory_streams_witness :
  let s := run_schedule tmp_g [Some 0%nat; None; Some 0%nat; Some 0%nat; Some 0%nat]
             (pool_start (mk_queue [] 2 0 0 true false)) in
  open_dirs (happened s) = 1 ∧
  (0 ≤ open_dirs (happened s) ≤ t_running (queue s) ∧
   t_running (queue s) ≤ 2 ∧
   (joined s → open_dirs (happened s) = 0)).
Proof.
  intros s. split; [reflexivity|].
  apply (pool_directory_streams tmp_g 2 true s); [lia|].
  apply run_schedule_steps.
Defined.

(** ** The queue when the pool winds down and when it has ended *)





Lemma thread_step_shutdown q w q' evs w' :
  thread_step q w q' evs w' →
  (shutdown q = true → shutdown q' = true) ∧ (w' = returned → shutdown q' = true).
Proof.
  destruct 1 as [finished Hs|finished|finished l t temp todo t' Hs _ _
                |l t temp todo t' _ _|task e todo temp|task temp _|task temp _
                |task i _|task i _]; try done.
  - split; [|done]. by destruct e.
  - destruct (accounted_fields q temp) as (_ & _ & _ & -> & _). done.
  - destruct (accounted_fields q temp) as (_ & _ & _ & -> & _). done.
Qed.

Lemma steps_shutdown start_path s s' :
  steps start_path s s' →
  (Exists (λ w, w = returned) (threads s) → shutdown (queue s) = true) →
  (Exists (λ w, w = returned) (threads s') → shutdown (queue s') = true).
Proof.
  induction 1 as [|s1 s2 s3 Hstep _ IH]; [done|]. intros Hret. apply IH.
  apply step_inv in Hstep
    as [[Hstart ->]|(l1 & w & l2 & q' & evs & w' & Hws & Hmove & ->)]; [done|].
  simpl. destruct (thread_step_shutdown _ _ _ _ _ Hmove) as [Hkeep Hnew].
  rewrite Hws in Hret. rewrite !Exists_app, !Exists_cons in *.
  intros [Hex|[Hex|Hex]]; [|by apply Hnew|]; apply Hkeep, Hret; tauto.
Qed.

(** ** The life of a task, and what a work task does *)

(** The list predicate fixes what the cells of the list hold. *)
Lemma dll_cells (h h' : heap) lst ns x :
  dll h lst ns → dll h' lst ns → x ∈ lst :: ns.*1 → h' !! x = h !! x.
Proof.
  intros Hd Hd' Hin. apply elem_of_cons in Hin as [->|Hin].
  { by rewrite (dll_head_split _ _ _ Hd), (dll_head_split _ _ _ Hd'). }
  apply list_elem_of_fmap in Hin as (n & -> & Hn).
  apply list_elem_of_split in Hn as (ns1 & ns2 & ->).
  by rewrite (dll_node _ _ _ _ _ Hd), (dll_node _ _ _ _ _ Hd').
Qed.

(** X19: a task that is made with [create_task] and put into any queue with
    [enqueue] is the one that the next [dequeue] hands out, as a copy with
    the same path and function; the struct that [create_task] made is
    freed by then. [kill_task] on the copy frees the copy and releases the
    buffer of the path that was given to [create_task], if one was given:
    that buffer, which the caller of [create_task] allocated, is gone with
    the task. The heap of nodes and task structs is then again exactly
    what it was before the task was made: the queue holds what it held,
    and no node and no struct is left allocated. *)
Theorem task_round_trip (h : heap) q ns ts (path : option Path) (fn : task_fn) :
  is_queue h q ns ts →
  let task := (create_task h path fn).1 in
  let h1 := (create_task h path fn).2 in
  ∃ h2 copy h3,
    enqueue h1 q task = Some h2 ∧
    dequeue h2 q = Some (copy, h3) ∧
    get_task h3 copy = Some (mk_task fn path) ∧
    h3 !! task = None ∧
    kill_task h3 copy = Some (h, path).
Proof.
  intros Hq. unfold create_task, alloc. cbn [fst snd].
  set (task := fresh_addr h). set (t := mk_task fn path).
  set (h1 := <[task:=OTask t]> h).
  pose proof (fresh_addr_None h) as Htask. fold task in Htask.
  pose proof (fresh_addr_not_NULL h) as HtaskN. fold task in HtaskN.
  pose proof Hq as (Hnull & Hd & Hnd & Hf).
  assert (∀ x, x ≠ task → h1 !! x = h !! x) as Hh1.
  { intros x Hx. unfold h1. by rewrite lookup_insert_ne. }
  assert (task ∉ task_q q :: ns.*1) as Htask_cell.
  { intros Hin. destruct (dll_allocated _ _ _ _ Hd Hin) as [m Hm]. congruence. }
  assert (task ∉ ns.*2) as Htask_val.
  { intros Hin. apply list_elem_of_fmap in Hin as (n & Heq & Hn).
    apply list_elem_of_lookup in Hn as [i Hi].
    destruct (Forall2_lookup_l _ _ _ _ _ Hf Hi) as (t' & _ & Ht'). congruence. }
  assert (is_queue h1 q ns ts) as Hq1.
  { apply (is_queue_frame h); [done|by rewrite Hh1|].
    intros x Hx. apply Hh1. intros ->.
    apply elem_of_cons in Hx as [Hx|Hx].
    - apply Htask_cell. rewrite <- Hx. by left.
    - apply elem_of_app in Hx as [Hx|Hx]; [|done].
      apply Htask_cell. by right. }
  assert (h1 !! task = Some (OTask t)) as Hh1t.
  { unfold h1. by rewrite lookup_insert_eq. }
  destruct (enqueue_spec _ _ _ _ _ _ Hq1 Hh1t Htask_val) as (h2 & Henq & Hq2 & Hfr2).
  set (node := fresh_addr h1) in *.
  pose proof (fresh_addr_None h1) as Hnode. fold node in Hnode.
  destruct (dequeue_kill_task _ _ _ _ _ _ Hq2)
    as (copy & h3 & h4 & Hdq & Hkill & Hcopy & Hget & Hq4 & Hn1 & Hn2 & Hc4 & Hfr4).
  cbn [fst snd] in *.
  assert (node ≠ task) as Hnt by congruence.
  exists h2, copy, h3. split; [done|]. split; [done|]. split; [done|]. split.
  { (* the struct is freed by [dequeue]; [kill_task] frees the copy only *)
    assert (copy ≠ task) as Hct.
    { intros ->. pose proof Hq2 as (_ & _ & _ & Hf2).
      apply Forall2_app_inv_l in Hf2 as (ts1 & ts2 & _ & Hl & _).
      apply Forall2_cons_inv_l in Hl as (t' & ? & Ht' & _ & _). simpl in Ht'. congruence. }
    revert Hkill. unfold kill_task. destruct (decide (copy = NULL)) as [->|HcN].
    { intros [= <-]. done. }
    rewrite Hget. simpl. unfold free. rewrite decide_False by done.
    destruct (h3 !! copy) eqn:Hc3; [|done]. simpl. intros [= <-].
    rewrite lookup_delete_ne in Hn2 by done. done. }
  rewrite Hkill. simpl. f_equal. f_equal. apply map_eq. intros x.
  destruct (decide (x = task)) as [->|Hxt]; [congruence|].
  destruct (decide (x = node)) as [->|Hxn].
  { rewrite Hn1, <- Hh1 by done. done. }
  destruct (decide (x ∈ task_q q :: ns.*1)) as [Hin|Hout].
  { destruct Hq4 as (_ & Hd4 & _). by apply (dll_cells h h4 (task_q q) ns). }
  rewrite Hfr4, Hfr2, Hh1 by done. done.
Qed.

Lemma task_round_trip_witness :
  let task := (create_task two_tasks (Some tmp_g) fn_get_block_size_mult).1 in
  let h1 := (create_task two_tasks (Some tmp_g) fn_get_block_size_mult).2 in
  ∃ h2 copy h3,
    enqueue h1 two_tasks_queue task = Some h2 ∧
    dequeue h2 two_tasks_queue = Some (copy, h3) ∧
    get_task h3 copy = Some (mk_task fn_get_block_size_mult (Some tmp_g)) ∧
    h3 !! task = None ∧
    kill_task h3 copy = Some (two_tasks, Some tmp_g).
Proof.
  apply (task_round_trip two_tasks two_tasks_queue [(3, 2)%nat; (5, 4)%nat]
           [task_a; task_b] (Some tmp_g) fn_get_block_size_mult).
  apply two_tasks_is_queue.
Defined.



(** ** The calls of the pool and of the recursion *)

Section Counting.

Variable c : event → Z.
Hypothesis c_free : ∀ p, c (ev_free p) = 0.
Hypothesis c_add_task : ∀ t, c (ev_add_task t) = 0.
Hypothesis c_permission_false : c ev_permission_false = 0.
Hypothesis c_shutdown : c ev_shutdown = 0.

Lemma get_size_of_dir_loop_count task p buf (dir : DIR) :
  task_pointer task = fn_get_block_size_mult →
  ∀ flag f bs bs',
    sumZ c (get_size_of_dir_loop get_block_size_at None f p buf dir false bs').2
    = sumZ (event_count c)
        (get_size_of_dir_loop get_block_size_at (Some task) flag p buf dir true bs).2.
Proof.
  intros Hptr. induction dir as [|[n d] dir IH]; intros flag f bs bs'.
  { simpl. unfold event_count. lia. }
  cbn [get_size_of_dir_loop]. unfold lstat. cbn [target chars].
  destruct (lstat_of d) as [cbuf|].
  2:{ simpl. unfold event_count. rewrite !c_free. lia. }
  destruct (n =? ".")%string.
  { cbn [and_then snd app sumZ]. rewrite (IH flag f (bs + blocks cbuf) (bs' + blocks cbuf)).
    unfold event_count. rewrite !c_free. lia. }
  destruct (negb (n =? ".."))%string.
  2:{ cbn [and_then snd app sumZ]. rewrite (IH flag f bs bs').
      unfold event_count. rewrite !c_free. lia. }
  destruct (S_ISREG (st_mode cbuf)).
  { cbn [and_then snd app sumZ]. rewrite (IH flag f (bs + blocks cbuf) (bs' + blocks cbuf)).
    unfold event_count. rewrite !c_free. lia. }
  rewrite (get_block_size_at_flag (new_absolute_path n p) d f).
  cbn [and_then fst snd app sumZ]. rewrite !sumZ_app. cbn [sumZ].
  rewrite (IH flag (f && (get_block_size_at (new_absolute_path n p) d true).1.2) bs
             (bs' + (get_block_size_at (new_absolute_path n p) d true).1.1)).
  unfold event_count. rewrite c_add_task, c_free. unfold task_count at 2.
  cbn [task_pointer path].
  rewrite Hptr. unfold get_block_size. cbn [chars target]. lia.
Qed.

Lemma get_block_size_mult_count task :
  task_pointer task = fn_get_block_size_mult →
  sumZ (event_count c) (get_block_size_mult task).2 = task_count c task.
Proof.
  intros Hptr. unfold get_block_size_mult, task_count. rewrite Hptr.
  destruct (path task) as [[p [ls od]]|]; [|done].
  unfold get_block_size, lstat, opendir. cbn [chars target lstat_of opendir_of].
  destruct ls as [buf|]; [|simpl; unfold event_count; lia].
  cbn [get_block_size_at].
  destruct (S_ISDIR (st_mode buf)); [|simpl; unfold event_count; lia].
  destruct od as [dir|].
  2:{ simpl. unfold event_count. rewrite c_permission_false. lia. }
  unfold get_size_of_dir.
  pose proof (get_size_of_dir_loop_count task p buf dir Hptr true true 0 0) as Hloop.
  destruct (get_size_of_dir_loop get_block_size_at (Some task) true p buf dir true 0)
    as [[sm fm] em].
  destruct (get_size_of_dir_loop get_block_size_at None true p buf dir false 0)
    as [[ss fs] es].
  simpl in *. unfold event_count at 1 2. lia.
Qed.

Lemma call_task_pointer_count t temp todo t' :
  call_task_pointer t = (temp, todo, t') → sumZ (event_count c) todo = task_count c t.
Proof.
  unfold call_task_pointer. destruct (task_pointer t) eqn:Hptr.
  - pose proof (get_block_size_mult_count t Hptr) as Hc.
    destruct (get_block_size_mult t) as [size evs]. intros [= <- <- <-]. done.
  - intros [= <- <- <-]. unfold task_count. rewrite Hptr. simpl.
    unfold event_count. rewrite c_shutdown. lia.
  - intros [= <- <- <-]. unfold task_count. rewrite Hptr. done.
Qed.

Lemma kill_task_events_count finished : sumZ c (kill_task_events finished) = 0.
Proof. destruct finished as [[f [p|]]|]; simpl; rewrite ?c_free; lia. Qed.

Lemma thread_step_count q w q' evs w' :
  thread_step q w q' evs w' →
  sumZ c evs + sumZ (task_count c) (task_q q') + thread_count c w'
  = sumZ (task_count c) (task_q q) + thread_count c w.
Proof.
  intros [fin Hs|fin Hs Hq|fin l t temp todo t' Hs Hq Hcall|l t temp todo t' Hq Hcall
         |task e todo temp|task temp Htest|task temp Htest|task i Hi|task i Hi];
    rewrite ?kill_task_events_count; cbn [thread_count sumZ].
  - lia.
  - lia.
  - rewrite Hq, sumZ_app, (call_task_pointer_count _ _ _ _ Hcall). simpl. lia.
  - rewrite Hq, sumZ_app, (call_task_pointer_count _ _ _ _ Hcall). simpl. lia.
  - unfold event_count. destruct e; simpl; rewrite ?sumZ_app; simpl; lia.
  - destruct (accounted_fields q temp) as (_ & -> & _). lia.
  - destruct (accounted_fields q temp) as (_ & -> & _). lia.
  - simpl. rewrite sumZ_app, c_add_task. simpl. unfold task_count. simpl. lia.
  - lia.
Qed.

Lemma steps_pool_count start_path s s' :
  steps start_path s s' → pool_count c start_path s' = pool_count c start_path s.
Proof.
  induction 1 as [|s1 s2 s3 Hstep _ IH]; [done|]. rewrite IH.
  apply step_inv in Hstep
    as [[Hstart ->]|(l1 & w & l2 & q' & evs & w' & Hws & Hmove & ->)].
  - unfold pool_count. simpl. rewrite Hstart, !sumZ_app. simpl.
    rewrite c_add_task. lia.
  - unfold pool_count. simpl. rewrite Hws, sumZ_app, !sumZ_middle.
    pose proof (thread_step_count _ _ _ _ _ Hmove). lia.
Qed.

End Counting.

Lemma count_occ_calls (x : call) evs :
  Z.of_nat (count_occ call_eq_dec (calls evs) x) = sumZ (occurs x) evs.
Proof.
  induction evs as [|e evs IH]; [done|].
  unfold calls in *. cbn [sumZ]. unfold occurs at 1.
  change (omap call_of (e :: evs))
    with (match call_of e with Some y => y :: omap call_of evs | None => omap call_of evs end).
  destruct (call_of e) as [y|]; cbn [count_occ].
  - destruct (call_eq_dec y x) as [->|Hne].
    + rewrite decide_True by done. lia.
    + rewrite decide_False by congruence. lia.
  - rewrite decide_False by done. lia.
Qed.

(** ** Within the limits: the recursion *)

Lemma visit_fits_dir buf (dir : DIR) p :
  Limits.visit_fits p (Fs_node (Some buf) (Some dir))
  = if S_ISDIR (st_mode buf) then Limits.entries_fit p dir else true.
Proof. reflexivity. Qed.

Lemma entries_fit_cons p n c (dir : DIR) :
  Limits.entries_fit p ((n, c) :: dir)
  = Limits.path_fits n p &&
    match lstat_of c with
    | None => true
    | Some cbuf =>
        (if String.eqb n "." then true
         else if negb (String.eqb n "..") then
           if S_ISREG (st_mode cbuf) then true
           else Limits.visit_fits (new_absolute_path n p) c
         else true)
        && Limits.entries_fit p dir
    end.
Proof. reflexivity. Qed.

Lemma entries_fit_loop p (dir : DIR) :
  Limits.entries_fit p dir = true → Limits.loop_fits p dir = true.
Proof.
  induction dir as [|[n c] dir IH]; [done|]. rewrite entries_fit_cons. cbn [Limits.loop_fits].
  destruct (Limits.path_fits n p); [|done]. simpl.
  destruct (lstat_of c); [|done]. intros H. apply andb_prop in H as [_ H]. by apply IH.
Qed.

Lemma dir_depth_entry (dir : DIR) : Forall (λ e, fs_depth e.2 ≤ dir_depth dir) dir.
Proof.
  induction dir as [|[n c] dir IH]; [done|]. constructor.
  - change (dir_depth ((n, c) :: dir)) with (Z.max (fs_depth c) (dir_depth dir)). simpl. lia.
  - eapply Forall_impl; [exact IH|]. intros e He. simpl in He.
    change (dir_depth ((n, c) :: dir)) with (Z.max (fs_depth c) (dir_depth dir)). lia.
Qed.

(** Where every path fits and the function for the entries is the one of
    [Visit], the loop is the one of [Visit]. *)
Lemma get_size_of_dir_loop_within rec flag p buf (dir : DIR) bs :
  Limits.entries_fit p dir = true →
  Forall (λ e, ∀ c f, Limits.visit_fits c e.2 = true →
                      rec c e.2 f = Some (get_block_size_at c e.2 f)) dir →
  Limits.get_size_of_dir_loop rec flag p buf dir bs
  = Some (get_size_of_dir_loop get_block_size_at None flag p buf dir false bs).
Proof.
  intros Hfit Hdir. revert flag bs Hfit.
  induction Hdir as [|[n c] dir Hc _ IH]; intros flag bs Hfit; [done|].
  rewrite entries_fit_cons in Hfit. apply andb_prop in Hfit as [Hpath Hfit].
  cbn [Limits.get_size_of_dir_loop get_size_of_dir_loop]. rewrite Hpath.
  unfold lstat. cbn [target chars]. simpl in Hc.
  destruct (lstat_of c) as [cbuf|]; [|done].
  apply andb_prop in Hfit as [Hc' Hfit].
  destruct (n =? ".")%string.
  { by rewrite IH. }
  destruct (negb (n =? ".."))%string.
  2:{ by rewrite IH. }
  destruct (S_ISREG (st_mode cbuf)).
  { by rewrite IH. }
  rewrite (Hc _ flag Hc'). cbn [mbind option_bind].
  destruct (get_block_size_at (new_absolute_path n p) c flag) as [[size ok] evs].
  by rewrite IH.
Qed.

(** Where every path fits and the tree is not nested deeper than the
    process can open directories, [get_block_size] is as in [Visit]. *)
Lemma get_block_size_at_within limit open c t f :
  open + fs_depth t ≤ limit → Limits.visit_fits c t = true →
  Limits.get_block_size_at limit open c t f = Some (get_block_size_at c t f).
Proof.
  revert open c f. induction t as [ls od IH] using fs_node_induction.
  intros open c f Hdepth Hfit.
  destruct ls as [buf|]; [|done]. cbn [Limits.get_block_size_at get_block_size_at].
  destruct (S_ISDIR (st_mode buf)) eqn:Hdir; [|done].
  destruct od as [dir|]; [|done].
  rewrite fs_depth_dir in Hdepth. pose proof (dir_depth_nonneg dir) as Hnn.
  assert ((open <? limit) = true) as -> by (apply Z.ltb_lt; lia).
  rewrite visit_fits_dir, Hdir in Hfit.
  rewrite (get_size_of_dir_loop_within _ f c buf dir 0 Hfit).
  - cbn [mbind option_bind].
    by destruct (get_size_of_dir_loop get_block_size_at None f c buf dir false 0)
      as [[size ok] evs].
  - pose proof (dir_depth_entry dir) as Hle. rewrite Forall_forall in *.
    intros e He c' f' Hfit'. apply (IH e He); [|done]. specialize (Hle e He). lia.
Qed.

(** ** Within the limits: the pool *)

Lemma get_size_of_dir_loop_fits rec task flag p buf (dir : DIR) bs :
  Limits.entries_fit p dir = true →
  forallb Limits.event_fits
    (get_size_of_dir_loop rec (Some task) flag p buf dir true bs).2 = true ∧
  ∀ x, ev_opendir x true ∉ (get_size_of_dir_loop rec (Some task) flag p buf dir true bs).2.
Proof.
  revert bs. induction dir as [|[n c] dir IH]; intros bs Hfit.
  { split; [done|]. intros x Hin. simpl in Hin.
    apply list_elem_of_singleton in Hin. done. }
  rewrite entries_fit_cons in Hfit. apply andb_prop in Hfit as [_ Hfit].
  cbn [get_size_of_dir_loop]. unfold lstat. cbn [target chars].
  destruct (lstat_of c) as [cbuf|].
  2:{ split; [done|]. intros x Hin. cbn [snd] in Hin.
      repeat (apply elem_of_cons in Hin as [Hin|Hin]; [done|]).
      by apply elem_of_nil in Hin. }
  apply andb_prop in Hfit as [Hc Hfit].
  destruct (n =? ".")%string.
  { destruct (IH (bs + blocks cbuf) Hfit) as [H1 H2]. cbn [and_then snd app].
    split; [done|]. intros x Hin.
    repeat (apply elem_of_cons in Hin as [Hin|Hin]; [done|]). by apply (H2 x). }
  destruct (negb (n =? ".."))%string.
  2:{ destruct (IH bs Hfit) as [H1 H2]. cbn [and_then snd app].
      split; [done|]. intros x Hin.
      repeat (apply elem_of_cons in Hin as [Hin|Hin]; [done|]). by apply (H2 x). }
  destruct (S_ISREG (st_mode cbuf)).
  { destruct (IH (bs + blocks cbuf) Hfit) as [H1 H2]. cbn [and_then snd app].
    split; [done|]. intros x Hin.
    repeat (apply elem_of_cons in Hin as [Hin|Hin]; [done|]). by apply (H2 x). }
  destruct (IH bs Hfit) as [H1 H2]. cbn [and_then snd app].
  split.
  - cbn [forallb Limits.event_fits]. unfold Limits.task_fits at 1. cbn [path chars target].
    by rewrite Hc, H1.
  - intros x Hin.
    repeat (apply elem_of_cons in Hin as [Hin|Hin]; [done|]). by apply (H2 x).
Qed.

Lemma call_task_pointer_within t temp todo t' :
  Limits.task_fits t = true → call_task_pointer t = (temp, todo, t') →
  Limits.thread_within (in_task t' todo temp).
Proof.
  assert (∀ (l : list event), (∀ e, e ∈ l → ∀ x, e ≠ ev_opendir x true) →
            ∀ x, ev_opendir x true ∈ l → False) as Hno.
  { intros l Hl x Hin. by apply (Hl _ Hin x). }
  intros Hfit. unfold call_task_pointer. destruct (task_pointer t) eqn:Hptr.
  2:{ intros [= <- <- <-]. split; [done|]. intros p Hin.
      apply list_elem_of_singleton in Hin. done. }
  2:{ intros [= <- <- <-]. split; [done|]. intros p Hin. by apply elem_of_nil in Hin. }
  unfold get_block_size_mult. unfold Limits.task_fits in Hfit.
  destruct (path t) as [ap|] eqn:Hpath.
  2:{ intros [= <- <- <-]. split; [done|]. intros p Hin. by apply elem_of_nil in Hin. }
  destruct (lstat ap) as [buf|] eqn:Hl.
  2:{ intros [= <- <- <-]. split; [done|]. intros p Hin.
      apply list_elem_of_singleton in Hin. done. }
  destruct (S_ISDIR (st_mode buf)) eqn:Hdir.
  2:{ intros [= <- <- <-]. split; [done|]. intros p Hin.
      apply list_elem_of_singleton in Hin. done. }
  destruct (opendir ap) as [dir|] eqn:Ho.
  { unfold get_size_of_dir.
    assert (Limits.entries_fit (chars ap) dir = true) as Hent.
    { destruct ap as [c [ls od]]. unfold lstat, opendir in *.
      cbn [chars target lstat_of opendir_of] in *. subst ls od.
      by rewrite visit_fits_dir, Hdir in Hfit. }
    destruct (get_size_of_dir_loop_fits get_block_size_at t true (chars ap) buf dir 0 Hent)
      as [H1 H2].
    destruct (get_size_of_dir_loop get_block_size_at (Some t) true (chars ap) buf dir true 0)
      as [[size ok] evs].
    intros [= <- <- <-]. split; [done|]. intros p _.
    exists ap, buf, dir. split; [done|]. split; [done|]. split; [done|].
    by apply entries_fit_loop. }
  intros [= <- <- <-]. split; [done|]. intros p Hin.
  repeat (apply elem_of_cons in Hin as [Hin|Hin]; [done|]). by apply elem_of_nil in Hin.
Qed.

Lemma thread_step_within q w q' evs w' :
  thread_step q w q' evs w' →
  Forall (λ t, Limits.task_fits t = true) (task_q q) → Limits.thread_within w →
  Forall (λ t, Limits.task_fits t = true) (task_q q') ∧ Limits.thread_within w'.
Proof.
  intros [fin Hs|fin Hs Hq|fin l t temp todo t' Hs Hq Hcall|l t temp todo t' Hq Hcall
         |task e todo temp|task temp Htest|task temp Htest|task i Hi|task i Hi] Hall Hw;
    try done.
  - rewrite Hq in Hall. apply Forall_app in Hall as [Hl Ht].
    apply Forall_cons in Ht as [Ht _]. split; [done|].
    by eapply call_task_pointer_within.
  - rewrite Hq in Hall. apply Forall_app in Hall as [Hl Ht].
    apply Forall_cons in Ht as [Ht _]. split; [done|].
    by eapply call_task_pointer_within.
  - destruct Hw as [Hfit Hopen]. cbn [forallb] in Hfit.
    apply andb_prop in Hfit as [He Hfit]. split.
    + destruct e; try done. simpl. apply Forall_app. split; [done|]. by constructor.
    + split; [done|]. intros p Hin. apply (Hopen p). by right.
  - destruct (accounted_fields q temp) as (_ & -> & _). done.
  - destruct (accounted_fields q temp) as (_ & -> & _). done.
  - split; [|done]. simpl. apply Forall_app. split; [done|]. by constructor.
Qed.

Lemma step_dirs start_path s s' :
  step start_path s s' →
  Forall thread_dirs_ok (threads s) → open_dirs (happened s) = sumZ to_close (threads s) →
  Forall thread_dirs_ok (threads s') ∧ open_dirs (happened s') = sumZ to_close (threads s').
Proof. intros Hstep. apply steps_dirs with (start_path := start_path). by apply rtc_once. Qed.

Lemma step_within limit N start_path s s' :
  Limits.within limit N start_path s → step start_path s s' →
  Limits.within limit N start_path s'.
Proof.
  intros [Hinv Hlim Hst Hstart Htasks Hths Hdirs Hopen] Hstep.
  destruct (step_dirs _ _ _ Hstep Hdirs Hopen) as [Hdirs' Hopen'].
  pose proof (step_pool_inv _ _ _ _ Hinv Hstep) as Hinv'.
  pose proof (step_threads_length _ _ _ Hstep) as Hlen.
  apply step_inv in Hstep
    as [[Hadded ->]|(l1 & w & l2 & q' & evs & w' & Hws & Hmove & ->)].
  - constructor; simpl in *; try done.
    apply Forall_app. split; [done|]. constructor; [by apply Hstart|done].
  - rewrite Hws in Hths. apply Forall_middle in Hths as (Hl1 & Hw & Hl2).
    destruct (thread_step_within _ _ _ _ _ Hmove Htasks Hw) as [Htasks' Hw'].
    constructor; simpl in *; try done.
    + by rewrite Hlen.
    + by apply Forall_middle.
Qed.

Lemma steps_within limit N start_path s s' :
  Limits.within limit N start_path s → steps start_path s s' →
  Limits.within limit N start_path s'.
Proof.
  intros Hw Hsteps. induction Hsteps as [|s1 s2 s3 Hstep _ IH]; [done|].
  apply IH. by eapply step_within.
Qed.

(** A thread has none of the directory streams that are open when it gets
    to its [opendir]. *)
Lemma to_close_before_opendir task p todo temp :
  thread_dirs_ok (in_task task (ev_opendir p true :: todo) temp) →
  to_close (in_task task (ev_opendir p true :: todo) temp) = 0.
Proof.
  unfold thread_dirs_ok, to_close. intros Hok.
  pose proof (dirs_ok_start _ _ _ _ Hok) as Hcur.
  cbn [dirs_ok] in Hok. case_bool_decide; [|done]. apply dirs_ok_start in Hok.
  cbn [dir_change] in Hok. lia.
Qed.

Lemma to_close_le_length l :
  Forall thread_dirs_ok l → 0 ≤ sumZ to_close l ≤ Z.of_nat (length l).
Proof.
  induction 1 as [|w l Hw _ IH]; simpl; [lia|].
  pose proof (thread_dirs_bounds w Hw). destruct w; simpl in *; lia.
Qed.

Lemma run_thread_step_within limit open q w :
  Limits.thread_within w →
  (∀ task p todo temp, w = in_task task (ev_opendir p true :: todo) temp → open < limit) →
  Limits.run_thread_step limit open q w = run_thread_step q w.
Proof.
  intros Hw Hopen. destruct w as [fin| |task [|e todo] temp|task i|]; try done.
  destruct e as [x|x [|]|x|x|x|x| |]; try done.
  destruct Hw as [_ Hdir]. destruct (Hdir x) as (ap & buf & dir & Hp & Hl & Ho & Hfit).
  { by left. }
  cbn [Limits.run_thread_step run_thread_step perform]. rewrite Hp. cbn [mbind option_bind].
  rewrite Hl, Ho. cbn [mbind option_bind]. rewrite Hfit.
  assert ((open <? limit) = true) as ->; [|done].
  apply Z.ltb_lt. by eapply Hopen.
Qed.

(** While the limits are kept, the steps within the limits are the steps
    of [Pool]: no [opendir] fails for want of a descriptor and no path
    leaves its buffer. *)
Lemma step_within_iff limit N start_path s s' :
  Limits.within limit N start_path s →
  Limits.step limit start_path s s' ↔ step start_path s s'.
Proof.
  intros [Hinv Hlim Hst Hstart Htasks Hths Hdirs Hopen].
  assert (∀ i w, threads s !! i = Some w →
            Limits.run_thread_step limit (open_dirs (happened s)) (queue s) w
            = run_thread_step (queue s) w) as Hsame.
  { intros i w Hi. apply run_thread_step_within.
    - rewrite Forall_forall in Hths. apply Hths. by eapply list_elem_of_lookup_2.
    - intros task p todo temp ->. rewrite Hopen.
      rewrite <- (take_drop_middle _ _ _ Hi) in Hdirs, Hlim |- *.
      apply Forall_middle in Hdirs as (H1 & Hw & H2).
      rewrite sumZ_middle, (to_close_before_opendir _ _ _ _ Hw).
      pose proof (to_close_le_length _ H1). pose proof (to_close_le_length _ H2).
      rewrite length_app in Hlim. simpl in Hlim. lia. }
  clear -Hsame Hst. split.
  - intros Hstep. revert Hsame.
    destruct Hstep as [s0 Hadded _|s0 i w q' evs w' Hi Hstep]; intros Hsame.
    + by apply step_add_start_task.
    + apply (step_thread start_path s0 i w); [done|]. by rewrite <- (Hsame i w).
  - intros Hstep. revert Hsame.
    destruct Hstep as [s0 Hadded|s0 i w q' evs w' Hi Hstep]; intros Hsame.
    + by apply Limits.step_add_start_task.
    + apply (Limits.step_thread limit start_path s0 i w); [done|]. by rewrite (Hsame i w).
Qed.

Lemma steps_within_iff limit N start_path s s' :
  Limits.within limit N start_path s →
  Limits.steps limit start_path s s' ↔ steps start_path s s'.
Proof.
  intros Hw. split.
  - intros Hsteps. induction Hsteps as [|s1 s2 s3 Hstep _ IH]; [apply rtc_refl|].
    apply (step_within_iff _ _ _ _ _ Hw) in Hstep.
    eapply rtc_l; [exact Hstep|]. apply IH. by eapply step_within.
  - intros Hsteps. induction Hsteps as [|s1 s2 s3 Hstep _ IH]; [apply rtc_refl|].
    eapply rtc_l; [by apply (step_within_iff _ _ _ _ _ Hw)|].
    apply IH. by eapply step_within.
Qed.

Lemma pool_created_inv (q : Queue) created :
  Z.of_nat created ≤ thread_amount q → task_q q = [] → t_running q = 0 →
  shutdown q = false → pool_inv (thread_amount q) (pool_created q created).
Proof.
  intros HN Hq Hr Hs. unfold pool_created.
  assert (Forall (λ w, w = at_lock None ∨ w = at_wait) (replicate created (at_lock None)))
    as Hall.
  { apply Forall_replicate. by left. }
  constructor; simpl; try done.
  - by rewrite length_replicate.
  - rewrite Hr, sumZ_replicate. simpl. lia.
  - intros _. split; [done|]. split; [by rewrite Hq|].
    by destruct (idle_at_work _ Hall).
Qed.

Lemma pool_created_within limit start_path (q : Queue) created :
  Z.of_nat created ≤ thread_amount q → Z.of_nat created ≤ limit →
  task_q q = [] → t_running q = 0 → shutdown q = false →
  Limits.start_fits (chars start_path) = true →
  Limits.visit_fits (chars start_path) (target start_path) = true →
  Limits.within limit (thread_amount q) start_path (pool_created q created).
Proof.
  intros HN Hlim Hq Hr Hs Hst Hfit. constructor.
  - by apply pool_created_inv.
  - unfold pool_created. simpl. by rewrite length_replicate.
  - done.
  - done.
  - unfold pool_created. simpl. by rewrite Hq.
  - unfold pool_created. simpl. by apply Forall_replicate.
  - unfold pool_created. simpl. by apply Forall_replicate.
  - unfold pool_created. cbn [happened threads]. rewrite sumZ_replicate.
    unfold open_dirs. simpl. lia.
Qed.

Lemma pool_created_size start_path (q : Queue) created :
  task_q q = [] →
  pool_size start_path (pool_created q created) = block_size q + size_under start_path ∧
  pool_readable start_path (pool_created q created)
  = permission q && readable_under start_path.
Proof.
  intros Hq. unfold pool_size, pool_readable, pool_created. simpl. rewrite Hq. simpl.
  assert (sumZ thread_size (replicate created (at_lock None)) = 0 ∧
          forallb thread_readable (replicate created (at_lock None)) = true) as [-> ->].
  { induction created as [|n [IH1 IH2]]; simpl; [done|]. split; [lia|done]. }
  unfold task_size, task_readable. simpl. split; [lia|]. by rewrite !andb_true_r.
Qed.

(** What [run_mult_thread] leaves in the queue when at least one thread
    was created. *)
Lemma run_mult_thread_created_result created (q : Queue) start_path q' evs :
  (1 ≤ created)%nat → Z.of_nat created ≤ thread_amount q →
  task_q q = [] → t_running q = 0 → shutdown q = false →
  run_mult_thread_created created q start_path q' evs →
  block_size q' = block_size q + size_under start_path ∧
  permission q' = permission q && readable_under start_path.
Proof.
  intros Hc HN Hq Hr Hs (s & Hsteps & Hj & <- & _).
  assert (pool_inv (thread_amount q) s) as Hinv.
  { eapply steps_pool_inv; [|done]. by apply pool_created_inv. }
  pose proof (pool_created_threads _ _ _ _ Hc Hsteps) as Hth.
  destruct (joined_result start_path _ s Hinv Hth Hj) as [H1 H2].
  destruct (pool_created_size start_path q created Hq) as [H3 H4].
  rewrite <- H1, <- H2.
  rewrite (steps_pool_size _ _ _ Hsteps), (steps_pool_readable _ _ _ Hsteps). done.
Qed.

(** When no thread could be created, the start task is added and
    [run_mult_thread] returns at once. *)
Lemma no_thread_created limit (q : Queue) start_path s :
  Limits.steps limit start_path (pool_created q 0) s →
  s = pool_created q 0 ∨
  s = mk_pool (add_task q (start_task start_path)) [] true
        [ev_add_task (start_task start_path)].
Proof.
  assert (∀ s0 s1, Limits.step limit start_path s0 s1 → threads s0 = [] →
            start_added s0 = false ∧
            s1 = mk_pool (add_task (queue s0) (start_task start_path)) [] true
                   (happened s0 ++ [ev_add_task (start_task start_path)])) as Hone.
  { intros s0 s1 [s2 Hadded _|s2 i w q' evs w' Hi _] Hnil.
    - by rewrite Hnil.
    - by rewrite Hnil in Hi. }
  intros Hsteps. apply rtc_inv in Hsteps as [<-|(s1 & Hstep & Hsteps)]; [by left|].
  right. destruct (Hone _ _ Hstep eq_refl) as [_ ->]. simpl in *.
  apply rtc_inv in Hsteps as [<-|(s2 & Hstep2 & _)]; [done|].
  by destruct (Hone _ _ Hstep2 eq_refl) as [? _].
Qed.

Lemma nsteps_within limit N start_path n s s' :
  Limits.within limit N start_path s →
  nsteps (Limits.step limit start_path) n s s' → nsteps (step start_path) n s s'.
Proof.
  intros Hw Hn. induction Hn as [s|n s1 s2 s3 Hstep _ IH]; [constructor|].
  apply (step_within_iff _ _ _ _ _ Hw) in Hstep.
  econstructor; [exact Hstep|]. apply IH. by eapply step_within.
Qed.

Lemma run_mult_thread_within limit created (q : Queue) start_path q' evs :
  Z.of_nat created ≤ thread_amount q → Z.of_nat created ≤ limit →
  task_q q = [] → t_running q = 0 → shutdown q = false →
  Limits.start_fits (chars start_path) = true →
  Limits.visit_fits (chars start_path) (target start_path) = true →
  Limits.run_mult_thread limit created q start_path q' evs
  ↔ run_mult_thread_created created q start_path q' evs.
Proof.
  intros HN Hlim Hq Hr Hs Hst Hfit.
  pose proof (pool_created_within limit start_path q created HN Hlim Hq Hr Hs Hst Hfit) as Hw.
  split; intros (s & Hsteps & Hrest); exists s; (split; [|done]);
    by apply (steps_within_iff _ _ _ _ _ Hw).
Qed.

Lemma run_mult_thread_created_exists created (q : Queue) start_path :
  Z.of_nat created ≤ thread_amount q →
  task_q q = [] → t_running q = 0 → shutdown q = false →
  ∃ q' evs, run_mult_thread_created created q start_path q' evs.
Proof.
  intros HN Hq Hr Hs.
  destruct (pool_terminates start_path _ _ (pool_created_inv q created HN Hq Hr Hs))
    as (s & Hsteps & Hj).
  exists (queue s), (happened s), s. done.
Qed.

Lemma cv_weight_created start_path N (q : Queue) created :
  cv_weight start_path N (cv_created q created)
  = (N + 1) * pool_weight start_path N (pool_created q created).
Proof.
  unfold cv_weight. rewrite cv_created_pool. simpl. rewrite sumZ_replicate. simpl. lia.
Qed.

(** ** The pool and the recursion, together *)

Lemma limits_run_schedule_steps limit start_path schedule s :
  Limits.steps limit start_path s (Limits.run_schedule limit start_path schedule s).
Proof.
  revert s. induction schedule as [|who schedule IH]; intros s; simpl; [apply rtc_refl|].
  eapply rtc_trans; [|apply IH].
  destruct who as [i|]; simpl.
  - destruct (threads s !! i) as [w|] eqn:Hw; [|apply rtc_refl].
    destruct (Limits.run_thread_step limit (open_dirs (happened s)) (queue s) w)
      as [[[q' evs] w']|] eqn:Hstep; [|apply rtc_refl].
    apply rtc_once. by eapply Limits.step_thread.
  - destruct (start_added s) eqn:Hst; [apply rtc_refl|].
    destruct (Limits.start_fits (chars start_path)) eqn:Hfit; [|apply rtc_refl].
    apply rtc_once. by apply Limits.step_add_start_task.
Qed.

Lemma start_task_not_added limit start_path s s' :
  Limits.start_fits (chars start_path) = false →
  Limits.steps limit start_path s s' → start_added s' = start_added s.
Proof.
  intros Hfit. induction 1 as [|s1 s2 s3 Hstep _ IH]; [done|].
  rewrite IH. destruct Hstep as [s1 _ Hfit'|]; [congruence|done].
Qed.

(** C1, as the claim has it, fails outside of four limits.
    - The nesting of the tree. [/tmp/d] has three levels of directories,
      and the process can hold two directory streams open:
      [get_block_size] has the streams of [/tmp/d] and [/tmp/d/e] open
      when it gets to [/tmp/d/e/f], cannot open it, and ends with 24
      blocks and a cleared permission flag; a pool of two threads opens
      one directory per thread at a time and ends, in every run, with 32
      blocks and the flag as it was.
    - The number of threads. With two directory streams and a pool of
      three threads on [/tmp/w], [get_block_size] ends with 24 blocks and
      the flag as it was; in the pool one thread can be in the loop on
      [/tmp/w] and another one in [/tmp/w/y] when the third one gets to
      [/tmp/w/x] and cannot open it: this run ends with a cleared flag.
    - A pool without a thread. When no thread of a pool can be created,
      [run_mult_thread] adds the start task and returns: the block size
      is 0 and the flag is as it was, where [get_block_size] finds 24
      blocks under [/tmp/g] and clears the flag.
    - The size of the buffers. In [/tmp/l] is a file with a name of
      [CHAR_BUF] characters: [make_path] leaves the buffer, and
      [get_block_size] has no result. On a target of [CHAR_BUF]
      characters [lstat] fails and [get_block_size] returns 0; in
      [run_mult_thread] the call of [strcpy] leaves the buffer, and the
      pool has no run. *)
Lemma pool_and_recursion_differ :
  let q2 := mk_queue [] 2 0 0 true false in
  let q3 := mk_queue [] 3 0 0 true false in
  let q4 := mk_queue [] 4 0 0 true false in
  ((λ r : visit_result, r.1) <$> Limits.get_block_size 2 Limits.tmp_d true
   = Some (24, false) ∧
   (∃ q' evs, Limits.run_mult_thread 2 2 q2 Limits.tmp_d q' evs) ∧
   (∀ q' evs, Limits.run_mult_thread 2 2 q2 Limits.tmp_d q' evs →
              block_size q' = 32 ∧ permission q' = true)) ∧
  ((λ r : visit_result, r.1) <$> Limits.get_block_size 2 Limits.tmp_w true
   = Some (24, true) ∧
   (∃ q' evs, Limits.run_mult_thread 2 3 q3 Limits.tmp_w q' evs ∧
              permission q' = false)) ∧
  ((λ r : visit_result, r.1) <$> Limits.get_block_size 1024 tmp_g true
   = Some (24, false) ∧
   (∃ q' evs, Limits.run_mult_thread 1024 0 q4 tmp_g q' evs) ∧
   (∀ q' evs, Limits.run_mult_thread 1024 0 q4 tmp_g q' evs →
              block_size q' = 0 ∧ permission q' = true)) ∧
  (Limits.get_block_size 1024 Limits.tmp_l true = None ∧
   (λ r : visit_result, r.1) <$> Limits.get_block_size 1024 Limits.long_target true
   = Some (0, true) ∧
   (∀ q' evs, ¬ Limits.run_mult_thread 1024 2 q2 Limits.long_target q' evs)).
Proof.
  intros q2 q3 q4. split; [|split; [|split]].
  - split; [vm_compute; reflexivity|].
    assert (Limits.start_fits (chars Limits.tmp_d) = true) as Hst by (vm_compute; reflexivity).
    assert (Limits.visit_fits (chars Limits.tmp_d) (target Limits.tmp_d) = true) as Hfit
      by (vm_compute; reflexivity).
    split.
    + destruct (run_mult_thread_created_exists 2 q2 Limits.tmp_d) as (q' & evs & Hrun);
        [simpl; lia|done..|].
      exists q', evs.
      apply (run_mult_thread_within 2 2 q2 Limits.tmp_d q' evs); [simpl; lia|lia|done..].
    + intros q' evs Hrun.
      apply (run_mult_thread_within 2 2 q2 Limits.tmp_d q' evs) in Hrun;
        [|simpl; lia|lia|done..].
      destruct (run_mult_thread_created_result 2 q2 Limits.tmp_d q' evs) as [H1 H2];
        [lia|simpl; lia|done..|].
      rewrite H1, H2. split; vm_compute; reflexivity.
  - split; [vm_compute; reflexivity|].
    set (schedule := [None] ++ replicate 11 (Some 0%nat) ++ replicate 3 (Some 1%nat)
                     ++ replicate 3 (Some 2%nat)
                     ++ concat (replicate 30 [Some 0%nat; Some 1%nat; Some 2%nat])).
    set (s := Limits.run_schedule 2 Limits.tmp_w schedule (pool_created q3 3)).
    exists (queue s), (happened s). split; [|vm_compute; reflexivity].
    exists s. split; [apply limits_run_schedule_steps|]. split; [|done].
    split; [vm_compute; reflexivity|]. vm_compute. repeat constructor.
  - split; [vm_compute; reflexivity|]. split.
    + eexists _, _, _. split; [|split; [|split; reflexivity]].
      * apply rtc_once. apply (Limits.step_add_start_task 1024 tmp_g (pool_created q4 0));
          [done|vm_compute; reflexivity].
      * split; [done|]. constructor.
    + intros q' evs (s & Hsteps & [Hadded _] & <- & _).
      apply no_thread_created in Hsteps as [->| ->]; done.
  - split; [vm_compute; reflexivity|]. split; [vm_compute; reflexivity|].
    intros q' evs (s & Hsteps & [Hadded _] & _).
    apply start_task_not_added in Hsteps; [|vm_compute; reflexivity].
    rewrite Hsteps in Hadded. done.
Qed.

(** C1, amended: the target is any path with any tree under it in which
    every path that the visit builds fits into its buffer of [CHAR_BUF]
    bytes, as does the target for [strcpy], and whose directories are
    nested no deeper than [limit], the number of directory streams that
    the process can hold open. The pool has the thread amount [N], of
    which [created] threads exist, at least one and no more than [limit],
    and starts like the driver starts it: on an empty queue with a block
    size of 0, no thread running and the shutdown flag down. Then
    [get_block_size] stays inside its buffers, finds a descriptor for
    every [opendir] and is the recursion of [Visit]; the steps of the pool
    within the limits are the steps of [Pool]; the pool comes to an end
    however its threads are interleaved: a run of [run_mult_thread]
    exists, every state that the pool reaches leads on to the state where
    all threads have returned, and no run is longer than a bound that the
    tree and [N] determine. The same holds when a thread in
    [pthread_cond_wait] goes on only after a signal of [add_task] has
    released it: such a run is a run of the pool, in each of its states a
    step is possible unless all threads have returned, it leads on to that
    state, and its length is bounded. At the end of every run the block
    size of the queue is the size that the recursion [get_block_size]
    returns for the target, and the permission flag of the queue is the
    flag that the recursion leaves, from the same flag at the start. *)
Theorem pool_and_recursion_agree (start_path : Path) (N limit : Z) (created : nat)
    (flag : bool) :
  1 ≤ Z.of_nat created ≤ N →
  Z.of_nat created ≤ limit →
  fs_depth (target start_path) ≤ limit →
  Limits.start_fits (chars start_path) = true →
  Limits.visit_fits (chars start_path) (target start_path) = true →
  let q := mk_queue [] N 0 0 flag false in
  let start := pool_created q created in
  Limits.get_block_size limit start_path flag = Some (get_block_size start_path flag) ∧
  (∀ s, Limits.steps limit start_path start s ↔ steps start_path start s) ∧
  (∃ q' evs, Limits.run_mult_thread limit created q start_path q' evs) ∧
  (∀ s, Limits.steps limit start_path start s →
        ∃ s', Limits.steps limit start_path s s' ∧ joined s') ∧
  (∀ n s, nsteps (Limits.step limit start_path) n start s →
          Z.of_nat n ≤ pool_weight start_path N start) ∧
  (∀ s, cv_steps start_path (cv_created q created) s →
        steps start_path start (pool_of s) ∧
        (joined (pool_of s) ∨ ∃ s', cv_step start_path s s') ∧
        ∃ s', cv_steps start_path s s' ∧ joined (pool_of s')) ∧
  (∀ n s, nsteps (cv_step start_path) n (cv_created q created) s →
          Z.of_nat n ≤ (N + 1) * pool_weight start_path N start) ∧
  (∀ q' evs, Limits.run_mult_thread limit created q start_path q' evs →
             block_size q' = (get_block_size start_path flag).1.1 ∧
             permission q' = (get_block_size start_path flag).1.2).
Proof.
  intros HN Hlim Hdepth Hst Hfit q start.
  assert (Z.of_nat created ≤ thread_amount q) as HN' by (simpl; lia).
  assert (pool_inv N start) as Hinv.
  { by apply (pool_created_inv q created). }
  assert (Limits.within limit N start_path start) as Hw.
  { by apply (pool_created_within limit start_path q created). }
  assert (pool_inv N (pool_of (cv_created q created))) as Hinv'
    by (by rewrite cv_created_pool).
  assert (cv_inv N (cv_created q created)) as Hcv by (by apply (cv_created_inv q)).
  assert (cv_threads (cv_created q created) ≠ []) as Hne.
  { unfold cv_created. simpl. destruct created; [lia|done]. }
  split; [|split; [|split; [|split; [|split; [|split; [|split]]]]]].
  - unfold Limits.get_block_size, get_block_size.
    apply get_block_size_at_within; [lia|done].
  - intros s. by apply (steps_within_iff limit N).
  - destruct (run_mult_thread_created_exists created q start_path) as (q' & evs & Hrun);
      [done..|].
    exists q', evs. by apply (run_mult_thread_within limit created q start_path q' evs).
  - intros s Hsteps. apply (steps_within_iff _ _ _ _ _ Hw) in Hsteps.
    pose proof (steps_within _ _ _ _ _ Hw Hsteps) as Hw'.
    destruct (pool_terminates start_path N s (Limits.within_inv _ _ _ _ Hw'))
      as (s' & Hsteps' & Hj).
    exists s'. split; [|done]. by apply (steps_within_iff _ _ _ _ _ Hw').
  - intros n s Hn. apply (nsteps_within _ _ _ _ _ _ Hw) in Hn.
    eapply pool_bounded; [exact Hinv|exact Hn].
  - intros s Hsteps.
    destruct (cv_steps_inv start_path N _ _ Hne Hinv' Hcv Hsteps) as (Hinv1 & Hcv1 & Hne1).
    split; [|split].
    + unfold start. rewrite <- (cv_created_pool q created). by apply cv_steps_pool.
    + by apply (cv_progress start_path N).
    + by apply (cv_terminates start_path N).
  - intros n s Hn. unfold start. rewrite <- (cv_weight_created start_path N q created).
    eapply cv_bounded; [exact Hinv'|exact Hn].
  - intros q' evs Hrun.
    apply (run_mult_thread_within limit created q start_path q' evs) in Hrun; [|done..].
    destruct (run_mult_thread_created_result created q start_path q' evs) as [H1 H2];
      [lia|done..|].
    rewrite get_block_size_flag. simpl in *. split; [lia|done].
Qed.

Lemma pool_and_recursion_agree_witness :
  let q := mk_queue [] 4 0 0 true false in
  let start := pool_created q 3 in
  Limits.get_block_size 1024 tmp_g true = Some (get_block_size tmp_g true) ∧
  (∀ s, Limits.steps 1024 tmp_g start s ↔ steps tmp_g start s) ∧
  (∃ q' evs, Limits.run_mult_thread 1024 3 q tmp_g q' evs) ∧
  (∀ s, Limits.steps 1024 tmp_g start s →
        ∃ s', Limits.steps 1024 tmp_g s s' ∧ joined s') ∧
  (∀ n s, nsteps (Limits.step 1024 tmp_g) n start s →
          Z.of_nat n ≤ pool_weight tmp_g 4 start) ∧
  (∀ s, cv_steps tmp_g (cv_created q 3) s →
        steps tmp_g start (pool_of s) ∧
        (joined (pool_of s) ∨ ∃ s', cv_step tmp_g s s') ∧
        ∃ s', cv_steps tmp_g s s' ∧ joined (pool_of s')) ∧
  (∀ n s, nsteps (cv_step tmp_g) n (cv_created q 3) s →
          Z.of_nat n ≤ (4 + 1) * pool_weight tmp_g 4 start) ∧
  (∀ q' evs, Limits.run_mult_thread 1024 3 q tmp_g q' evs →
             block_size q' = (get_block_size tmp_g true).1.1 ∧
             permission q' = (get_block_size tmp_g true).1.2).
Proof.
  intros q start.
  apply (pool_and_recursion_agree tmp_g 4 1024 3 true);
    [lia|lia|vm_compute; discriminate|vm_compute; reflexivity|vm_compute; reflexivity].
Defined.

(** ** Within the limits: the calls of a run and the state at its end *)

Lemma run_mult_thread_created_count (c : event → Z) created (q : Queue) start_path q' evs :
  (∀ p, c (ev_free p) = 0) → (∀ t, c (ev_add_task t) = 0) →
  c ev_permission_false = 0 → c ev_shutdown = 0 →
  (1 ≤ created)%nat → Z.of_nat created ≤ thread_amount q →
  task_q q = [] → t_running q = 0 → shutdown q = false →
  run_mult_thread_created created q start_path q' evs →
  sumZ c evs = sumZ c (get_block_size start_path true).2.
Proof.
  intros c1 c2 c3 c4 Hc HN Hq Hr Hs (s & Hsteps & Hj & _ & <-).
  assert (pool_inv (thread_amount q) s) as Hinv.
  { eapply steps_pool_inv; [|done]. by apply pool_created_inv. }
  pose proof (pool_created_threads start_path q created s Hc Hsteps) as Hne.
  pose proof (joined_winding_down _ s Hinv Hne Hj) as Hph.
  destruct (inv_winding_down _ s Hinv Hph) as (Hkill & _ & _).
  pose proof (steps_pool_count c c1 c2 c3 c4 start_path _ _ Hsteps) as Hcount.
  destruct Hj as [Hst Hret].
  assert (sumZ (task_count c) (task_q (queue s)) = 0) as Hq0.
  { clear -Hkill. induction Hkill as [|t l Ht _ IH]; simpl; [done|].
    unfold is_kill in Ht. apply bool_decide_eq_true in Ht.
    unfold task_count at 1. rewrite Ht. lia. }
  assert (sumZ (thread_count c) (threads s) = 0) as Ht0.
  { clear -Hret. induction Hret as [|w l -> _ IH]; simpl; [done|]. lia. }
  assert (∀ n, sumZ (thread_count c) (replicate n (at_lock None)) = 0) as Hstart.
  { intros n. rewrite sumZ_replicate. simpl. lia. }
  unfold pool_count, pool_created in Hcount. simpl in Hcount.
  rewrite Hst, Hq0, Ht0, Hq, Hstart in Hcount. simpl in Hcount.
  unfold task_count in Hcount. simpl in Hcount. lia.
Qed.

Lemma run_mult_thread_created_calls created (q : Queue) start_path q' evs :
  (1 ≤ created)%nat → Z.of_nat created ≤ thread_amount q →
  task_q q = [] → t_running q = 0 → shutdown q = false →
  run_mult_thread_created created q start_path q' evs →
  calls evs ≡ₚ calls (get_block_size start_path true).2.
Proof.
  intros Hc HN Hq Hr Hs Hrun. apply (Permutation_count_occ call_eq_dec). intros x.
  apply Nat2Z.inj. rewrite !count_occ_calls.
  by apply (run_mult_thread_created_count (occurs x) created q start_path q' evs).
Qed.

Lemma run_mult_thread_created_end created (q : Queue) start_path q' evs :
  (1 ≤ created)%nat → Z.of_nat created ≤ thread_amount q →
  task_q q = [] → t_running q = 0 → shutdown q = false →
  run_mult_thread_created created q start_path q' evs →
  shutdown q' = true ∧ t_running q' = 0 ∧ thread_amount q' = thread_amount q ∧
  Forall (λ t, is_kill t = true) (task_q q').
Proof.
  intros Hc HN Hq Hr Hs (s & Hsteps & Hj & <- & _).
  assert (pool_inv (thread_amount q) s) as Hinv.
  { eapply steps_pool_inv; [|done]. by apply pool_created_inv. }
  pose proof (pool_created_threads start_path q created s Hc Hsteps) as Hne.
  pose proof (joined_winding_down _ s Hinv Hne Hj) as Hph.
  destruct (inv_winding_down _ s Hinv Hph) as (Hkill & _ & _).
  destruct Hj as [_ Hret].
  split; [|split; [|split]]; [| |apply (inv_amount _ s Hinv)|exact Hkill].
  - apply (steps_shutdown _ _ _ Hsteps).
    + unfold pool_created. cbn [threads]. rewrite Exists_exists.
      intros (w & Hin & ->). by apply elem_of_replicate in Hin as [? _].
    + destruct Hret as [|w ws -> _]; [done|]. by left.
  - rewrite (inv_running _ s Hinv).
    clear -Hret. induction Hret as [|w ws -> _ IH]; simpl; [done|]. lia.
Qed.

(** X18: what [run_mult_thread] leaves for the driver, within the limits:
    the target fits into its buffer, as does every path that the visit
    builds, and no more threads exist than the process can hold directory
    streams open. The thread amount of the queue is as it was and no
    thread counts as running. If at least one thread was created, the
    shutdown flag is up when all threads have returned, and every task
    that is still in the queue is a kill task. If no thread was created,
    [run_mult_thread] has added the start task and nothing else has
    happened: the start task is in the queue, the block size and the
    permission flag are as they were, and the shutdown flag is down. *)
Theorem pool_end_state (start_path : Path) (N limit : Z) (created : nat) (flag : bool)
    (q' : Queue) (evs : list event) :
  Z.of_nat created ≤ N →
  Z.of_nat created ≤ limit →
  Limits.start_fits (chars start_path) = true →
  Limits.visit_fits (chars start_path) (target start_path) = true →
  Limits.run_mult_thread limit created (mk_queue [] N 0 0 flag false) start_path q' evs →
  thread_amount q' = N ∧ t_running q' = 0 ∧
  match created with
  | O => q' = mk_queue [start_task start_path] N 0 0 flag false ∧
         evs = [ev_add_task (start_task start_path)]
  | S _ => shutdown q' = true ∧ Forall (λ t, is_kill t = true) (task_q q')
  end.
Proof.
  intros HN Hlim Hst Hfit Hrun. set (q := mk_queue [] N 0 0 flag false) in *.
  destruct created as [|created].
  - destruct Hrun as (s & Hsteps & [Hadded _] & <- & <-).
    apply no_thread_created in Hsteps as [->| ->]; [done|]. done.
  - apply (run_mult_thread_within limit (S created) q start_path q' evs) in Hrun;
      [|done..].
    destruct (run_mult_thread_created_end (S created) q start_path q' evs)
      as (H1 & H2 & H3 & H4); [lia|done..|]. done.
Qed.

Lemma pool_end_state_witness :
  let q := mk_queue [] 2 0 0 true false in
  let s := run_schedule tmp_g (concat (replicate 40 [None; Some 0%nat]))
             (pool_created q 1) in
  Limits.run_mult_thread 1024 1 q tmp_g (queue s) (happened s) ∧
  task_q (queue s) = [kill_task_of_pool] ∧
  thread_amount (queue s) = 2 ∧ t_running (queue s) = 0 ∧
  shutdown (queue s) = true ∧ Forall (λ t, is_kill t = true) (task_q (queue s)).
Proof.
  intros q s.
  assert (Limits.run_mult_thread 1024 1 q tmp_g (queue s) (happened s)) as Hrun.
  { apply (run_mult_thread_within 1024 1 q tmp_g (queue s) (happened s));
      [simpl; lia|lia|reflexivity|reflexivity|reflexivity|vm_compute; reflexivity
      |vm_compute; reflexivity|].
    exists s. split; [apply run_schedule_steps|]. split; [|done].
    split; [vm_compute; reflexivity|]. vm_compute. repeat constructor. }
  split; [exact Hrun|]. split; [vm_compute; reflexivity|].
  apply (pool_end_state tmp_g 2 1024 1 true (queue s) (happened s));
    [lia|lia|vm_compute; reflexivity|vm_compute; reflexivity|exact Hrun].
Defined.

(** X21: within the limits a pool makes the same system calls and prints
    the same lines on the error stream as the recursion does on the same
    target, each of them as often. The target fits into its buffer, as
    does every path that the visit builds; the directories are nested no
    deeper than [limit], the number of directory streams that the process
    can hold open; at least one thread was created, and no more than
    [limit]. Then [get_block_size] returns, and the calls [lstat],
    [opendir], [closedir] and the lines of a run of [run_mult_thread] are
    those of [get_block_size] in another order, however the threads are
    interleaved. *)
Theorem pool_makes_the_calls_of_the_recursion (start_path : Path) (N limit : Z)
    (created : nat) (flag : bool) (q' : Queue) (evs : list event) :
  1 ≤ Z.of_nat created ≤ N →
  Z.of_nat created ≤ limit →
  fs_depth (target start_path) ≤ limit →
  Limits.start_fits (chars start_path) = true →
  Limits.visit_fits (chars start_path) (target start_path) = true →
  Limits.run_mult_thread limit created (mk_queue [] N 0 0 flag false) start_path q' evs →
  ∃ r, Limits.get_block_size limit start_path flag = Some r ∧
       calls evs ≡ₚ calls r.2.
Proof.
  intros HN Hlim Hdepth Hst Hfit Hrun.
  exists (get_block_size start_path flag). split.
  - unfold Limits.get_block_size, get_block_size.
    apply get_block_size_at_within; [lia|done].
  - apply (run_mult_thread_within limit created (mk_queue [] N 0 0 flag false)
             start_path q' evs) in Hrun; [|simpl; lia|done..].
    rewrite (get_block_size_flag start_path flag). cbn [snd].
    apply (run_mult_thread_created_calls created (mk_queue [] N 0 0 flag false)
             start_path q' evs); [lia|simpl; lia|done..].
Qed.

Lemma pool_makes_the_calls_of_the_recursion_witness :
  let q := mk_queue [] 2 0 0 true false in
  let s := run_schedule tmp_g (concat (replicate 19 [None; Some 0%nat; Some 1%nat]))
             (pool_created q 2) in
  Limits.run_mult_thread 1024 2 q tmp_g (queue s) (happened s) ∧
  ∃ r, Limits.get_block_size 1024 tmp_g true = Some r ∧
       calls (happened s) ≡ₚ calls r.2.
Proof.
  intros q s.
  assert (Limits.run_mult_thread 1024 2 q tmp_g (queue s) (happened s)) as Hrun.
  { apply (run_mult_thread_within 1024 2 q tmp_g (queue s) (happened s));
      [simpl; lia|lia|reflexivity|reflexivity|reflexivity|vm_compute; reflexivity
      |vm_compute; reflexivity|].
    exists s. split; [apply run_schedule_steps|]. split; [|done].
    split; [vm_compute; reflexivity|]. vm_compute. repeat constructor. }
  split; [exact Hrun|].
  apply (pool_makes_the_calls_of_the_recursion tmp_g 2 1024 2 true (queue s) (happened s));
    [lia|lia|vm_compute; discriminate|vm_compute; reflexivity|vm_compute; reflexivity
    |exact Hrun].
Defined.
